(** * sz_sqs_consumer: the SQS consumer loop, its lease sweep and its fatal path

    A shallow embedding of [src/sz_sqs_consumer.py].  The single-threaded
    orchestrator is written in a small monad that threads the loop's mutable
    variables, records every call to an external collaborator (queue client,
    worker pool, governor, engine, console) in a trace, and propagates Python
    exceptions.  Everything the outside world decides (clock readings, which
    futures are finished, what [receive_message] returns, which calls raise)
    is read from an explicit per-cycle input record.

    Floats ([time.time()], [LONG_RECORD/2], durations) are idealised as exact
    rationals. *)

From Stdlib Require Import ZArith QArith Qround List Ascii String Bool Lia.
Import ListNotations.
Local Open Scope string_scope.
Local Open Scope list_scope.
Local Open Scope Z_scope.

Set Implicit Arguments.

(* ===================================================================== *)
(** ** Python values and the operators the loop applies to [LONG_RECORD] *)
(* ===================================================================== *)

Module Py.

(** The exception classes that can reach the handlers.  [SystemExit] is the
    only one that is not a subclass of [Exception]. *)
Inductive exn : Type :=
| TypeError
| KeyError
| ValueError
| ZeroDivisionError
| JSONDecodeError
| ClientError (what : string)      (* raised by the queue client *)
| ProcessingError (what : string)  (* re-raised by [process_msg] in a worker *)
| PrintError (what : string)
    (* raised by [print]: [UnicodeEncodeError], [BrokenPipeError], ... *)
| SystemExit (code : Z).

Definition is_Exception (e : exn) : bool :=
  match e with SystemExit _ => false | _ => true end.

(** What evaluating an expression or a call gives: a value or a raise. *)
Inductive res (A : Type) : Type :=
| Val (a : A)
| Exc (e : exn).
Arguments Val {A} a.
Arguments Exc {A} e.

(** The dynamically typed values that flow through the module-level
    constant [LONG_RECORD]: an [int], a [float] or a [str]. *)
Inductive value : Type :=
| VInt (n : Z)
| VFloat (q : Q)
| VStr (s : string).

(** [s * n] for a string: [n] copies of [s], the empty string for [n <= 0]. *)
Fixpoint repeat_string (s : string) (n : nat) : string :=
  match n with
  | O => EmptyString
  | S k => String.append s (repeat_string s k)
  end.

(** [a / b]: true division of numbers gives a float; a [str] operand is
    unsupported. *)
Definition truediv (a b : value) : res value :=
  match a, b with
  | VInt x, VInt y =>
      if y =? 0 then Exc ZeroDivisionError else Val (VFloat (inject_Z x / inject_Z y))
  | VInt x, VFloat y =>
      if Qeq_bool y 0 then Exc ZeroDivisionError else Val (VFloat (inject_Z x / y))
  | VFloat x, VInt y =>
      if y =? 0 then Exc ZeroDivisionError else Val (VFloat (x / inject_Z y))
  | VFloat x, VFloat y =>
      if Qeq_bool y 0 then Exc ZeroDivisionError else Val (VFloat (x / y))
  | _, _ => Exc TypeError
  end.

(** [a + b]: numbers add, strings concatenate, a number and a string do
    not mix. *)
Definition add (a b : value) : res value :=
  match a, b with
  | VInt x, VInt y => Val (VInt (x + y))
  | VInt x, VFloat y => Val (VFloat (inject_Z x + y))
  | VFloat x, VInt y => Val (VFloat (x + inject_Z y))
  | VFloat x, VFloat y => Val (VFloat (x + y))
  | VStr x, VStr y => Val (VStr (String.append x y))
  | _, _ => Exc TypeError
  end.

(** [a * b]: numbers multiply; an [int] times a [str] (either way round)
    repeats the string; a [float] times a [str], or two strings, raise. *)
Definition mul (a b : value) : res value :=
  match a, b with
  | VInt x, VInt y => Val (VInt (x * y))
  | VInt x, VFloat y => Val (VFloat (inject_Z x * y))
  | VFloat x, VInt y => Val (VFloat (x * inject_Z y))
  | VFloat x, VFloat y => Val (VFloat (x * y))
  | VInt x, VStr s => Val (VStr (repeat_string s (Z.to_nat x)))
  | VStr s, VInt y => Val (VStr (repeat_string s (Z.to_nat y)))
  | _, _ => Exc TypeError
  end.

Definition Qgtb (x y : Q) : bool := negb (Qle_bool x y).

(** [a > b]: numbers compare by value, strings lexicographically, a number
    and a string are not ordered. *)
Definition gt (a b : value) : res bool :=
  match a, b with
  | VInt x, VInt y => Val (y <? x)
  | VInt x, VFloat y => Val (Qgtb (inject_Z x) y)
  | VFloat x, VInt y => Val (Qgtb x (inject_Z y))
  | VFloat x, VFloat y => Val (Qgtb x y)
  | VStr x, VStr y => Val (String.ltb y x)
  | _, _ => Exc TypeError
  end.

(** [d.get(key)] on a dict with string keys and values. *)
Fixpoint assoc (key : string) (items : list (string * string)) : option string :=
  match items with
  | [] => None
  | (k, v) :: rest => if String.eqb k key then Some v else assoc key rest
  end.

(** [os.getenv(name, default=d)]: the variable's text when it is set, the
    default object (whatever its type) otherwise. *)
Definition getenv (environ : list (string * string)) (name : string) (default : value)
  : value :=
  match assoc name environ with
  | Some text => VStr text
  | None => default
  end.

End Py.

Import Py.

(* ===================================================================== *)
(** ** Data model *)
(* ===================================================================== *)

(** A [Future] object is known by its identity; the executor hands out a
    fresh one at every [submit]. *)
Definition fut := nat.

(** One element of the ['Messages'] list of a [receive_message] answer. *)
Record message : Type := { ReceiptHandle : string; Body : string }.

(** The 3-tuple [(this_msg, time.time(), 0)] stored per future (line 182),
    read through the indices [TUPLE_MSG], [TUPLE_STARTTIME] and
    [TUPLE_EXTENDED] (lines 21-23). *)
Record entry : Type :=
  { TUPLE_MSG : message; TUPLE_STARTTIME : Q; TUPLE_EXTENDED : Z }.

(** [futures[fut][i] = v] on such a tuple (line 152): a Python tuple does not
    support item assignment, whatever the index and the value. *)
Definition tuple_setitem (t : entry) (i : Z) (v : Q * Z) : res entry :=
  Exc TypeError.

(** The [futures] dict.  A Python dict keeps insertion order, which is the
    order [futures.items()] iterates in. *)
Definition registry := list (fut * entry).

Fixpoint has_key (f : fut) (d : registry) : bool :=
  match d with
  | [] => false
  | (k, _) :: rest => if Nat.eqb k f then true else has_key f rest
  end.

(** [d.pop(f)]: the stored value and the dict without the key, [KeyError]
    for an absent key. *)
Fixpoint dict_pop (f : fut) (d : registry) : res (entry * registry) :=
  match d with
  | [] => Exc KeyError
  | (k, v) :: rest =>
      if Nat.eqb k f then Val (v, rest)
      else match dict_pop f rest with
           | Val (x, rest') => Val (x, (k, v) :: rest')
           | Exc e => Exc e
           end
  end.

(** [d[f] = v]: overwrite in place, or append a new key at the end. *)
Fixpoint dict_set (f : fut) (v : entry) (d : registry) : registry :=
  match d with
  | [] => [(f, v)]
  | (k, x) :: rest =>
      if Nat.eqb k f then (k, v) :: rest else (k, x) :: dict_set f v rest
  end.

(** What [orjson.loads] gives for a message body that is valid JSON: an
    object with its string fields, or some other JSON value. *)
Inductive json : Type :=
| JDict (items : list (string * string))
| JOther.

(** [record[key]] *)
Definition subscript (record : json) (key : string) : res string :=
  match record with
  | JDict items =>
      match assoc key items with Some v => Val v | None => Exc KeyError end
  | JOther => Exc TypeError
  end.

(** The lines the program prints. *)
Inductive line : Type :=
| LThreads (n : Z)                                         (* line 108 *)
| LResult (payload : string)                               (* line 120 *)
| LRate (messages speed : Z)                               (* line 130 *)
| LStats                                                   (* line 138 *)
| LExtended (minutes : Q) (times_extended : Z) (data_source record_id : string)
                                                           (* line 153 *)
| LAllStuck (n : Z)                                        (* line 155 *)
| LFetchError (e : exn)                                    (* line 184 *)
| LShuttingDown (e : exn)                                  (* line 190 *)
| LTraceback                                               (* lines 191, 203 *)
| LStillProcessing (minutes : Q) (data_source record_id : string)
                                                           (* line 197 *)
| LError (e : exn).                                        (* line 202 *)

(** Every interaction of the orchestrator with a collaborator, in program
    order.  [Register] and [Deregister] are the two updates of the [futures]
    dict (the insertion of line 182 and the [pop] of line 121).  The future
    carried by [DeleteMessage] and [ChangeVisibility] names the task whose
    receipt handle is passed to the queue client. *)
Inductive event : Type :=
| Print (l : line)
| Wait                                               (* line 115 *)
| Result (f : fut) (r : res (option string))         (* line 118 *)
| Deregister (f : fut)                               (* line 121 *)
| DeleteMessage (f : fut) (handle : string)          (* line 122 *)
| Stats                                              (* line 137 *)
| ChangeVisibility (f : fut) (handle : string) (VisibilityTimeout : value)
                                                     (* line 151 *)
| Govern (pauseSeconds : Q)                          (* line 158 *)
| Sleep (seconds : Q)                                (* lines 162-179 *)
| ReceiveMessage (VisibilityTimeout : value)         (* line 172 *)
| Submit (f : fut) (body : string)                   (* line 182 *)
| Register (f : fut) (entry_ : entry)                (* line 182 *)
| Shutdown                                           (* line 198, end of [with] *)
| Exit (code : Z).                                   (* lines 199, 204 *)

(** The variables the loop mutates. *)
Record state : Type :=
  { futures : registry;
    messages : Z;
    logCheckTime : Q;
    prevTime : Q;
    next_future : fut  (* how many futures the executor has created *) }.

Definition set_futures (d : registry) (s : state) : state :=
  {| futures := d; messages := messages s; logCheckTime := logCheckTime s;
     prevTime := prevTime s; next_future := next_future s |}.
Definition set_messages (n : Z) (s : state) : state :=
  {| futures := futures s; messages := n; logCheckTime := logCheckTime s;
     prevTime := prevTime s; next_future := next_future s |}.
Definition set_logCheckTime (t : Q) (s : state) : state :=
  {| futures := futures s; messages := messages s; logCheckTime := t;
     prevTime := prevTime s; next_future := next_future s |}.
Definition set_prevTime (t : Q) (s : state) : state :=
  {| futures := futures s; messages := messages s; logCheckTime := logCheckTime s;
     prevTime := t; next_future := next_future s |}.
Definition set_next_future (n : fut) (s : state) : state :=
  {| futures := futures s; messages := messages s; logCheckTime := logCheckTime s;
     prevTime := prevTime s; next_future := n |}.

(* ===================================================================== *)
(** ** The orchestrator's monad: state, trace and exceptions *)
(* ===================================================================== *)

Definition trace := list event.

(** How a computation ends: it returns, it raises, or it has not ended: the
    recorded world has no further answers while the [while True] loop is
    still going, or the process waits in [executor.shutdown()] for a task
    that does not end (the trace is then all that is observed, and the
    process has no exit status). *)
Inductive outcome (A : Type) : Type :=
| Done (a : A)
| Raised (e : exn)
| Running.
Arguments Done {A} a.
Arguments Raised {A} e.
Arguments Running {A}.

Definition M (A : Type) : Type := state -> trace * state * outcome A.

Definition ret {A} (a : A) : M A := fun s => ([], s, Done a).

Definition bind {A B} (m : M A) (k : A -> M B) : M B :=
  fun s =>
    match m s with
    | (t1, s1, Done a) =>
        match k a s1 with
        | (t2, s2, r) => (t1 ++ t2, s2, r)
        end
    | (t1, s1, Raised e) => (t1, s1, Raised e)
    | (t1, s1, Running) => (t1, s1, Running)
    end.

Definition emit (e : event) : M unit := fun s => ([e], s, Done tt).
Definition raise {A} (e : exn) : M A := fun s => ([], s, Raised e).
Definition still_running {A} : M A := fun s => ([], s, Running).
Definition get : M state := fun s => ([], s, Done s).
Definition modify (f : state -> state) : M unit := fun s => ([], f s, Done tt).

(** The value of an expression, or the exception its evaluation raises. *)
Definition eval {A} (r : res A) : M A :=
  match r with Val a => ret a | Exc e => raise e end.

(** A call that returns nothing and may raise. *)
Definition may_raise (o : option exn) : M unit :=
  match o with None => ret tt | Some e => raise e end.

(** [try: m except Exception as err: h err].  [SystemExit] passes through. *)
Definition try_except {A} (m : M A) (h : exn -> M A) : M A :=
  fun s =>
    match m s with
    | (t1, s1, Raised e) =>
        if is_Exception e then
          match h e s1 with
          | (t2, s2, r) => (t1 ++ t2, s2, r)
          end
        else (t1, s1, Raised e)
    | other => other
    end.

(** [m] followed by [fin] however [m] ends (the exit of a [with] block);
    what [m] returned or raised comes out once [fin] has come back. *)
Definition finally {A} (m : M A) (fin : M unit) : M A :=
  fun s =>
    match m s with
    | (t1, s1, Running) => (t1, s1, Running)
    | (t1, s1, r) =>
        match fin s1 with
        | (t2, s2, Running) => (t1 ++ t2, s2, Running)
        | (t2, s2, _) => (t1 ++ t2, s2, r)
        end
    end.

Declare Scope monad_scope.
Delimit Scope monad_scope with monad.
Notation "x <- c ;; k" := (bind c (fun x => k))
  (at level 61, c at next level, right associativity) : monad_scope.
Notation "c ;; k" := (bind c (fun _ => k))
  (at level 61, right associativity) : monad_scope.
Local Open Scope monad_scope.

Definition when (b : bool) (m : M unit) : M unit := if b then m else ret tt.

(** [for x in xs: body x] *)
Fixpoint for_each {X} (xs : list X) (body : X -> M unit) : M unit :=
  match xs with
  | [] => ret tt
  | x :: rest => body x ;; for_each rest body
  end.

(* ===================================================================== *)
(** ** What the outside world answers *)
(* ===================================================================== *)

(** One answer of [sqs.receive_message]: the call raises, or returns a
    response whose ['Messages'] list may be missing or empty (both [[]]). *)
Inductive receive_response : Type :=
| RecvRaise (e : exn)
| RecvResp (Messages : list message).

(** Everything the world decides during one pass through the loop body. *)
Record cycle_input : Type :=
  { in_now : Q;                          (* [time.time()], line 113 *)
    in_done : list fut;                  (* finished futures, in the order the
                                            [done] set iterates *)
    in_result : fut -> res (option string);  (* what [fut.result()] does *)
    in_print : fut -> option string;     (* does [print(result)] raise, line 120 *)
    in_delete : fut -> option exn;       (* does [delete_message] raise *)
    in_fut_done : fut -> bool;           (* [fut.done()] during the sweep *)
    in_change : fut -> option exn;       (* does [change_visibility] raise *)
    in_pause : Q;                        (* [governor.govern()] *)
    in_fetch : list (receive_response * Q)
      (* successive [receive_message] answers, each with the [time.time()]
         read when its message is submitted; past the end of the list the
         queue is empty *) }.

(** [concurrent.futures.wait(futures, ...)] returns as [done] a set of
    futures taken from its argument: the finished ones the world names,
    restricted to the keys of [futures], without repetition. *)
Definition wait (d : registry) (finished : list fut) : list fut :=
  nodup Nat.eq_dec (filter (fun f => has_key f d) finished).

(** [print] writes to a stream, and the stream can refuse: the error it
    then raises is an [Exception]. *)
Definition print_error (refused : option string) : option exn :=
  option_map PrintError refused.

Definition INTERVAL : Z := 10000.

(** [int(x)] of a float: truncation towards zero. *)
Definition int_of (x : Q) : Z := Z.quot (Qnum x) (Z.pos (Qden x)).

Definition Qltb (x y : Q) : bool := negb (Qle_bool y x).

Definition len (d : registry) : Z := Z.of_nat (List.length d).

Fixpoint dict_get (f : fut) (d : registry) : res entry :=
  match d with
  | [] => Exc KeyError
  | (k, v) :: rest => if Nat.eqb k f then Val v else dict_get f rest
  end.

(* ===================================================================== *)
(** ** The consumer loop (lines 111-185) *)
(* ===================================================================== *)

(** Line 133: [nowTime > logCheckTime+(LONG_RECORD/2)]. *)
Definition sweep_due (LONG_RECORD : value) (nowTime logCheckTime : Q) : res bool :=
  match truediv LONG_RECORD (VInt 2) with
  | Exc e => Exc e
  | Val half =>
      match add (VFloat logCheckTime) half with
      | Exc e => Exc e
      | Val deadline => gt (VFloat nowTime) deadline
      end
  end.

(** Line 145: [duration > LONG_RECORD]. *)
Definition over_threshold (LONG_RECORD : value) (duration : Q) : res bool :=
  gt (VFloat duration) LONG_RECORD.

(** Line 149: [new_time = times_extended*LONG_RECORD*2]. *)
Definition new_time (LONG_RECORD : value) (times_extended : Z) : res value :=
  match mul (VInt times_extended) LONG_RECORD with
  | Exc e => Exc e
  | Val x => mul x (VInt 2)
  end.

(** Line 174: [VisibilityTimeout=2*LONG_RECORD]. *)
Definition receive_visibility (LONG_RECORD : value) : res value :=
  mul (VInt 2) LONG_RECORD.

Section Loop.

(** [orjson.loads] on a message body: [None] when it raises. *)
Variable loads : string -> option json.
(** The module constant of line 19 and [executor._max_workers]. *)
Variable LONG_RECORD : value.
Variable max_workers : Z.

Definition orjson_loads (body : string) : M json :=
  match loads body with Some j => ret j | None => raise JSONDecodeError end.

(** Lines 118-131: the body of [for fut in done]. *)
Definition harvest_one (w : cycle_input) (nowTime : Q) (f : fut) : M unit :=
  emit (Result f (in_result w f)) ;;
  result <- eval (in_result w f) ;;
  match result with
  | Some (String c r) =>
      emit (Print (LResult (String c r))) ;;
      may_raise (print_error (in_print w f))
  | _ => ret tt
  end ;;
  s <- get ;;
  popped <- eval (dict_pop f (futures s)) ;;
  modify (set_futures (snd popped)) ;;
  emit (Deregister f) ;;
  let msg := fst popped in
  emit (DeleteMessage f (ReceiptHandle (TUPLE_MSG msg))) ;;
  may_raise (in_delete w f) ;;
  modify (fun s => set_messages (messages s + 1) s) ;;
  s <- get ;;
  when (messages s mod INTERVAL =? 0)
    (let diff := (nowTime - prevTime s)%Q in
     let speed := if Qgtb diff 0 then int_of (inject_Z INTERVAL / diff) else -1 in
     emit (Print (LRate (messages s) speed)) ;;
     modify (set_prevTime nowTime)).

(** Lines 143-153: what the sweep does for one entry of [futures.items()];
    returns the updated [numStuck]. *)
Definition sweep_one (w : cycle_input) (nowTime : Q) (f : fut) (msg : entry)
    (numStuck : Z) : M Z :=
  if negb (in_fut_done w f) then
    let duration := (nowTime - TUPLE_STARTTIME msg)%Q in
    long <- eval (over_threshold LONG_RECORD duration) ;;
    if (long : bool) then
      let numStuck := numStuck + 1 in
      record <- orjson_loads (Body (TUPLE_MSG msg)) ;;
      let times_extended := TUPLE_EXTENDED msg + 1 in
      window <- eval (new_time LONG_RECORD times_extended) ;;
      emit (ChangeVisibility f (ReceiptHandle (TUPLE_MSG msg)) window) ;;
      may_raise (in_change w f) ;;
      s <- get ;;
      stored <- eval (dict_get f (futures s)) ;;
      eval (tuple_setitem stored 1 (nowTime, times_extended)) ;;
      data_source <- eval (subscript record "DATA_SOURCE") ;;
      record_id <- eval (subscript record "RECORD_ID") ;;
      emit (Print (LExtended (duration / 60) times_extended data_source record_id)) ;;
      ret numStuck
    else ret numStuck
  else ret numStuck.

(** Lines 142-155: [for fut, msg in futures.items()]. *)
Fixpoint sweep (w : cycle_input) (nowTime : Q) (items : registry) (numStuck : Z)
  : M unit :=
  match items with
  | [] => ret tt
  | (f, msg) :: rest =>
      numStuck' <- sweep_one w nowTime f msg numStuck ;;
      when (max_workers <=? numStuck') (emit (Print (LAllStuck max_workers))) ;;
      sweep w nowTime rest numStuck'
  end.

(** Lines 113-155: harvest the finished futures, then sweep if it is due. *)
Definition harvest_and_sweep (w : cycle_input) : M unit :=
  let nowTime := in_now w in
  s <- get ;;
  match futures s with
  | [] => ret tt
  | _ :: _ =>
      emit Wait ;;
      for_each (wait (futures s) (in_done w)) (harvest_one w nowTime) ;;
      s <- get ;;
      due <- eval (sweep_due LONG_RECORD nowTime (logCheckTime s)) ;;
      when due
        (modify (set_logCheckTime nowTime) ;;
         emit Stats ;;
         emit (Print LStats) ;;
         s <- get ;;
         sweep w nowTime (futures s) 0)
  end.

(** Lines 172-182: one pass through the body of the fetch loop; [true] to go
    round again, [false] for [break]. *)
Definition fetch_once (answer : receive_response) (submitted_at : Q) : M bool :=
  visibility <- eval (receive_visibility LONG_RECORD) ;;
  emit (ReceiveMessage visibility) ;;
  match answer with
  | RecvRaise e => raise e
  | RecvResp [] =>
      s <- get ;;
      when (len (futures s) =? 0) (emit (Sleep (1 # 10))) ;;
      ret false
  | RecvResp (this_msg :: _) =>
      s <- get ;;
      let f := next_future s in
      let stored := {| TUPLE_MSG := this_msg; TUPLE_STARTTIME := submitted_at;
                       TUPLE_EXTENDED := 0 |} in
      emit (Submit f (Body this_msg)) ;;
      modify (set_next_future (S f)) ;;
      modify (fun s => set_futures (dict_set f stored (futures s)) s) ;;
      emit (Register f stored) ;;
      ret true
  end.

(** Lines 183-185: the [except] around the body of the fetch loop. *)
Definition guarded_fetch (answer : receive_response) (submitted_at : Q) : M bool :=
  try_except (fetch_once answer submitted_at)
    (fun err => emit (Print (LFetchError err)) ;; raise err).

(** Lines 170-185: [while len(futures) < executor._max_workers]. *)
Fixpoint fetch_loop (answers : list (receive_response * Q)) : M unit :=
  s <- get ;;
  if len (futures s) <? max_workers then
    match answers with
    | [] => guarded_fetch (RecvResp []) 0 ;; ret tt
    | (answer, submitted_at) :: rest =>
        again <- guarded_fetch answer submitted_at ;;
        if (again : bool) then fetch_loop rest else ret tt
    end
  else ret tt.

(** Lines 158-185: the throttle gate, the capacity gate and the fetch loop. *)
Definition gate_and_fetch (w : cycle_input) : M unit :=
  let pauseSeconds := in_pause w in
  emit (Govern pauseSeconds) ;;
  if Qltb pauseSeconds 0 then emit (Sleep 1)
  else
    s <- get ;;
    if max_workers <=? len (futures s) then emit (Sleep 1)
    else
      when (Qgtb pauseSeconds 0) (emit (Sleep pauseSeconds)) ;;
      fetch_loop (in_fetch w).

(** One pass through the body of [while True]. *)
Definition cycle (w : cycle_input) : M unit :=
  harvest_and_sweep w ;; gate_and_fetch w.

(** [while True]: one pass per recorded cycle; the loop itself never ends. *)
Fixpoint loop (ws : list cycle_input) : M unit :=
  match ws with
  | [] => still_running
  | w :: rest => cycle w ;; loop rest
  end.

End Loop.

(* ===================================================================== *)
(** ** The fatal path and the program around the loop (lines 102-204) *)
(* ===================================================================== *)

(** A whole run as the world sees it. *)
Record world : Type :=
  { environ : list (string * string);       (* [os.environ] *)
    threads_per_process : option Z;
      (* [int(os.getenv('SENZING_THREADS_PER_PROCESS'))], when it is set *)
    cpu_count : option positive;            (* [os.cpu_count()] *)
    start_time : Q;                         (* [time.time()], line 80 *)
    cycles : list cycle_input;
    fatal_now : Q;                          (* [time.time()], line 192 *)
    fatal_fut_done : fut -> bool;           (* [fut.done()], line 194 *)
    fut_ends : fut -> bool
      (* does a task that is still running when the pool is shut down ever
         end *) }.

(** [ThreadPoolExecutor(max_workers)]: the value of [_max_workers] it ends
    up with, [ValueError] for a count that is not positive. *)
Definition ThreadPoolExecutor (cpus : option positive) (max_workers : option Z)
  : res Z :=
  match max_workers with
  | None =>
      Val (Z.min 32 (Z.pos (match cpus with Some c => c | None => 1%positive end) + 4))
  | Some n => if n <=? 0 then Exc ValueError else Val n
  end.

Section Program.

Variable loads : string -> option json.

(** Lines 193-197: the report of one entry of [futures.items()]. *)
Definition report_one (W : world) (nowTime : Q) (item : fut * entry) : M unit :=
  let (f, msg) := item in
  when (negb (fatal_fut_done W f))
    (let duration := (nowTime - TUPLE_STARTTIME msg)%Q in
     record <- orjson_loads loads (Body (TUPLE_MSG msg)) ;;
     data_source <- eval (subscript record "DATA_SOURCE") ;;
     record_id <- eval (subscript record "RECORD_ID") ;;
     emit (Print (LStillProcessing (duration / 60) data_source record_id))).

(** The tasks in the registry that are still running when the pool is shut
    down all end sooner or later. *)
Definition tasks_end (W : world) (d : registry) : bool :=
  forallb (fun item : fut * entry =>
             fatal_fut_done W (fst item) || fut_ends W (fst item)) d.

(** [executor.shutdown()] (line 198) and the exit of the [with] block
    (line 107): both wait for the tasks that are still running, and come
    back once these have ended. *)
Definition shutdown (W : world) : M unit :=
  emit Shutdown ;;
  s <- get ;;
  if tasks_end W (futures s) then ret tt else still_running.

(** Lines 189-199: [except Exception as err] around the loop. *)
Definition fatal_handler (W : world) (err : exn) : M unit :=
  emit (Print (LShuttingDown err)) ;;
  emit (Print LTraceback) ;;
  let nowTime := fatal_now W in
  s <- get ;;
  for_each (futures s) (report_one W nowTime) ;;
  shutdown W ;;
  raise (SystemExit (-1)).

(** Line 19. *)
Definition LONG_RECORD_of (W : world) : value :=
  getenv (environ W) "LONG_RECORD" (VInt 300).

(** Lines 107-199: the [with] block. *)
Definition with_executor (W : world) : M unit :=
  max_workers <- eval (ThreadPoolExecutor (cpu_count W) (threads_per_process W)) ;;
  finally
    (emit (Print (LThreads max_workers)) ;;
     try_except (loop loads (LONG_RECORD_of W) max_workers (cycles W))
                (fatal_handler W))
    (shutdown W).

(** Lines 49-204 from the point the configuration has been read: the outer
    [except Exception] prints the error and exits with [-1]. *)
Definition program (W : world) : M unit :=
  try_except (with_executor W)
    (fun err => emit (Print (LError err)) ;; emit (Print LTraceback) ;;
                raise (SystemExit (-1))).

Definition initial (W : world) : state :=
  {| futures := []; messages := 0; logCheckTime := start_time W;
     prevTime := start_time W; next_future := O |}.

(** The exit status of the process, once it has one: the argument of
    [exit], which the operating system sees modulo 256 ([255] for [-1]). *)
Definition exit_status (o : outcome unit) : option Z :=
  match o with
  | Running => None
  | Done _ => Some 0
  | Raised (SystemExit code) => Some code
  | Raised _ => Some 1
  end.

(** The observable run: every call made, ending with the exit of the
    process when it exits, and the exit status. *)
Definition main (W : world) : trace * option Z :=
  match program W (initial W) with
  | (t, _, o) =>
      match exit_status o with
      | Some code => (t ++ [Exit code], Some code)
      | None => (t, None)
      end
  end.

End Program.

(* ===================================================================== *)
(** ** Reading traces *)
(* ===================================================================== *)

(** The change the registry undergoes along a trace. *)
Fixpoint inflight (t : trace) : Z :=
  match t with
  | [] => 0
  | Register _ _ :: rest => inflight rest + 1
  | Deregister _ :: rest => inflight rest - 1
  | _ :: rest => inflight rest
  end.

Definition is_receive (e : event) : bool :=
  match e with ReceiveMessage _ => true | _ => false end.
Definition is_govern (e : event) : bool :=
  match e with Govern _ => true | _ => false end.
Definition is_delete_of (f : fut) (e : event) : bool :=
  match e with DeleteMessage g _ => Nat.eqb g f | _ => false end.
Definition is_change_of (f : fut) (e : event) : bool :=
  match e with ChangeVisibility g _ _ => Nat.eqb g f | _ => false end.

Definition before_gate (e : event) : bool := negb (is_receive e || is_govern e).
Definition no_receive (e : event) : bool := negb (is_receive e).
Definition no_govern (e : event) : bool := negb (is_govern e).

Definition count (p : event -> bool) (t : trace) : nat :=
  List.length (filter p t).

(** The visibility windows requested along a trace, per future. *)
Fixpoint extensions (t : trace) : list (fut * value) :=
  match t with
  | [] => []
  | ChangeVisibility f _ v :: rest => (f, v) :: extensions rest
  | _ :: rest => extensions rest
  end.

(* ===================================================================== *)
(** ** Recorded worlds used in the examples *)
(* ===================================================================== *)

Module Demo.

(** Bodies of the form ["id"] decode to a record of source ["TEST"]; the
    body ["garbage"] is not JSON. *)
Definition loads (body : string) : option json :=
  if String.eqb body "garbage" then None
  else Some (JDict [("DATA_SOURCE", "TEST"); ("RECORD_ID", body)]).

Definition msg (handle body : string) : message :=
  {| ReceiptHandle := handle; Body := body |}.

(** A quiet cycle at time [now]: nothing finished, nothing raises, the
    governor says [0], the queue is empty. *)
Definition quiet (now : Q) : cycle_input :=
  {| in_now := now; in_done := []; in_result := fun _ => Val None;
     in_print := fun _ => None;
     in_delete := fun _ => None; in_fut_done := fun _ => false;
     in_change := fun _ => None; in_pause := 0; in_fetch := [] |}.

Definition with_fetch (answers : list (receive_response * Q)) (w : cycle_input)
  : cycle_input :=
  {| in_now := in_now w; in_done := in_done w; in_result := in_result w;
     in_print := in_print w; in_delete := in_delete w; in_fut_done := in_fut_done w;
     in_change := in_change w; in_pause := in_pause w; in_fetch := answers |}.

Definition with_done (done : list fut) (result : fut -> res (option string))
    (w : cycle_input) : cycle_input :=
  {| in_now := in_now w; in_done := done; in_result := result;
     in_print := in_print w; in_delete := in_delete w; in_fut_done := in_fut_done w;
     in_change := in_change w; in_pause := in_pause w; in_fetch := in_fetch w |}.

Definition with_pause (p : Q) (w : cycle_input) : cycle_input :=
  {| in_now := in_now w; in_done := in_done w; in_result := in_result w;
     in_print := in_print w; in_delete := in_delete w; in_fut_done := in_fut_done w;
     in_change := in_change w; in_pause := p; in_fetch := in_fetch w |}.

(** A world with [n] worker threads whose clock starts at [0], and whose
    tasks all end sooner or later. *)
Definition world_of (env : list (string * string)) (n : Z) (cs : list cycle_input)
  : world :=
  {| environ := env; threads_per_process := Some n; cpu_count := Some 4%positive;
     start_time := 0; cycles := cs; fatal_now := 1000;
     fatal_fut_done := fun _ => false; fut_ends := fun _ => true |}.

Definition with_finished (done : fut -> bool) (W : world) : world :=
  {| environ := environ W; threads_per_process := threads_per_process W;
     cpu_count := cpu_count W; start_time := start_time W; cycles := cycles W;
     fatal_now := fatal_now W; fatal_fut_done := done; fut_ends := fut_ends W |}.

(** The first cycle of the examples: the queue holds three messages, which
    are submitted at times [1], [2] and [3] as far as the pool has room. *)
Definition first_cycle : cycle_input :=
  with_fetch [(RecvResp [msg "h0" "r0"], 1%Q); (RecvResp [msg "h1" "r1"], 2%Q);
              (RecvResp [msg "h2" "r2"], 3%Q)] (quiet 0).

(** One worker, one slow task: nothing finishes; the clock reads [330] and
    then [660] at the top of the next two cycles. *)
Definition one_slow_task : world :=
  world_of [] 1 [first_cycle; quiet 330; quiet 660].

(** Two workers, two slow tasks, both over the threshold at time [330]. *)
Definition two_slow_tasks : world :=
  world_of [] 2 [first_cycle; quiet 330; quiet 660].

(** The same two tasks with the loop coming round at times [100], [200],
    [310], [360] and [520]: the sweep is due at [200] and again at [360],
    [160] seconds later. *)
Definition frequent_sweeps : world :=
  world_of [] 2 [first_cycle; quiet 100; quiet 200; quiet 310; quiet 360; quiet 520].

(** Two workers, three messages: at the second cycle the first task has
    returned, which frees a slot for the third message. *)
Definition three_messages : world :=
  world_of [] 2
    [first_cycle;
     with_fetch [(RecvResp [msg "h2" "r2"], 6%Q)]
       (with_done [0%nat] (fun _ => Val None) (quiet 5))].

(** Two workers and a single pass through the loop. *)
Definition one_burst : world := world_of [] 2 [first_cycle].

(** Two workers; at the second cycle both tasks are finished, the first
    having raised and the second having returned. *)
Definition failure_then_success : cycle_input :=
  with_done [0%nat; 1%nat]
    (fun f => if Nat.eqb f 0 then Exc (ProcessingError "bad record") else Val None)
    (quiet 5).

Definition lost_acknowledgement : world :=
  with_finished (fun _ => true) (world_of [] 2 [first_cycle; failure_then_success]).





(** Two workers; at the second cycle the first task has returned the text
    of an answer with info, and the [print] of that text fails. *)
Definition refused_print : world :=
  world_of [] 2
    [first_cycle;
     {| in_now := 5; in_done := [0%nat]; in_result := fun _ => Val (Some "{}");
        in_print := fun _ => Some "Broken pipe";
        in_delete := fun _ => None; in_fut_done := fun f => Nat.eqb f 0;
        in_change := fun _ => None; in_pause := 0; in_fetch := [] |}].

(** [LONG_RECORD=300] exported in the environment. *)
Definition exported_threshold : world :=
  world_of [("LONG_RECORD", "300")] 2 [first_cycle; quiet 330].

(** The state the first cycle leaves with two workers: both slots taken. *)
Definition full_pool : state :=
  Eval vm_compute in
    snd (fst (cycle loads (VInt 300) 2 first_cycle (initial one_burst))).

End Demo.

(* ===================================================================== *)
(** ** Vocabulary of the proofs *)
(* ===================================================================== *)

(** A computation all of whose events pass the test [p]. *)
Definition emits (p : event -> bool) {A} (m : M A) : Prop :=
  forall s, forallb p (fst (fst (m s))) = true.

(** A computation that leaves the registry and the executor's counter as
    they are, and comes back (by returning or by raising). *)
Definition frame {A} (m : M A) : Prop :=
  forall s,
    futures (snd (fst (m s))) = futures s /\
    next_future (snd (fst (m s))) = next_future s /\
    snd (m s) <> Running.

Definition keys (d : registry) : list fut := map fst d.

Definition is_ok_result_of (f : fut) (e : event) : bool :=
  match e with Result g (Val _) => Nat.eqb g f | _ => false end.
Definition is_failed_result_of (f : fut) (e : event) : bool :=
  match e with Result g (Exc _) => Nat.eqb g f | _ => false end.
Definition is_register (e : event) : bool :=
  match e with Register _ _ => true | _ => false end.
Definition is_deregister_of (f : fut) (e : event) : bool :=
  match e with Deregister g => Nat.eqb g f | _ => false end.

(** Events that neither touch the registry, nor harvest or acknowledge a
    task, nor fetch. *)
Definition silent (e : event) : bool :=
  match e with
  | Register _ _ | Deregister _ | Result _ _ | DeleteMessage _ _
  | ReceiveMessage _ => false
  | _ => true
  end.

(** The trace has just reached a [receive_message] call. *)
Definition fetching (p : trace) : bool :=
  match rev p with
  | ReceiveMessage _ :: _ => true
  | _ => false
  end.

(** A fetch is only made while the registry has room. *)
Definition room (mw : Z) (p : trace) : Prop :=
  fetching p = true -> inflight p < mw.

(** [Q] holds of every prefix of the trace: at every point of the run. *)
Definition always (Q : trace -> Prop) (t : trace) : Prop :=
  forall n, Q (firstn n t).

(** No message has been deleted more often than its task's result has been
    retrieved successfully. *)
Definition in_order (t : trace) : Prop :=
  forall f, (count (is_delete_of f) t <= count (is_ok_result_of f) t)%nat.

(** Every message has been deleted exactly as often as the result of its
    task has been retrieved successfully. *)
Definition paired (t : trace) : Prop :=
  forall f, count (is_delete_of f) t = count (is_ok_result_of f) t.

(** The error of a [print] that failed. *)
Definition print_failed (e : exn) : bool :=
  match e with PrintError _ => true | _ => false end.

(** What holds of the trace of a run, however the run ends. *)
Record lawful (mw : Z) (t : trace) : Prop :=
  { law_bound : always (fun p => inflight p <= mw) t;
    law_room : always (room mw) t;
    law_order : always in_order t;
    law_popped : forall f,
        count (is_delete_of f) t = count (is_deregister_of f) t;
    law_once : forall f, (count (is_delete_of f) t <= 1)%nat;
    law_failed : forall f,
        (0 < count (is_failed_result_of f) t)%nat ->
        count (is_delete_of f) t = 0%nat }.

(** What holds of the trace when the loop has ended by raising [e]: unless
    [e] comes from a [print] that failed, every result retrieved has been
    followed by the deletion of its message. *)
Definition ended (mw : Z) (e : exn) (t : trace) : Prop :=
  lawful mw t /\ (print_failed e = false -> paired t).

(** What holds between two statements of the loop while it keeps going:
    the trace so far is lawful and paired, the registry has as many entries
    as the trace says, its keys are distinct futures the executor has
    already created, and no result has yet been retrieved for a registered
    or a future task, nor has any retrieval failed. *)
Record steady (mw : Z) (t : trace) (s : state) : Prop :=
  { st_lawful : lawful mw t;
    st_paired : paired t;
    st_size : len (futures s) = inflight t;
    st_nodup : NoDup (keys (futures s));
    st_fresh : forall f, In f (keys (futures s)) -> (f < next_future s)%nat;
    st_pending : forall f,
        In f (keys (futures s)) -> count (is_ok_result_of f) t = 0%nat;
    st_unborn : forall f,
        (next_future s <= f)%nat -> count (is_ok_result_of f) t = 0%nat;
    st_clean : forall f, count (is_failed_result_of f) t = 0%nat }.

(** Where a part of the loop leaves the trace [t] it started from. *)
Definition after (mw : Z) (t : trace) {A} (r : trace * state * outcome A) : Prop :=
  match r with
  | (t', s', Done _) => steady mw (t ++ t') s'
  | (t', _, Raised e) => ended mw e (t ++ t')
  | (_, _, Running) => False
  end.

(** The worker count the executor ends up with ([0] when it cannot be
    created and the loop is never entered). *)
Definition worker_count (W : world) : Z :=
  match ThreadPoolExecutor (cpu_count W) (threads_per_process W) with
  | Val n => n
  | Exc _ => 0
  end.

(** The record identity a message body decodes to, when it does. *)
Definition identity (loads : string -> option json) (body : string)
  : option (string * string) :=
  match loads body with
  | None => None
  | Some record =>
      match subscript record "DATA_SOURCE", subscript record "RECORD_ID" with
      | Val data_source, Val record_id => Some (data_source, record_id)
      | _, _ => None
      end
  end.

(** One "Still processing" line per registered task that is not done, in
    registry order, with its elapsed minutes and its record identity. *)
Definition report_events (loads : string -> option json) (W : world)
    (d : registry) : trace :=
  flat_map
    (fun item : fut * entry =>
       let (f, msg) := item in
       if fatal_fut_done W f then []
       else match identity loads (Body (TUPLE_MSG msg)) with
            | Some (data_source, record_id) =>
                [Print (LStillProcessing
                          ((fatal_now W - TUPLE_STARTTIME msg) / 60)
                          data_source record_id)]
            | None => []
            end)
    d.

Definition is_print (e : event) : bool :=
  match e with Print _ => true | _ => false end.

Definition is_report (e : event) : bool :=
  match e with Print (LStillProcessing _ _ _) => true | _ => false end.

(** What follows the dump: the explicit shutdown and the one at the end of
    the [with] block, or, when the dump itself raised, that second shutdown
    and the outer handler. *)
Definition closing (o : outcome unit) : trace :=
  match o with
  | Raised e' => [Shutdown; Print (LError e'); Print LTraceback]
  | _ => [Shutdown; Shutdown]
  end.

(** What the program does once the loop is over: the lines of the two
    handlers, the shutdown of the pool and the exit. *)
Definition is_closing (e : event) : bool :=
  match e with
  | Print (LShuttingDown _) | Print LTraceback | Print (LStillProcessing _ _ _)
  | Print (LError _) | Shutdown | Exit _ => true
  | _ => false
  end.

Definition is_stats (e : event) : bool :=
  match e with Stats => true | _ => false end.
Definition is_change (e : event) : bool :=
  match e with ChangeVisibility _ _ _ => true | _ => false end.
Definition no_change (e : event) : bool := negb (is_change e).

(** A computation that asks for at most one lease extension, and raises when
    it has asked for one. *)
Definition extends_once {A} (m : M A) : Prop :=
  forall s,
    match m s with
    | (t, _, Raised _) => (count is_change t <= 1)%nat
    | (t, _, _) => count is_change t = 0%nat
    end.

(* ===================================================================== *)
(** ** The dead-letter queue's URL (lines 27-31) *)
(* ===================================================================== *)

Definition colon : Ascii.ascii := ":"%char.

(** [s.split(':')]: the text between the colons, one field more than there
    are colons; empty fields are kept. *)
Fixpoint split_colon (s : string) : list string :=
  match s with
  | EmptyString => [EmptyString]
  | String c rest =>
      if Ascii.eqb c colon then EmptyString :: split_colon rest
      else match split_colon rest with
           | [] => [String c EmptyString]
           | field :: fields => String c field :: fields
           end
  end.

(** [':'.join(fields)] *)
Fixpoint join_colon (fields : list string) : string :=
  match fields with
  | [] => EmptyString
  | [field] => field
  | field :: rest => String.append field (String colon (join_colon rest))
  end.

Fixpoint colon_free (s : string) : bool :=
  match s with
  | EmptyString => true
  | String c rest => negb (Ascii.eqb c colon) && colon_free rest
  end.

Fixpoint colons (s : string) : nat :=
  match s with
  | EmptyString => O
  | String c rest => if Ascii.eqb c colon then S (colons rest) else colons rest
  end.

(** Lines 27-31.  [None] is the [IndexError] of [fields[4]] or [fields[5]]. *)
Definition queue_arn_to_url (arn : string) : option string :=
  let fields := split_colon arn in
  match nth_error fields 4, nth_error fields 5 with
  | Some account, Some name =>
      Some (String.append "https://queue.amazonaws.com/"
              (String.append account (String.append "/" name)))
  | _, _ => None
  end.

(* ===================================================================== *)
(** ** The task a worker runs (lines 34-46) *)
(* ===================================================================== *)

(** The two entry points of the engine a task calls: each either returns
    (the second one with the text the engine wrote into [response]) or
    raises. *)
Record engine : Type :=
  { addRecord : string -> string -> string -> option exn;
    addRecordWithInfo : string -> string -> string -> res string }.

(** What a task does besides returning. *)
Inductive worker_event : Type :=
| AddRecord (data_source record_id msg : string)          (* line 42 *)
| AddRecordWithInfo (data_source record_id msg : string)  (* line 39 *)
| Stderr (err : exn) (msg : string).                      (* line 45 *)

Definition is_stderr (e : worker_event) : bool :=
  match e with Stderr _ _ => true | _ => false end.

(** Lines 36-43: the body of the [try]. *)
Definition process_msg_body (loads : string -> option json) (g2 : engine)
    (msg : string) (info : bool) : list worker_event * res (option string) :=
  match loads msg with
  | None => ([], Exc JSONDecodeError)
  | Some record =>
      match subscript record "DATA_SOURCE" with
      | Exc e => ([], Exc e)
      | Val data_source =>
          match subscript record "RECORD_ID" with
          | Exc e => ([], Exc e)
          | Val record_id =>
              if info then
                match addRecordWithInfo g2 data_source record_id msg with
                | Val response =>
                    ([AddRecordWithInfo data_source record_id msg], Val (Some response))
                | Exc e => ([AddRecordWithInfo data_source record_id msg], Exc e)
                end
              else
                match addRecord g2 data_source record_id msg with
                | None => ([AddRecord data_source record_id msg], Val None)
                | Some e => ([AddRecord data_source record_id msg], Exc e)
                end
          end
      end
  end.

(** Lines 34-46: [except Exception] prints the error with the message and
    raises it again. *)
Definition process_msg (loads : string -> option json) (g2 : engine)
    (msg : string) (info : bool) : list worker_event * res (option string) :=
  match process_msg_body loads g2 msg info with
  | (events, Exc e) =>
      if is_Exception e then (events ++ [Stderr e msg], Exc e)
      else (events, Exc e)
  | done => done
  end.

(* ===================================================================== *)
(** ** More vocabulary for the proofs *)
(* ===================================================================== *)

(** A computation that leaves the component [g] of the state as it is. *)
Definition preserves {X} (g : state -> X) {A} (m : M A) : Prop :=
  forall s, g (snd (fst (m s))) = g s.

Definition is_delete (e : event) : bool :=
  match e with DeleteMessage _ _ => true | _ => false end.
Definition is_rate (e : event) : bool :=
  match e with Print (LRate _ _) => true | _ => false end.
Definition is_result_line (e : event) : bool :=
  match e with Print (LResult _) => true | _ => false end.
Definition is_register_of (f : fut) (e : event) : bool :=
  match e with Register g _ => Nat.eqb g f | _ => false end.

(** Events that are silent, ask for no lease extension and report no
    throughput. *)
Definition plain (e : event) : bool :=
  silent e && negb (is_change e) && negb (is_rate e).

(** A recorded engine for the worker's task. *)
Module Samples.

(** An engine that accepts every record and answers ["{}"] with info. *)
Definition accepting : engine :=
  {| addRecord := fun _ _ _ => None;
     addRecordWithInfo := fun _ _ _ => Val "{}" |}.

End Samples.

(** A task that is done, or has not run longer than the threshold. *)
Definition spared (w : cycle_input) (now : Q) (L : Z) (item : fut * entry) : Prop :=
  in_fut_done w (fst item) = true \/
  (now - TUPLE_STARTTIME (snd item) <= inject_Z L)%Q.

(** Where a part of the loop leaves the trace [t], for an invariant [I] of
    the running loop and a property [L] of the traces it can end with. *)
Definition holds_after (I : trace -> state -> Prop) (L : trace -> Prop)
    (t : trace) {A} (r : trace * state * outcome A) : Prop :=
  match r with
  | (t', s', Done _) => I (t ++ t') s'
  | (t', _, Raised _) => L (t ++ t')
  | (_, _, Running) => False
  end.

(** [P] holds of every event of the trace, given the events before it. *)
Definition each_after (P : trace -> event -> Prop) (t : trace) : Prop :=
  forall pre x suf, t = pre ++ x :: suf -> P pre x.

(** The receipt handle an event hands to the queue client, with the task
    it is for. *)
Definition handle_of (x : event) : option (fut * string) :=
  match x with
  | DeleteMessage f h | ChangeVisibility f h _ => Some (f, h)
  | _ => None
  end.

(** A receipt handle handed to the queue client is the one of the message
    registered for that task. *)
Definition answered (pre : trace) (x : event) : Prop :=
  forall f h, handle_of x = Some (f, h) ->
  exists stored, In (Register f stored) pre /\ ReceiptHandle (TUPLE_MSG stored) = h.

(** No future is registered twice. *)
Definition registered_once (t : trace) : Prop :=
  forall f, (count (is_register_of f) t <= 1)%nat.

Record handles_kept (t : trace) (s : state) : Prop :=
  { hk_answered : each_after answered t;
    hk_once : registered_once t;
    hk_stored : forall f e, In (f, e) (futures s) -> In (Register f e) t;
    hk_unborn : forall f, (next_future s <= f)%nat ->
                          count (is_register_of f) t = 0%nat }.

(** The counter of processed messages and the throughput lines printed,
    against the [delete_message] calls made. *)
Record tallied (t : trace) (s : state) : Prop :=
  { ta_messages : messages s = Z.of_nat (count is_delete t);
    ta_lines : Z.of_nat (count is_rate t) = messages s / INTERVAL }.


(** What the handles of a whole run obey. *)
Definition handles_lawful (t : trace) : Prop :=
  each_after answered t /\ registered_once t.

(** What the fetch loop does for a message: the poll, the submission of the
    task and its registration. *)
Definition is_fetch_step (e : event) : bool :=
  match e with
  | ReceiveMessage _ | Submit _ _ | Register _ _ => true
  | _ => false
  end.

(** A poll that brings a message. *)
Definition brings_message (answer : receive_response * Q) : bool :=
  match fst answer with RecvResp (_ :: _) => true | _ => false end.

(** Recorded passes in which the queue client fails. *)
Module Scenes.

(** The queue client answers the first poll and refuses the second. *)
Definition failing_fetch : cycle_input :=
  Demo.with_fetch [(RecvResp [Demo.msg "h0" "r0"], 1%Q);
                   (RecvRaise (ClientError "throttled"), 1%Q)] (Demo.quiet 0).

(** The first task has returned, and the queue client refuses to delete
    its message. *)
Definition failing_delete : cycle_input :=
  {| in_now := 5; in_done := [0%nat]; in_result := fun _ => Val None;
     in_print := fun _ => None;
     in_delete := fun _ => Some (ClientError "expired handle");
     in_fut_done := fun f => Nat.eqb f 0; in_change := fun _ => None;
     in_pause := 0; in_fetch := [] |}.

(** A pool of one worker that finds the task of the pass before done and
    is handed a new message, pass after pass, ten thousand times. *)
Definition steady_pass (k : nat) : cycle_input :=
  Demo.with_fetch [(RecvResp [Demo.msg "h" "r"], 0%Q)]
    (Demo.with_done [k] (fun _ => Val None) (Demo.quiet 0)).

Definition long_run : world :=
  Demo.world_of [] 1
    (Demo.first_cycle :: map steady_pass (seq 0 (Z.to_nat INTERVAL))).

(** What the first cycle of the examples stores for its first message. *)
Definition first_entry : entry :=
  {| TUPLE_MSG := Demo.msg "h0" "r0"; TUPLE_STARTTIME := 1; TUPLE_EXTENDED := 0 |}.
Definition second_entry : entry :=
  {| TUPLE_MSG := Demo.msg "h1" "r1"; TUPLE_STARTTIME := 2; TUPLE_EXTENDED := 0 |}.

End Scenes.

(** A computation that raises nothing but subclasses of [Exception]. *)
Definition raises_Exceptions {A} (m : M A) : Prop :=
  forall s e, snd (m s) = Raised e -> is_Exception e = true.


(** The two lines the sweep prints after line 152. *)
Definition is_sweep_line (e : event) : bool :=
  match e with
  | Print (LExtended _ _ _ _) | Print (LAllStuck _) => true
  | _ => false
  end.
Definition no_sweep_line (e : event) : bool := negb (is_sweep_line e).
(* ===================================================================== *)
(** ** Generic facts about the monad *)
(* ===================================================================== *)

Unset Implicit Arguments.

Lemma bind_run {A B} (m : M A) (k : A -> M B) s :
  bind m k s =
  match m s with
  | (t1, s1, Done a) => let '(t2, s2, r) := k a s1 in (t1 ++ t2, s2, r)
  | (t1, s1, Raised e) => (t1, s1, Raised e)
  | (t1, s1, Running) => (t1, s1, Running)
  end.
Proof. reflexivity. Qed.

Section Emits.

Variable p : event -> bool.

Lemma emits_ret {A} (a : A) : emits p (ret a).
Proof. intro s. reflexivity. Qed.

Lemma emits_raise {A} e : emits p (@raise A e).
Proof. intro s. reflexivity. Qed.

Lemma emits_still_running {A} : emits p (@still_running A).
Proof. intro s. reflexivity. Qed.

Lemma emits_get : emits p get.
Proof. intro s. reflexivity. Qed.

Lemma emits_modify f : emits p (modify f).
Proof. intro s. reflexivity. Qed.

Lemma emits_eval {A} (r : res A) : emits p (eval r).
Proof. destruct r; intro s; reflexivity. Qed.

Lemma emits_may_raise o : emits p (may_raise o).
Proof. destruct o; intro s; reflexivity. Qed.

Lemma emits_emit e : p e = true -> emits p (emit e).
Proof. intros H s. simpl. now rewrite H. Qed.

Lemma emits_bind {A B} (m : M A) (k : A -> M B) :
  emits p m -> (forall a, emits p (k a)) -> emits p (bind m k).
Proof.
  intros Hm Hk s. rewrite bind_run. specialize (Hm s).
  destruct (m s) as [[t1 s1] [a|e|]]; simpl in *; auto.
  specialize (Hk a s1). destruct (k a s1) as [[t2 s2] r]; simpl in *.
  rewrite forallb_app, Hm, Hk. reflexivity.
Qed.

Lemma emits_when b m : emits p m -> emits p (when b m).
Proof. destruct b; simpl; auto using emits_ret. Qed.

Lemma emits_for_each {X} (xs : list X) body :
  (forall x, emits p (body x)) -> emits p (for_each xs body).
Proof.
  intro H. induction xs as [|x xs IH]; simpl.
  - apply emits_ret.
  - apply emits_bind; auto.
Qed.

Lemma emits_try_except {A} (m : M A) h :
  emits p m -> (forall e, emits p (h e)) -> emits p (try_except m h).
Proof.
  intros Hm Hh s. unfold try_except. specialize (Hm s).
  destruct (m s) as [[t1 s1] [a|e|]]; simpl in *; auto.
  destruct (is_Exception e); simpl; auto.
  specialize (Hh e s1). destruct (h e s1) as [[t2 s2] r]; simpl in *.
  rewrite forallb_app, Hm, Hh. reflexivity.
Qed.

Lemma emits_finally {A} (m : M A) fin :
  emits p m -> emits p fin -> emits p (finally m fin).
Proof.
  intros Hm Hf s. unfold finally. specialize (Hm s).
  destruct (m s) as [[t1 s1] [a|e|]]; simpl in *; auto;
    specialize (Hf s1); destruct (fin s1) as [[t2 s2] [[]|e'|]]; simpl in *;
    rewrite forallb_app, Hm, Hf; reflexivity.
Qed.

End Emits.

Lemma frame_ret {A} (a : A) : frame (ret a).
Proof. intro s. simpl. repeat split; discriminate. Qed.

Lemma frame_raise {A} e : frame (@raise A e).
Proof. intro s. simpl. repeat split; discriminate. Qed.

Lemma frame_get : frame get.
Proof. intro s. simpl. repeat split; discriminate. Qed.

Lemma frame_emit e : frame (emit e).
Proof. intro s. simpl. repeat split; discriminate. Qed.

Lemma frame_eval {A} (r : res A) : frame (eval r).
Proof. destruct r; [apply frame_ret | apply frame_raise]. Qed.

Lemma frame_may_raise o : frame (may_raise o).
Proof. destruct o; [apply frame_raise | apply frame_ret]. Qed.

Lemma frame_modify f :
  (forall s, futures (f s) = futures s /\ next_future (f s) = next_future s) ->
  frame (modify f).
Proof. intros H s. simpl. destruct (H s). repeat split; auto; discriminate. Qed.

Lemma frame_bind {A B} (m : M A) (k : A -> M B) :
  frame m -> (forall a, frame (k a)) -> frame (bind m k).
Proof.
  intros Hm Hk s. rewrite bind_run. destruct (Hm s) as (H1 & H2 & H3).
  destruct (m s) as [[t1 s1] [a|e|]]; simpl in *;
    try (repeat split; auto; discriminate).
  destruct (Hk a s1) as (K1 & K2 & K3).
  destruct (k a s1) as [[t2 s2] r]; simpl in *.
  repeat split; congruence.
Qed.

Lemma frame_when b m : frame m -> frame (when b m).
Proof. destruct b; simpl; auto using frame_ret. Qed.

Lemma frame_for_each {X} (xs : list X) body :
  (forall x, frame (body x)) -> frame (for_each xs body).
Proof.
  intro H. induction xs as [|x xs IH]; simpl.
  - apply frame_ret.
  - apply frame_bind; auto.
Qed.

Create HintDb shape discriminated.

#[export] Hint Resolve emits_ret emits_raise emits_get emits_modify emits_eval
  emits_may_raise emits_when emits_for_each emits_still_running : shape.
#[export] Hint Resolve frame_ret frame_raise frame_get frame_emit frame_eval
  frame_may_raise frame_when frame_for_each : shape.

(** Walks down a computation written with [bind], [if] and [match]. *)
Ltac shape_step :=
  match goal with
  | |- emits _ (bind _ _) => apply emits_bind; [ | intro ]
  | |- frame (bind _ _) => apply frame_bind; [ | intro ]
  | |- emits _ (emit _) => apply emits_emit; reflexivity
  | |- emits _ (try_except _ _) => apply emits_try_except; [ | intro ]
  | |- frame (modify _) => apply frame_modify; intro; split; reflexivity
  | |- emits _ (for_each _ _) => apply emits_for_each; intro
  | |- frame (for_each _ _) => apply frame_for_each; intro
  | |- emits _ (when _ _) => apply emits_when
  | |- frame (when _ _) => apply frame_when
  | |- emits _ (match ?x with _ => _ end) => destruct x
  | |- frame (match ?x with _ => _ end) => destruct x
  | |- emits _ (let '(_, _) := ?x in _) => destruct x
  | |- frame (let '(_, _) := ?x in _) => destruct x
  | |- _ => solve [ auto with shape ]
  end.
Ltac shape := repeat shape_step.

(* ===================================================================== *)
(** ** The [futures] dict *)
(* ===================================================================== *)

Lemma has_key_In f d : has_key f d = true <-> In f (keys d).
Proof.
  induction d as [|[k v] d IH]; simpl.
  - split; [discriminate | tauto].
  - destruct (Nat.eqb_spec k f) as [->|Hne].
    + split; auto.
    + rewrite IH. split; [tauto | intros [H|H]; [contradiction | exact H]].
Qed.

Lemma has_key_false f d : has_key f d = false <-> ~ In f (keys d).
Proof.
  rewrite <- has_key_In. destruct (has_key f d); split; intro H;
    try discriminate; try reflexivity; try (intro; discriminate).
  exfalso. apply H. reflexivity.
Qed.

Lemma dict_pop_present f d :
  has_key f d = true -> exists v rest, dict_pop f d = Val (v, rest).
Proof.
  induction d as [|[k v] d IH]; simpl; [discriminate|].
  destruct (Nat.eqb k f); [eauto|].
  intro H. destruct (IH H) as (x & rest & ->). eauto.
Qed.

Lemma dict_pop_keys f d v rest :
  dict_pop f d = Val (v, rest) ->
  exists before after,
    keys d = before ++ f :: after /\ keys rest = before ++ after /\
    ~ In f before.
Proof.
  revert v rest. induction d as [|[k x] d IH]; simpl; intros v rest H.
  - discriminate.
  - destruct (Nat.eqb_spec k f) as [->|Hne].
    + inversion H; subst. exists [], (keys rest). simpl. auto.
    + destruct (dict_pop f d) as [[y rest']|e]; [|discriminate].
      inversion H; subst.
      destruct (IH _ _ eq_refl) as (b & a & E1 & E2 & Hb).
      exists (k :: b), a. simpl. rewrite E1, E2. repeat split; auto.
      intros [->|Hin]; auto.
Qed.

Lemma dict_pop_length f d v rest :
  dict_pop f d = Val (v, rest) -> len d = len rest + 1.
Proof.
  intro H. destruct (dict_pop_keys _ _ _ _ H) as (b & a & E1 & E2 & _).
  unfold len. rewrite <- (length_map fst d), <- (length_map fst rest).
  fold (keys d) (keys rest). rewrite E1, E2, !length_app. simpl. lia.
Qed.

Lemma dict_pop_NoDup f d v rest :
  dict_pop f d = Val (v, rest) -> NoDup (keys d) ->
  NoDup (keys rest) /\ ~ In f (keys rest).
Proof.
  intros H Hnd. destruct (dict_pop_keys _ _ _ _ H) as (b & a & E1 & E2 & _).
  rewrite E1 in Hnd. rewrite E2. split.
  - eapply NoDup_remove_1; eauto.
  - eapply NoDup_remove_2; eauto.
Qed.

Lemma dict_pop_other f g d v rest :
  dict_pop f d = Val (v, rest) -> g <> f ->
  (In g (keys rest) <-> In g (keys d)).
Proof.
  intros H Hne. destruct (dict_pop_keys _ _ _ _ H) as (b & a & E1 & E2 & _).
  rewrite E1, E2, !in_app_iff. simpl. intuition congruence.
Qed.

Lemma dict_pop_subset f g d v rest :
  dict_pop f d = Val (v, rest) -> In g (keys rest) -> In g (keys d).
Proof.
  intros H. destruct (dict_pop_keys _ _ _ _ H) as (b & a & E1 & E2 & _).
  rewrite E1, E2, !in_app_iff. simpl. tauto.
Qed.

Lemma dict_set_fresh f v d :
  ~ In f (keys d) -> dict_set f v d = d ++ [(f, v)].
Proof.
  induction d as [|[k x] d IH]; simpl; intro H; [reflexivity|].
  destruct (Nat.eqb_spec k f) as [->|Hne]; [tauto|].
  rewrite IH; tauto.
Qed.

Lemma wait_NoDup d finished : NoDup (wait d finished).
Proof. apply NoDup_nodup. Qed.

Lemma wait_registered d finished f :
  In f (wait d finished) -> has_key f d = true.
Proof.
  unfold wait. rewrite nodup_In, filter_In. tauto.
Qed.

(* ===================================================================== *)
(** ** Which events each part of the loop can emit *)
(* ===================================================================== *)

Lemma emits_weaken (p q : event -> bool) {A} (m : M A) :
  (forall e, p e = true -> q e = true) -> emits p m -> emits q m.
Proof.
  intros Hpq Hm s. specialize (Hm s). rewrite forallb_forall in *. auto.
Qed.

Lemma count_none p t : forallb (fun e => negb (p e)) t = true -> count p t = 0%nat.
Proof.
  unfold count. induction t as [|e t IH]; simpl; [reflexivity|].
  destruct (p e); simpl; [discriminate | exact IH].
Qed.

Lemma count_app p t1 t2 : count p (t1 ++ t2) = (count p t1 + count p t2)%nat.
Proof. unfold count. now rewrite filter_app, length_app. Qed.

Lemma orjson_loads_emits loads p body : emits p (orjson_loads loads body).
Proof. unfold orjson_loads. shape. Qed.

Lemma orjson_loads_frame loads body : frame (orjson_loads loads body).
Proof. unfold orjson_loads. shape. Qed.

#[export] Hint Resolve orjson_loads_emits orjson_loads_frame : shape.

Section LoopShape.

Variable loads : string -> option json.
Variable LONG_RECORD : value.
Variable max_workers : Z.

Lemma harvest_one_before_gate w now f :
  emits before_gate (harvest_one w now f).
Proof. unfold harvest_one. shape. Qed.

Lemma sweep_one_before_gate w now f msg n :
  emits before_gate (sweep_one loads LONG_RECORD w now f msg n).
Proof. unfold sweep_one. shape. Qed.

Lemma sweep_before_gate w now items n :
  emits before_gate (sweep loads LONG_RECORD max_workers w now items n).
Proof.
  revert n. induction items as [|[f msg] items IH]; intro n; simpl.
  - shape.
  - apply emits_bind; [apply sweep_one_before_gate | intro]. shape.
Qed.

Lemma harvest_and_sweep_before_gate w :
  emits before_gate (harvest_and_sweep loads LONG_RECORD max_workers w).
Proof.
  unfold harvest_and_sweep.
  apply emits_bind; [shape | intro s0]. destruct (futures s0); [shape|].
  apply emits_bind; [shape | intro].
  apply emits_bind; [apply emits_for_each; intro; apply harvest_one_before_gate | intro].
  shape. apply sweep_before_gate.
Qed.

Lemma fetch_once_no_govern answer at_ :
  emits no_govern (fetch_once LONG_RECORD answer at_).
Proof. unfold fetch_once. shape. Qed.

Lemma guarded_fetch_no_govern answer at_ :
  emits no_govern (guarded_fetch LONG_RECORD answer at_).
Proof. unfold guarded_fetch. shape. apply fetch_once_no_govern. Qed.

Lemma fetch_loop_no_govern answers :
  emits no_govern (fetch_loop LONG_RECORD max_workers answers).
Proof.
  induction answers as [|[answer at_] answers IH]; simpl.
  - apply emits_bind; [shape | intro s0]. destruct (_ <? _); [|shape].
    apply emits_bind; [apply guarded_fetch_no_govern | intro; shape].
  - apply emits_bind; [shape | intro s0]. destruct (_ <? _); [|shape].
    apply emits_bind; [apply guarded_fetch_no_govern | intros [|]; [apply IH | shape]].
Qed.

End LoopShape.

(* ===================================================================== *)
(** ** The two gates in front of the fetch loop *)
(* ===================================================================== *)

Lemma before_gate_no_receive e : before_gate e = true -> no_receive e = true.
Proof. destruct e; simpl; auto. Qed.

Lemma before_gate_no_govern e : before_gate e = true -> no_govern e = true.
Proof. destruct e; simpl; auto. Qed.

Lemma Qltb_true x y : (x < y)%Q -> Qltb x y = true.
Proof.
  intro H. unfold Qltb. destruct (Qle_bool y x) eqn:E; [|reflexivity].
  apply Qle_bool_iff in E. exfalso. eapply Qlt_not_le; eauto.
Qed.

Section Gates.

Variable loads : string -> option json.
Variable LONG_RECORD : value.
Variable max_workers : Z.

Local Abbreviation run_harvest := (harvest_and_sweep loads LONG_RECORD max_workers).
Local Abbreviation run_cycle := (cycle loads LONG_RECORD max_workers).
Local Abbreviation run_gate := (gate_and_fetch LONG_RECORD max_workers).

Lemma harvest_and_sweep_no_receive w s :
  count is_receive (fst (fst (run_harvest w s))) = 0%nat.
Proof.
  apply count_none.
  eapply emits_weaken;
    [exact before_gate_no_receive | apply harvest_and_sweep_before_gate].
Qed.

Lemma harvest_and_sweep_no_govern w s :
  count is_govern (fst (fst (run_harvest w s))) = 0%nat.
Proof.
  apply count_none.
  eapply emits_weaken;
    [exact before_gate_no_govern | apply harvest_and_sweep_before_gate].
Qed.

Lemma gate_closed_by_governor w s :
  (in_pause w < 0)%Q ->
  run_gate w s = ([Govern (in_pause w); Sleep 1], s, Done tt).
Proof.
  intro H. unfold gate_and_fetch.
  rewrite bind_run. simpl. rewrite (Qltb_true _ _ H). reflexivity.
Qed.

Lemma gate_closed_by_capacity w s :
  max_workers <= len (futures s) ->
  run_gate w s = ([Govern (in_pause w); Sleep 1], s, Done tt).
Proof.
  intro H. unfold gate_and_fetch.
  rewrite bind_run. simpl. destruct (Qltb (in_pause w) 0); [reflexivity|].
  rewrite bind_run. simpl.
  destruct (Z.leb_spec max_workers (len (futures s))); [reflexivity | lia].
Qed.

Lemma cycle_run w s :
  run_cycle w s =
  match run_harvest w s with
  | (t1, s1, Done _) => let '(t2, s2, r) := run_gate w s1 in (t1 ++ t2, s2, r)
  | (t1, s1, Raised e) => (t1, s1, Raised e)
  | (t1, s1, Running) => (t1, s1, Running)
  end.
Proof. reflexivity. Qed.

(** C5.  A run_cycle whose throttle decision is negative makes no
    [receive_message] call; once the harvest and sweep of the cycle are
    through, all it does is ask the governor, sleep one second and go back
    to the top of the loop. *)
Theorem negative_decision_skips_fetch w s :
  (in_pause w < 0)%Q ->
  count is_receive (fst (fst (run_cycle w s))) = 0%nat /\
  forall t1 s1,
    run_harvest w s = (t1, s1, Done tt) ->
    run_cycle w s = (t1 ++ [Govern (in_pause w); Sleep 1], s1, Done tt).
Proof.
  intro Hneg. rewrite cycle_run.
  pose proof (harvest_and_sweep_no_receive w s) as Hnone.
  destruct (run_harvest w s) as [[t1 s1] [[]|e|]]; simpl in *.
  - rewrite (gate_closed_by_governor _ _ Hneg). simpl. split.
    + rewrite count_app, Hnone. reflexivity.
    + intros t1' s1' E. inversion E; subst. reflexivity.
  - split; [assumption | discriminate].
  - split; [assumption | discriminate].
Qed.

(** C6.  A cycle that finds the registry full at the capacity gate
    ([len(futures) >= executor._max_workers]) makes no [receive_message]
    call, whatever the governor answers; it asks the governor, sleeps one
    second and goes back to the top of the loop. *)
Theorem full_pool_skips_fetch w s t1 s1 o1 :
  run_harvest w s = (t1, s1, o1) ->
  max_workers <= len (futures s1) ->
  count is_receive (fst (fst (run_cycle w s))) = 0%nat /\
  (o1 = Done tt ->
   run_cycle w s = (t1 ++ [Govern (in_pause w); Sleep 1], s1, Done tt)).
Proof.
  intros E Hfull. rewrite cycle_run.
  pose proof (harvest_and_sweep_no_receive w s) as Hnone.
  rewrite E in *. simpl in Hnone.
  destruct o1 as [[]|e|]; simpl.
  - rewrite (gate_closed_by_capacity _ _ Hfull). simpl. split.
    + rewrite count_app, Hnone. reflexivity.
    + reflexivity.
  - split; [assumption | discriminate].
  - split; [assumption | discriminate].
Qed.

Lemma gate_and_fetch_run w s :
  exists t3, fst (fst (run_gate w s)) = Govern (in_pause w) :: t3 /\
             count is_govern t3 = 0%nat.
Proof.
  unfold gate_and_fetch. rewrite bind_run. simpl.
  match goal with |- context [?m s] =>
    match type of m with M unit =>
      assert (H : emits no_govern m) end end.
  { shape. apply fetch_loop_no_govern. }
  specialize (H s).
  match goal with |- context [?m s] =>
    match type of m with M unit => destruct (m s) as [[t3 s3] r] end end.
  simpl in *. exists t3. split; [reflexivity | now apply count_none].
Qed.

Lemma firstn_app_cases {X} n (t t' : list X) :
  firstn n (t ++ t') = firstn n t \/ exists m, firstn n (t ++ t') = t ++ firstn m t'.
Proof.
  rewrite firstn_app. destruct (Nat.le_gt_cases n (List.length t)) as [H|H].
  - left. replace (n - List.length t)%nat with 0%nat by lia.
    simpl. now rewrite app_nil_r.
  - right. exists (n - List.length t)%nat.
    rewrite firstn_all2 by lia. reflexivity.
Qed.

Lemma count_firstn_none p n t : count p t = 0%nat -> count p (firstn n t) = 0%nat.
Proof.
  unfold count. revert n. induction t as [|e t IH]; intros [|n] H; simpl in *; auto.
  destruct (p e); simpl in *; [discriminate | auto].
Qed.

(** C7, as amended.  A cycle asks the governor at most once, and every
    [receive_message] call of the cycle comes after that one decision: a
    prefix of the cycle's trace that contains a fetch contains exactly one
    [govern] call. *)
Theorem one_decision_before_the_fetches w s :
  let t := fst (fst (run_cycle w s)) in
  (count is_govern t <= 1)%nat /\
  forall n, (0 < count is_receive (firstn n t))%nat ->
            count is_govern (firstn n t) = 1%nat.
Proof.
  simpl. rewrite cycle_run.
  pose proof (harvest_and_sweep_no_receive w s) as Hr.
  pose proof (harvest_and_sweep_no_govern w s) as Hg.
  destruct (run_harvest w s) as [[t1 s1] [[]|e|]]; simpl in *.
  - destruct (gate_and_fetch_run w s1) as (t3 & E & H3).
    destruct (run_gate w s1) as [[t2 s2] r]; simpl in *. subst t2.
    split.
    + rewrite count_app, Hg. unfold count in *. simpl. lia.
    + intros n Hn. destruct (firstn_app_cases n t1 (Govern (in_pause w) :: t3))
        as [E|[m E]]; rewrite E in *.
      * rewrite (count_firstn_none _ n _ Hr) in Hn. lia.
      * rewrite count_app, Hg. destruct m as [|m]; simpl firstn in *.
        -- rewrite count_app, Hr in Hn. cbn in Hn. lia.
        -- pose proof (count_firstn_none _ m _ H3) as H4.
           unfold count in *. simpl. lia.
  - split; [lia|]. intros n Hn. rewrite (count_firstn_none _ n _ Hr) in Hn. lia.
  - split; [lia|]. intros n Hn. rewrite (count_firstn_none _ n _ Hr) in Hn. lia.
Qed.

End Gates.

(* ===================================================================== *)
(** ** Counting along traces *)
(* ===================================================================== *)

Lemma inflight_app t1 t2 : inflight (t1 ++ t2) = inflight t1 + inflight t2.
Proof.
  induction t1 as [|e t1 IH]; [reflexivity|].
  destruct e; cbn [inflight app]; rewrite ?IH; lia.
Qed.

Lemma always_app (Q : trace -> Prop) t t' :
  always Q t -> (forall m, Q (t ++ firstn m t')) -> always Q (t ++ t').
Proof.
  intros Ht Hm n. destruct (firstn_app_cases n t t') as [E|[m E]]; rewrite E; auto.
Qed.

Lemma always_whole (Q : trace -> Prop) t : always Q t -> Q t.
Proof. intro H. specialize (H (List.length t)). now rewrite firstn_all in H. Qed.

Lemma forallb_firstn {X} (p : X -> bool) n l :
  forallb p l = true -> forallb p (firstn n l) = true.
Proof.
  revert n. induction l as [|x l IH]; intros [|n] H; simpl in *; auto.
  apply andb_true_iff in H as [H1 H2]. rewrite H1. simpl. auto.
Qed.

Lemma silent_inflight t : forallb silent t = true -> inflight t = 0.
Proof.
  induction t as [|e t IH]; simpl; [reflexivity|].
  intro H. apply andb_true_iff in H as [H1 H2].
  destruct e; simpl in H1; try discriminate; auto.
Qed.

Lemma silent_count (p : event -> bool) t :
  (forall e, silent e = true -> p e = false) ->
  forallb silent t = true -> count p t = 0%nat.
Proof.
  intros Hp. unfold count. induction t as [|e t IH]; simpl; [reflexivity|].
  intro H. apply andb_true_iff in H as [H1 H2].
  rewrite (Hp e H1). auto.
Qed.

Lemma silent_not_delete f e : silent e = true -> is_delete_of f e = false.
Proof. destruct e; simpl; auto; discriminate. Qed.

Lemma silent_not_ok f e : silent e = true -> is_ok_result_of f e = false.
Proof. destruct e; simpl; auto; discriminate. Qed.

Lemma silent_not_failed f e : silent e = true -> is_failed_result_of f e = false.
Proof. destruct e; simpl; auto; discriminate. Qed.

Lemma silent_no_receive e : silent e = true -> no_receive e = true.
Proof. destruct e; simpl; auto. Qed.

Lemma fetching_app t t' : t' <> [] -> fetching (t ++ t') = fetching t'.
Proof.
  intro H. unfold fetching. rewrite rev_app_distr.
  destruct (rev t') as [|e r] eqn:E; [|reflexivity].
  apply (f_equal (@rev event)) in E. rewrite rev_involutive in E. contradiction.
Qed.

Lemma fetching_no_receive t : forallb no_receive t = true -> fetching t = false.
Proof.
  intro H. unfold fetching. destruct (rev t) as [|e r] eqn:E; [reflexivity|].
  assert (Hin : In e t) by (apply in_rev; rewrite E; now left).
  rewrite forallb_forall in H. specialize (H e Hin). destruct e; auto; discriminate.
Qed.

(** Appending events other than fetches keeps every fetch within room. *)
Lemma room_app mw t t' :
  always (room mw) t -> forallb no_receive t' = true ->
  always (room mw) (t ++ t').
Proof.
  intros Ht Hq. apply always_app; auto. intros [|m].
  - simpl. rewrite app_nil_r. now apply always_whole.
  - destruct t' as [|e t']; [simpl; rewrite app_nil_r; now apply always_whole|].
    unfold room. rewrite fetching_app by (simpl; discriminate).
    rewrite fetching_no_receive by now apply forallb_firstn. discriminate.
Qed.

Lemma silent_all_no_receive t :
  forallb silent t = true -> forallb no_receive t = true.
Proof.
  rewrite !forallb_forall. intros H e He. apply silent_no_receive. auto.
Qed.

Lemma silent_not_deregister f e : silent e = true -> is_deregister_of f e = false.
Proof. destruct e; simpl; auto; discriminate. Qed.

Lemma lawful_silent mw t t' :
  lawful mw t -> forallb silent t' = true -> lawful mw (t ++ t').
Proof.
  intros [Hb Hr Ho Hp H1 Hf] Hs.
  assert (Hd : forall f, count (is_delete_of f) t' = 0%nat)
    by (intro; apply silent_count; auto using silent_not_delete).
  assert (Hq : forall f, count (is_deregister_of f) t' = 0%nat)
    by (intro; apply silent_count; auto using silent_not_deregister).
  assert (Hx : forall f, count (is_failed_result_of f) t' = 0%nat)
    by (intro; apply silent_count; auto using silent_not_failed).
  split.
  - apply always_app; auto. intro m. rewrite inflight_app.
    rewrite (silent_inflight (firstn m t')) by now apply forallb_firstn.
    pose proof (always_whole _ _ Hb). simpl in *. lia.
  - apply room_app; auto using silent_all_no_receive.
  - apply always_app; auto. intros m f. rewrite !count_app.
    rewrite !(silent_count _ (firstn m t'))
      by (auto using silent_not_delete, silent_not_ok, forallb_firstn).
    pose proof (always_whole _ _ Ho f). lia.
  - intro f. rewrite !count_app, Hd, Hq, Hp. reflexivity.
  - intro f. rewrite count_app, Hd. specialize (H1 f). lia.
  - intro f. rewrite !count_app, Hd, Hx. intro H. rewrite Hf; lia.
Qed.

Lemma paired_silent t t' :
  paired t -> forallb silent t' = true -> paired (t ++ t').
Proof.
  intros Hp Hs f. rewrite !count_app, (Hp f).
  rewrite !(silent_count _ t') by auto using silent_not_delete, silent_not_ok.
  reflexivity.
Qed.

Lemma ended_silent mw e t t' :
  ended mw e t -> forallb silent t' = true -> ended mw e (t ++ t').
Proof.
  intros [Hl Hp] Hs. split; [now apply lawful_silent|].
  intro He. apply paired_silent; auto.
Qed.

Lemma steady_silent mw t s t' s' :
  steady mw t s -> forallb silent t' = true ->
  futures s' = futures s -> next_future s' = next_future s ->
  steady mw (t ++ t') s'.
Proof.
  intros [Hl Hp Hsz Hnd Hfr Hpe Hun Hcl] Hs Ef En.
  assert (Hk : forall f, count (is_ok_result_of f) t' = 0%nat)
    by (intro; apply silent_count; auto using silent_not_ok).
  assert (Hx : forall f, count (is_failed_result_of f) t' = 0%nat)
    by (intro; apply silent_count; auto using silent_not_failed).
  split; rewrite ?Ef, ?En; auto.
  - now apply lawful_silent.
  - now apply paired_silent.
  - rewrite inflight_app, (silent_inflight t') by assumption. lia.
  - intros f H. rewrite count_app, Hk, Hpe; auto.
  - intros f H. rewrite count_app, Hk, Hun; auto.
  - intros f. rewrite count_app, Hx, Hcl; auto.
Qed.

(** While the loop keeps going, its trace is one it may end with, whatever
    the error. *)
Lemma steady_ended mw e t s : steady mw t s -> ended mw e t.
Proof. intros [Hl Hp _ _ _ _ _ _]. split; auto. Qed.

(** A part of the loop that leaves the registry alone and emits only
    silent events keeps the loop steady, or raises on a lawful trace. *)
Lemma after_frame mw {A} (m : M A) t s :
  frame m -> emits silent m -> steady mw t s -> after mw t (m s).
Proof.
  intros Hf He Hst. destruct (Hf s) as (F1 & F2 & F3). specialize (He s).
  destruct (m s) as [[t' s'] [a|e|]]; simpl in *.
  - eapply steady_silent; eauto.
  - apply ended_silent; auto. now apply (steady_ended mw e t s).
  - congruence.
Qed.

Lemma after_bind mw {A B} (m : M A) (k : A -> M B) t s :
  after mw t (m s) ->
  (forall a t1 s1, m s = (t1, s1, Done a) -> steady mw (t ++ t1) s1 ->
                   after mw (t ++ t1) (k a s1)) ->
  after mw t (bind m k s).
Proof.
  intros Hm Hk. rewrite bind_run.
  destruct (m s) as [[t1 s1] [a|e|]]; simpl in *; auto.
  specialize (Hk a t1 s1 eq_refl Hm).
  destruct (k a s1) as [[t2 s2] [b|e|]]; simpl in *; auto;
    now rewrite app_assoc.
Qed.

Lemma count_cons p e t :
  count p (e :: t) = ((if p e then 1 else 0) + count p t)%nat.
Proof. unfold count. simpl. destruct (p e); reflexivity. Qed.

Lemma count_firstn_le p n t : (count p (firstn n t) <= count p t)%nat.
Proof.
  unfold count. revert n. induction t as [|e t IH]; intros [|n]; simpl; try lia.
  specialize (IH n). destruct (p e); simpl; lia.
Qed.

Lemma inflight_firstn_nonpos n t :
  forallb (fun e => negb (is_register e)) t = true -> inflight (firstn n t) <= 0.
Proof.
  revert n. induction t as [|e t IH]; intros [|n] H; cbn [firstn inflight]; try lia.
  simpl in H. apply andb_true_iff in H as [H1 H2]. specialize (IH n H2).
  destruct e; simpl in H1; try discriminate; lia.
Qed.

Lemma silent_not_register t :
  forallb silent t = true -> forallb (fun e => negb (is_register e)) t = true.
Proof.
  rewrite !forallb_forall. intros H e He. specialize (H e He).
  destruct e; simpl in *; auto.
Qed.

Section Harvested.

(** The events of one successful harvest: the result is retrieved, the task
    leaves the registry, its message is deleted. *)
Variables (f : fut) (r : option string) (h : string) (pr pr2 : trace).
Hypothesis pr_silent : forallb silent pr = true.
Hypothesis pr2_silent : forallb silent pr2 = true.

Local Abbreviation tail := (pr ++ Deregister f :: DeleteMessage f h :: pr2).
Local Abbreviation chunk := (Result f (Val r) :: tail).

Lemma chunk_delete g :
  count (is_delete_of g) tail = if Nat.eqb f g then 1%nat else 0%nat.
Proof.
  rewrite count_app, !count_cons.
  rewrite !(silent_count (is_delete_of g)) by auto using silent_not_delete.
  simpl. destruct (Nat.eqb f g); reflexivity.
Qed.

Lemma chunk_deregister g :
  count (is_deregister_of g) chunk = if Nat.eqb f g then 1%nat else 0%nat.
Proof.
  rewrite count_cons, count_app, !count_cons.
  rewrite !(silent_count (is_deregister_of g)) by auto using silent_not_deregister.
  simpl. destruct (Nat.eqb f g); reflexivity.
Qed.

Lemma chunk_ok g :
  count (is_ok_result_of g) chunk = if Nat.eqb f g then 1%nat else 0%nat.
Proof.
  rewrite count_cons, count_app, !count_cons.
  rewrite !(silent_count (is_ok_result_of g)) by auto using silent_not_ok.
  simpl. destruct (Nat.eqb f g); reflexivity.
Qed.

Lemma chunk_failed g : count (is_failed_result_of g) chunk = 0%nat.
Proof.
  rewrite count_cons, count_app, !count_cons.
  rewrite !(silent_count (is_failed_result_of g)) by auto using silent_not_failed.
  reflexivity.
Qed.

Lemma chunk_inflight : inflight chunk = -1.
Proof.
  cbn [inflight]. rewrite inflight_app. cbn [inflight].
  rewrite !silent_inflight by assumption. lia.
Qed.

Lemma chunk_prefix_inflight m : inflight (firstn m chunk) <= 0.
Proof.
  apply inflight_firstn_nonpos. simpl. rewrite forallb_app. simpl.
  now rewrite !silent_not_register.
Qed.

Lemma chunk_prefix_order m : in_order (firstn m chunk).
Proof.
  intro g. destruct m as [|m]; [unfold count; simpl; lia|].
  cbn [firstn]. rewrite !count_cons.
  pose proof (count_firstn_le (is_delete_of g) m tail) as H.
  rewrite chunk_delete in H.
  simpl. destruct (Nat.eqb f g); simpl; lia.
Qed.

Lemma steady_harvested mw t s s' v rest :
  steady mw t s ->
  dict_pop f (futures s) = Val (v, rest) ->
  futures s' = rest -> next_future s' = next_future s ->
  steady mw (t ++ chunk) s'.
Proof.
  intros [[Hb Hr Ho Hq H1 Hf] Hp Hsz Hnd Hfr Hpe Hun Hcl] Epop Ef En.
  destruct (dict_pop_NoDup _ _ _ _ Epop Hnd) as [Hnd' Hout].
  assert (Hin : In f (keys (futures s))).
  { destruct (dict_pop_keys _ _ _ _ Epop) as (b & a & E1 & _).
    rewrite E1. apply in_or_app. right. now left. }
  assert (Hdel : forall g, count (is_delete_of g) chunk
                           = if Nat.eqb f g then 1%nat else 0%nat).
  { intro g. rewrite count_cons, chunk_delete. reflexivity. }
  assert (Hzero : count (is_ok_result_of f) t = 0%nat) by auto.
  split; [split|..]; rewrite ?Ef, ?En.
  - apply always_app; auto. intro m. rewrite inflight_app.
    pose proof (chunk_prefix_inflight m). pose proof (always_whole _ _ Hb).
    simpl in *. lia.
  - apply room_app; auto. simpl. rewrite forallb_app. simpl.
    now rewrite !silent_all_no_receive.
  - apply always_app; auto. intros m g. rewrite !count_app.
    pose proof (chunk_prefix_order m g). rewrite (Hp g). lia.
  - intro g. rewrite !count_app, Hdel, chunk_deregister, Hq. reflexivity.
  - intro g. rewrite count_app, Hdel.
    destruct (Nat.eqb_spec f g) as [<-|Hne].
    + rewrite Hp, Hzero. lia.
    + specialize (H1 g). lia.
  - intro g. rewrite count_app, chunk_failed, Hcl. lia.
  - intro g. rewrite !count_app, Hdel, chunk_ok, Hp. reflexivity.
  - rewrite inflight_app, chunk_inflight.
    rewrite (dict_pop_length _ _ _ _ Epop) in Hsz. lia.
  - exact Hnd'.
  - intros g Hg. apply Hfr. eapply dict_pop_subset; eauto.
  - intros g Hg. rewrite count_app, chunk_ok.
    destruct (Nat.eqb_spec f g) as [<-|Hne]; [contradiction|].
    rewrite Hpe; auto. eapply dict_pop_subset; eauto.
  - intros g Hg. rewrite count_app, chunk_ok.
    destruct (Nat.eqb_spec f g) as [<-|Hne].
    + specialize (Hfr f Hin). lia.
    + rewrite Hun; auto.
  - intro g. rewrite count_app, chunk_failed, Hcl. reflexivity.
Qed.

(** The result has been retrieved and printed, and the task is still in the
    registry: where a [print] that fails leaves the trace. *)
Lemma lawful_retrieved mw t s :
  steady mw t s -> In f (keys (futures s)) ->
  lawful mw (t ++ Result f (Val r) :: pr).
Proof.
  intros [[Hb Hr Ho Hq H1 Hf] Hp Hsz Hnd Hfr Hpe Hun Hcl] Hin.
  assert (Hd : forall g, count (is_delete_of g) (Result f (Val r) :: pr) = 0%nat).
  { intro g. rewrite count_cons.
    now rewrite (silent_count (is_delete_of g)) by auto using silent_not_delete. }
  assert (Hg : forall g, count (is_deregister_of g) (Result f (Val r) :: pr) = 0%nat).
  { intro g. rewrite count_cons.
    now rewrite (silent_count (is_deregister_of g))
      by auto using silent_not_deregister. }
  assert (Hx : forall g, count (is_failed_result_of g) (Result f (Val r) :: pr)
                         = 0%nat).
  { intro g. rewrite count_cons.
    now rewrite (silent_count (is_failed_result_of g))
      by auto using silent_not_failed. }
  split.
  - apply always_app; auto. intro m. rewrite inflight_app.
    pose proof (always_whole _ _ Hb).
    assert (inflight (firstn m (Result f (Val r) :: pr)) <= 0).
    { apply inflight_firstn_nonpos. simpl. now apply silent_not_register. }
    simpl in *. lia.
  - apply room_app; auto. simpl. now apply silent_all_no_receive.
  - apply always_app; auto. intros m g. rewrite !count_app.
    pose proof (count_firstn_le (is_delete_of g) m (Result f (Val r) :: pr)) as Hle.
    rewrite Hd in Hle. pose proof (always_whole _ _ Ho g). lia.
  - intro g. rewrite !count_app, Hd, Hg, Hq. reflexivity.
  - intro g. rewrite count_app, Hd. specialize (H1 g). lia.
  - intro g. rewrite !count_app, Hd, Hx. intro H. rewrite Hf; lia.
Qed.

End Harvested.

Lemma lawful_failed_result mw t s f e :
  steady mw t s -> In f (keys (futures s)) ->
  ended mw e (t ++ [Result f (Exc e)]).
Proof.
  intros [[Hb Hr Ho Hq H1 Hf] Hp Hsz Hnd Hfr Hpe Hun Hcl] Hin.
  assert (Hd : forall g, count (is_delete_of g) [Result f (Exc e)] = 0%nat)
    by reflexivity.
  assert (Hg : forall g, count (is_deregister_of g) [Result f (Exc e)] = 0%nat)
    by reflexivity.
  assert (Hk : forall g, count (is_ok_result_of g) [Result f (Exc e)] = 0%nat)
    by reflexivity.
  split; [split|].
  - apply always_app; auto. intro m. rewrite inflight_app.
    pose proof (always_whole _ _ Hb). simpl in *.
    destruct m as [|[|m]]; cbn [firstn inflight]; lia.
  - apply room_app; auto.
  - apply always_app; auto. intros m g. rewrite !count_app, (Hp g).
    destruct m as [|[|m]]; unfold count; simpl; lia.
  - intro g. rewrite !count_app, Hd, Hg, Hq. reflexivity.
  - intro g. rewrite count_app, Hd. specialize (H1 g). lia.
  - intro g. rewrite !count_app, Hd, Hcl, count_cons. simpl.
    destruct (Nat.eqb_spec f g) as [<-|Hne]; simpl; [|unfold count; simpl; lia].
    intros _. rewrite Hp, Hpe; auto.
  - intros _ g. rewrite !count_app, Hd, Hk, Hp. reflexivity.
Qed.

Lemma steady_received mw t s v :
  steady mw t s -> len (futures s) < mw ->
  steady mw (t ++ [ReceiveMessage v]) s.
Proof.
  intros [[Hb Hr Ho Hq H1 Hf] Hp Hsz Hnd Hfr Hpe Hun Hcl] Hroom.
  assert (Hd : forall g, count (is_delete_of g) [ReceiveMessage v] = 0%nat)
    by reflexivity.
  assert (Hg : forall g, count (is_deregister_of g) [ReceiveMessage v] = 0%nat)
    by reflexivity.
  assert (Hk : forall g, count (is_ok_result_of g) [ReceiveMessage v] = 0%nat)
    by reflexivity.
  assert (Hx : forall g, count (is_failed_result_of g) [ReceiveMessage v] = 0%nat)
    by reflexivity.
  split; [split|..]; auto.
  - apply always_app; auto. intro m. rewrite inflight_app.
    pose proof (always_whole _ _ Hb). simpl in *.
    destruct m as [|[|m]]; cbn [firstn inflight]; lia.
  - apply always_app; auto. intros [|m].
    + simpl. rewrite app_nil_r. now apply always_whole.
    + intros _. rewrite inflight_app. destruct m; cbn [firstn inflight]; lia.
  - apply always_app; auto. intros m g. rewrite !count_app, (Hp g).
    destruct m as [|[|m]]; unfold count; simpl; lia.
  - intro g. rewrite !count_app, Hd, Hg, Hq. reflexivity.
  - intro g. rewrite count_app, Hd. specialize (H1 g). lia.
  - intro g. rewrite !count_app, Hd, Hx. intro H. rewrite Hf; lia.
  - intro g. rewrite !count_app, Hd, Hk, Hp. reflexivity.
  - rewrite inflight_app. cbn [inflight]. lia.
  - intros g Hin. rewrite count_app, Hk, Hpe; auto.
  - intros g Hin. rewrite count_app, Hk, Hun; auto.
  - intro g. rewrite count_app, Hx, Hcl. reflexivity.
Qed.

Lemma steady_registered mw t s s' pr stored :
  steady mw t s -> len (futures s) < mw ->
  forallb silent pr = true ->
  futures s' = dict_set (next_future s) stored (futures s) ->
  next_future s' = S (next_future s) ->
  steady mw (t ++ pr ++ [Register (next_future s) stored]) s'.
Proof.
  intros Hst Hroom Hpr Ef En.
  pose proof (steady_silent mw t s pr s Hst Hpr eq_refl eq_refl) as Hst'.
  rewrite app_assoc. revert Hst'. generalize (t ++ pr). clear Hst Hpr t pr.
  intros t [[Hb Hr Ho Hq H1 Hf] Hp Hsz Hnd Hfr Hpe Hun Hcl].
  set (f := next_future s) in *.
  assert (Hnew : ~ In f (keys (futures s))).
  { intro H. specialize (Hfr f H). lia. }
  rewrite (dict_set_fresh _ stored _ Hnew) in Ef.
  assert (Ek : keys (futures s') = keys (futures s) ++ [f]).
  { rewrite Ef. unfold keys. now rewrite map_app. }
  assert (Hd : forall g, count (is_delete_of g) [Register f stored] = 0%nat)
    by reflexivity.
  assert (Hg : forall g, count (is_deregister_of g) [Register f stored] = 0%nat)
    by reflexivity.
  assert (Hk : forall g, count (is_ok_result_of g) [Register f stored] = 0%nat)
    by reflexivity.
  assert (Hx : forall g, count (is_failed_result_of g) [Register f stored] = 0%nat)
    by reflexivity.
  split; [split|..]; rewrite ?Ek, ?En.
  - apply always_app; auto. intro m. rewrite inflight_app.
    pose proof (always_whole _ _ Hb). simpl in *.
    destruct m as [|[|m]]; cbn [firstn inflight]; lia.
  - apply room_app; auto.
  - apply always_app; auto. intros m g. rewrite !count_app, (Hp g).
    destruct m as [|[|m]]; unfold count; simpl; lia.
  - intro g. rewrite !count_app, Hd, Hg, Hq. reflexivity.
  - intro g. rewrite count_app, Hd. specialize (H1 g). lia.
  - intro g. rewrite !count_app, Hd, Hx. intro H. rewrite Hf; lia.
  - intro g. rewrite !count_app, Hd, Hk, Hp. reflexivity.
  - rewrite inflight_app. cbn [inflight]. rewrite Ef. unfold len in *.
    rewrite length_app. simpl. lia.
  - apply NoDup_app; [assumption | repeat constructor; simpl; tauto |].
    intros g Hin [<-|[]]. contradiction.
  - intros g Hin. apply in_app_or in Hin as [Hin|[<-|[]]].
    + specialize (Hfr g Hin). lia.
    + lia.
  - intros g Hin. rewrite count_app, Hk.
    apply in_app_or in Hin as [Hin|[<-|[]]].
    + rewrite Hpe; auto.
    + rewrite Hun; auto.
  - intros g Hin. rewrite count_app, Hk, Hun; auto. lia.
  - intro g. rewrite count_app, Hx, Hcl. reflexivity.
Qed.

(* ===================================================================== *)
(** ** The loop keeps the registry and the trace in step *)
(* ===================================================================== *)

Section Preservation.

Variable loads : string -> option json.
Variable LONG_RECORD : value.
Variable max_workers : Z.

Local Abbreviation steady_ := (steady max_workers).
Local Abbreviation after_ := (after max_workers).

Lemma steady_lawful t s : steady_ t s -> lawful max_workers t.
Proof. intros []. assumption. Qed.

(** Lines 118-131. *)
Lemma harvest_one_after w now f t s :
  steady_ t s -> In f (keys (futures s)) ->
  after_ t (harvest_one w now f s) /\
  forall t' s' a g,
    harvest_one w now f s = (t', s', Done a) ->
    In g (keys (futures s)) -> g <> f -> In g (keys (futures s')).
Proof.
  intros Hst Hin.
  destruct (dict_pop_present f (futures s)) as (v & rest & Epop);
    [now apply has_key_In|].
  unfold harvest_one, print_error, bind, emit, eval, get, modify, may_raise,
    when, ret, raise.
  cbv beta iota.
  destruct (in_result w f) as [r|e]; cbv beta iota;
    [|split; [eapply lawful_failed_result; eauto | discriminate]].
  assert (Hother : forall g, In g (keys (futures s)) -> g <> f -> In g (keys rest)).
  { intros g Hg Hne. now apply (dict_pop_other _ g _ _ _ Epop Hne). }
  destruct r as [[|c x]|]; cbv beta iota;
    [ | destruct (in_print w f) as [refused|]; cbn [option_map]; cbv beta iota;
        [ split; [|discriminate];
          split; [|discriminate];
          eapply (lawful_retrieved f _ [_]); [reflexivity | exact Hst | exact Hin]
        | ]
      | ];
    rewrite Epop; cbv beta iota;
    destruct (in_delete w f) as [e|]; cbv beta iota;
    try destruct (_ =? 0); cbv beta iota; simpl app; simpl fst; simpl snd;
    (split;
     [ unfold after;
       try apply (steady_ended max_workers e _ (set_futures rest s));
       first [ eapply (steady_harvested f _ _ [] _)
             | eapply (steady_harvested f _ _ [_] _) ];
       [ reflexivity | reflexivity | exact Hst | exact Epop
       | reflexivity | reflexivity ]
     | try discriminate;
       intros t' s' a g E Hg Hne; inversion E; subst s'; simpl; auto ]).
Qed.

(** Line 117: [for fut in done], over distinct registered futures. *)
Lemma harvest_all_after w now done t s :
  steady_ t s -> NoDup done ->
  (forall f, In f done -> In f (keys (futures s))) ->
  after_ t (for_each done (harvest_one w now) s).
Proof.
  revert t s. induction done as [|f done IH]; intros t s Hst Hnd Hreg.
  - simpl. rewrite app_nil_r. exact Hst.
  - cbn [for_each]. inversion Hnd as [|? ? Hnotin Hnd']; subst.
    destruct (harvest_one_after w now f t s Hst (Hreg f (or_introl eq_refl)))
      as [Hone Hkeep].
    apply after_bind; [exact Hone|].
    intros [] t1 s1 E Hst1. apply IH; auto.
    intros g Hg. apply (Hkeep t1 s1 tt g E).
    + apply Hreg. now right.
    + intros ->. contradiction.
Qed.

Lemma silent_shape_sweep_one w now f msg n :
  emits silent (sweep_one loads LONG_RECORD w now f msg n).
Proof. unfold sweep_one. shape. Qed.

Lemma frame_sweep_one w now f msg n :
  frame (sweep_one loads LONG_RECORD w now f msg n).
Proof. unfold sweep_one. shape. Qed.

Lemma silent_shape_sweep w now items n :
  emits silent (sweep loads LONG_RECORD max_workers w now items n).
Proof.
  revert n. induction items as [|[f msg] items IH]; intro n; simpl.
  - shape.
  - apply emits_bind; [apply silent_shape_sweep_one | intro]. shape.
Qed.

Lemma frame_sweep w now items n :
  frame (sweep loads LONG_RECORD max_workers w now items n).
Proof.
  revert n. induction items as [|[f msg] items IH]; intro n; simpl.
  - shape.
  - apply frame_bind; [apply frame_sweep_one | intro]. shape.
Qed.

(** Lines 133-155: the sweep check and the sweep. *)
Lemma sweep_phase_after w t s :
  steady_ t s ->
  after_ t
    ((s0 <- get ;;
      due <- eval (sweep_due LONG_RECORD (in_now w) (logCheckTime s0)) ;;
      when due
        (modify (set_logCheckTime (in_now w)) ;;
         emit Stats ;;
         emit (Print LStats) ;;
         s1 <- get ;;
         sweep loads LONG_RECORD max_workers w (in_now w) (futures s1) 0)) s).
Proof.
  apply after_frame.
  - shape. apply frame_sweep.
  - shape. apply silent_shape_sweep.
Qed.

(** Lines 113-155. *)
Lemma harvest_and_sweep_after w t s :
  steady_ t s ->
  after_ t (harvest_and_sweep loads LONG_RECORD max_workers w s).
Proof.
  intro Hst. unfold harvest_and_sweep.
  apply after_bind; [apply after_frame; [shape | shape | exact Hst]|].
  intros s0 t0 s1 E Hst0. inversion E; subst t0 s1 s0. clear E.
  destruct (futures s) as [|item d] eqn:Ed.
  - simpl. rewrite app_nil_r. exact Hst0.
  - rewrite <- Ed. apply after_bind.
    + apply after_frame; [shape | shape | exact Hst0].
    + intros [] t1 s1 E Hst1. inversion E; subst t1 s1.
      apply after_bind.
      * apply harvest_all_after; [exact Hst1 | apply wait_NoDup |].
        intros f Hf. apply has_key_In. eapply wait_registered; eauto.
      * intros [] t2 s2 _ Hst2. now apply sweep_phase_after.
Qed.

(** Lines 171-185. *)
Lemma guarded_fetch_after answer at_ t s :
  steady_ t s -> len (futures s) < max_workers ->
  after_ t (guarded_fetch LONG_RECORD answer at_ s).
Proof.
  intros Hst Hroom.
  unfold guarded_fetch, try_except, fetch_once, bind, emit, eval, get, modify,
    when, ret, raise.
  cbv beta iota.
  destruct (receive_visibility LONG_RECORD) as [v|e]; cbv beta iota.
  - pose proof (steady_received _ _ _ v Hst Hroom) as Hrecv.
    destruct answer as [e|[|this_msg more]]; cbv beta iota.
    + destruct (is_Exception e); simpl;
        [change (t ++ [ReceiveMessage v; Print (LFetchError e)])
           with (t ++ [ReceiveMessage v] ++ [Print (LFetchError e)]);
         rewrite app_assoc; apply ended_silent; [|reflexivity]|];
        apply (steady_ended _ _ _ _ Hrecv).
    + destruct (len (futures s) =? 0); simpl.
      * change (t ++ [ReceiveMessage v; Sleep (1 # 10)])
          with (t ++ [ReceiveMessage v] ++ [Sleep (1 # 10)]).
        rewrite app_assoc.
        eapply steady_silent; [exact Hrecv | reflexivity | reflexivity | reflexivity].
      * exact Hrecv.
    + simpl.
      change (t ++ [ReceiveMessage v; Submit (next_future s) (Body this_msg);
                    Register (next_future s)
                      {| TUPLE_MSG := this_msg; TUPLE_STARTTIME := at_;
                         TUPLE_EXTENDED := 0 |}])
        with (t ++ [ReceiveMessage v] ++ [Submit (next_future s) (Body this_msg)]
                ++ [Register (next_future s)
                      {| TUPLE_MSG := this_msg; TUPLE_STARTTIME := at_;
                         TUPLE_EXTENDED := 0 |}]).
      rewrite app_assoc.
      apply (steady_registered max_workers _ s _
               [Submit (next_future s) (Body this_msg)]); auto.
  - destruct (is_Exception e); simpl;
      try rewrite app_nil_r; try (apply ended_silent; [|reflexivity]);
      apply (steady_ended _ _ _ _ Hst).
Qed.

(** Lines 170-185. *)
Lemma fetch_loop_after answers t s :
  steady_ t s -> after_ t (fetch_loop LONG_RECORD max_workers answers s).
Proof.
  revert t s. induction answers as [|[answer at_] answers IH]; intros t s Hst;
    cbn [fetch_loop];
    (apply after_bind; [apply after_frame; [shape | shape | exact Hst]|]);
    intros s0 t0 s1 E Hst0; inversion E; subst t0 s1 s0; clear E;
    destruct (Z.ltb_spec (len (futures s)) max_workers) as [Hroom|Hfull].
  - apply after_bind; [now apply guarded_fetch_after|].
    intros a t1 s1 _ Hst1. simpl. now rewrite app_nil_r.
  - simpl. now rewrite app_nil_r.
  - apply after_bind; [now apply guarded_fetch_after|].
    intros [|] t1 s1 _ Hst1; [now apply IH|]. simpl. now rewrite app_nil_r.
  - simpl. now rewrite app_nil_r.
Qed.

(** Lines 158-185. *)
Lemma gate_and_fetch_after w t s :
  steady_ t s -> after_ t (gate_and_fetch LONG_RECORD max_workers w s).
Proof.
  intro Hst. unfold gate_and_fetch.
  apply after_bind; [apply after_frame; [shape | shape | exact Hst]|].
  intros [] t1 s1 _ Hst1.
  destruct (Qltb (in_pause w) 0); [apply after_frame; [shape | shape | exact Hst1]|].
  apply after_bind; [apply after_frame; [shape | shape | exact Hst1]|].
  intros s0 t0 s2 E Hst0. inversion E; subst t0 s2 s0. clear E.
  destruct (max_workers <=? len (futures s1));
    [apply after_frame; [shape | shape | exact Hst0]|].
  apply after_bind; [apply after_frame; [shape | shape | exact Hst0]|].
  intros [] t2 s2 _ Hst2. now apply fetch_loop_after.
Qed.

Lemma cycle_after w t s :
  steady_ t s -> after_ t (cycle loads LONG_RECORD max_workers w s).
Proof.
  intro Hst. unfold cycle. apply after_bind.
  - now apply harvest_and_sweep_after.
  - intros [] t1 s1 _ Hst1. now apply gate_and_fetch_after.
Qed.

(** However many cycles have been recorded and however the loop ends, its
    trace is lawful; and the loop never returns. *)
Lemma loop_lawful ws t s :
  steady_ t s ->
  let '(t', s', o) := loop loads LONG_RECORD max_workers ws s in
  lawful max_workers (t ++ t') /\
  (forall a, o <> Done a) /\
  (o = Running -> steady_ (t ++ t') s') /\
  (forall e, o = Raised e -> print_failed e = false -> paired (t ++ t')).
Proof.
  revert t s. induction ws as [|w ws IH]; intros t s Hst.
  - simpl. rewrite app_nil_r.
    split; [apply (steady_lawful _ _ Hst) |
            split; [discriminate | split; [auto | discriminate]]].
  - cbn [loop]. rewrite bind_run.
    pose proof (cycle_after w t s Hst) as Hc.
    destruct (cycle loads LONG_RECORD max_workers w s) as [[t1 s1] [[]|e|]];
      simpl in Hc.
    + specialize (IH (t ++ t1) s1 Hc).
      destruct (loop loads LONG_RECORD max_workers ws s1) as [[t2 s2] o].
      rewrite app_assoc. exact IH.
    + destruct Hc as [Hl Hp].
      split; [exact Hl | split; [discriminate | split; [discriminate|]]].
      intros e' E. injection E as <-. exact Hp.
    + contradiction.
Qed.

End Preservation.

(* ===================================================================== *)
(** ** The program around the loop *)
(* ===================================================================== *)

(** [while True] has no [break]: the loop never returns. *)
Lemma loop_never_returns loads LONG_RECORD max_workers ws s a :
  snd (loop loads LONG_RECORD max_workers ws s) <> Done a.
Proof.
  revert s. induction ws as [|w ws IH]; intro s; cbn [loop].
  - discriminate.
  - rewrite bind_run.
    destruct (cycle loads LONG_RECORD max_workers w s) as [[t1 s1] [[]|e|]];
      try discriminate.
    specialize (IH s1).
    destruct (loop loads LONG_RECORD max_workers ws s1) as [[t2 s2] o]. exact IH.
Qed.

Section WholeProgram.

Variable loads : string -> option json.
Variable W : world.

Lemma prints_silent t : forallb is_print t = true -> forallb silent t = true.
Proof.
  rewrite !forallb_forall. intros H e He. specialize (H e He).
  destruct e; auto; discriminate.
Qed.

Lemma closing_silent t : forallb is_closing t = true -> forallb silent t = true.
Proof.
  rewrite !forallb_forall. intros H e He. specialize (H e He).
  destruct e; auto; discriminate.
Qed.

Lemma closing_no_change t : forallb is_closing t = true -> count is_change t = 0%nat.
Proof.
  intro H. apply count_none. rewrite forallb_forall in *. intros e He.
  specialize (H e He). destruct e; auto; discriminate.
Qed.

Lemma initial_steady mw pre :
  0 <= mw -> forallb silent pre = true -> steady mw pre (initial W).
Proof.
  intros Hmw Hpre.
  assert (H0 : steady mw [] (initial W)).
  { split; [split|..]; simpl; try (intros; reflexivity); try tauto.
    - intros [|n]; simpl; lia.
    - intros [|n]; discriminate.
    - intros [|n] f; unfold count; simpl; lia.
    - intro f. unfold count. simpl. lia.
    - intro f. reflexivity.
    - constructor. }
  exact (steady_silent mw [] (initial W) pre (initial W) H0 Hpre eq_refl eq_refl).
Qed.

Lemma ThreadPoolExecutor_positive cpus n mw :
  ThreadPoolExecutor cpus n = Val mw -> 0 < mw.
Proof.
  unfold ThreadPoolExecutor. destruct n as [n|].
  - destruct (Z.leb_spec n 0); [discriminate|]. intro E. inversion E. lia.
  - intro E. inversion E. destruct cpus as [c|];
      [pose proof (Pos2Z.is_pos c) | ]; apply Z.min_glb_lt; lia.
Qed.

(** Lines 193-197: the dump of the still-outstanding tasks. *)
Lemma dump_run items s :
  exists tr o,
    for_each items (report_one loads W (fatal_now W)) s = (tr, s, o) /\
    forallb is_report tr = true /\
    (o = Done tt \/ exists e', o = Raised e' /\ is_Exception e' = true) /\
    ((forall f msg, In (f, msg) items -> fatal_fut_done W f = false ->
                    identity loads (Body (TUPLE_MSG msg)) <> None) ->
     tr = report_events loads W items /\ o = Done tt).
Proof.
  induction items as [|[f msg] items IH].
  - exists [], (Done tt). simpl. repeat split; auto.
  - destruct IH as (tr & o & Erun & Hsil & Hout & Hall).
    cbn [for_each]. rewrite bind_run.
    unfold report_one at 1. cbn [report_events flat_map].
    fold (report_events loads W items).
    destruct (fatal_fut_done W f) eqn:Edone; cbn [negb when ret].
    + rewrite Erun. exists tr, o. repeat split; auto.
      * apply Hall. intros g m Hin. apply H. now right.
      * apply Hall. intros g m Hin. apply H. now right.
    + unfold identity, orjson_loads, bind, eval, emit, ret, raise. cbv beta iota.
      destruct (loads (Body (TUPLE_MSG msg))) as [record|] eqn:El; cbv beta iota.
      * destruct (subscript record "DATA_SOURCE") as [ds|e1] eqn:E1; cbv beta iota.
        -- destruct (subscript record "RECORD_ID") as [rid|e2] eqn:E2; cbv beta iota.
           ++ rewrite Erun. simpl. eexists _, o. repeat split; auto.
              ** f_equal. apply Hall. intros g m Hin. apply H. now right.
              ** apply Hall. intros g m Hin. apply H. now right.
           ++ simpl. eexists _, _. repeat split; auto.
              ** right. eexists. split; [reflexivity|].
                 destruct record; simpl in E2;
                   [destruct (assoc _ _); inversion E2 | inversion E2]; reflexivity.
              ** exfalso. apply (H f msg (or_introl eq_refl) Edone).
                 unfold identity. now rewrite El, E1, E2.
              ** exfalso. apply (H f msg (or_introl eq_refl) Edone).
                 unfold identity. now rewrite El, E1, E2.
        -- simpl. eexists _, _. repeat split; auto.
           ++ right. eexists. split; [reflexivity|].
              destruct record; simpl in E1;
                [destruct (assoc _ _); inversion E1 | inversion E1]; reflexivity.
           ++ exfalso. apply (H f msg (or_introl eq_refl) Edone).
              unfold identity. now rewrite El, E1.
           ++ exfalso. apply (H f msg (or_introl eq_refl) Edone).
              unfold identity. now rewrite El, E1.
      * simpl. eexists _, _. repeat split; auto.
        -- right. eexists. split; reflexivity.
        -- exfalso. apply (H f msg (or_introl eq_refl) Edone).
           unfold identity. now rewrite El.
        -- exfalso. apply (H f msg (or_introl eq_refl) Edone).
           unfold identity. now rewrite El.
Qed.

Lemma report_events_app d1 d2 :
  report_events loads W (d1 ++ d2)
  = report_events loads W d1 ++ report_events loads W d2.
Proof. unfold report_events. apply flat_map_app. Qed.


Lemma reports_closing t : forallb is_report t = true -> forallb is_closing t = true.
Proof.
  rewrite !forallb_forall. intros H e He. specialize (H e He).
  destruct e as [[]| | | | | | | | | | | | |]; auto; discriminate.
Qed.

Lemma reports_are_prints t : forallb is_report t = true -> forallb is_print t = true.
Proof.
  rewrite !forallb_forall. intros H e He. specialize (H e He).
  destruct e; auto; discriminate.
Qed.

Local Abbreviation the_loop mw :=
  (loop loads (LONG_RECORD_of W) mw (cycles W) (initial W)).

Ltac open_main :=
  unfold main, program, with_executor, try_except, finally, fatal_handler,
    shutdown, bind, emit, eval, get, ret, raise, still_running;
  cbv beta iota.

Lemma main_not_started e :
  ThreadPoolExecutor (cpu_count W) (threads_per_process W) = Exc e ->
  main loads W = ([Print (LError e); Print LTraceback; Exit (-1)], Some (-1)).
Proof.
  intro E. assert (e = ValueError) as ->.
  { unfold ThreadPoolExecutor in E. destruct (threads_per_process W) as [n|];
      [destruct (n <=? 0)|]; congruence. }
  open_main. rewrite E. reflexivity.
Qed.

Lemma main_running mw t s :
  ThreadPoolExecutor (cpu_count W) (threads_per_process W) = Val mw ->
  the_loop mw = (t, s, Running) ->
  main loads W = (Print (LThreads mw) :: t, None).
Proof.
  intros E El. open_main. rewrite E. cbv beta iota. rewrite El. simpl.
  rewrite ?app_nil_r. reflexivity.
Qed.

(** [SystemExit] is not caught by either handler: the [with] block shuts the
    pool down, which waits for the running tasks, and the process exits. *)
Lemma main_exit mw t s code :
  ThreadPoolExecutor (cpu_count W) (threads_per_process W) = Val mw ->
  the_loop mw = (t, s, Raised (SystemExit code)) ->
  main loads W =
    if tasks_end W (futures s)
    then (Print (LThreads mw) :: t ++ [Shutdown; Exit code], Some code)
    else (Print (LThreads mw) :: t ++ [Shutdown], None).
Proof.
  intros E El. destruct (tasks_end W (futures s)) eqn:Et;
    open_main; rewrite E; cbv beta iota; rewrite El; simpl; rewrite Et; simpl;
    rewrite <- ?app_assoc; reflexivity.
Qed.

(** The fatal path: the two lines of the handler, the dump, and then the
    shutdown of the pool, which waits for the running tasks; once they have
    ended, the exit, after the outer handler's lines if the dump raised. *)
Lemma main_fatal mw t s e :
  ThreadPoolExecutor (cpu_count W) (threads_per_process W) = Val mw ->
  the_loop mw = (t, s, Raised e) ->
  is_Exception e = true ->
  exists tr o,
    for_each (futures s) (report_one loads W (fatal_now W)) s = (tr, s, o) /\
    forallb is_report tr = true /\
    ((forall f msg, In (f, msg) (futures s) -> fatal_fut_done W f = false ->
                    identity loads (Body (TUPLE_MSG msg)) <> None) ->
     tr = report_events loads W (futures s) /\ o = Done tt) /\
    main loads W =
      if tasks_end W (futures s)
      then (Print (LThreads mw) :: t ++ Print (LShuttingDown e) :: Print LTraceback
              :: tr ++ closing o ++ [Exit (-1)], Some (-1))
      else (Print (LThreads mw) :: t ++ Print (LShuttingDown e) :: Print LTraceback
              :: tr ++ [Shutdown], None).
Proof.
  intros E El Hexc.
  destruct (dump_run (futures s) s) as (tr & o & Erun & Hsil & Hout & Hall).
  exists tr, o. repeat split; try assumption; try (now apply Hall).
  destruct Hout as [->|(e' & -> & He')];
    destruct (tasks_end W (futures s)) eqn:Et;
    open_main; rewrite E; cbv beta iota; rewrite El, Hexc; cbv beta iota;
    rewrite Erun; cbv beta iota; rewrite ?Et; simpl; rewrite ?Et, ?He'; simpl;
    rewrite ?Et; simpl;
    repeat (rewrite <- ?app_assoc; simpl); reflexivity.
Qed.

(** Every run is the start of the pool and the trace of the loop, followed
    by the closing events. *)
Lemma main_split :
  match ThreadPoolExecutor (cpu_count W) (threads_per_process W) with
  | Val mw =>
      exists tail,
        fst (main loads W)
        = (Print (LThreads mw) :: fst (fst (the_loop mw))) ++ tail /\
        forallb is_closing tail = true
  | Exc e => fst (main loads W) = [Print (LError e); Print LTraceback; Exit (-1)]
  end.
Proof.
  destruct (ThreadPoolExecutor (cpu_count W) (threads_per_process W))
    as [mw|e] eqn:E.
  - destruct (the_loop mw) as [[t s] [a|e|]] eqn:El; cbn [fst].
    + pose proof (loop_never_returns loads (LONG_RECORD_of W) mw (cycles W)
                    (initial W) a) as Hn.
      rewrite El in Hn. now destruct Hn.
    + destruct (is_Exception e) eqn:Hexc.
      * destruct (main_fatal mw t s e E El Hexc) as (tr & o & _ & Hsil & _ & ->).
        destruct (tasks_end W (futures s)); cbn [fst].
        -- exists (Print (LShuttingDown e) :: Print LTraceback
                     :: tr ++ closing o ++ [Exit (-1)]).
           split; [reflexivity|]. simpl.
           rewrite forallb_app, (reports_closing _ Hsil). destruct o; reflexivity.
        -- exists (Print (LShuttingDown e) :: Print LTraceback :: tr ++ [Shutdown]).
           split; [reflexivity|]. simpl.
           rewrite forallb_app, (reports_closing _ Hsil). reflexivity.
      * destruct e; try discriminate. rewrite (main_exit mw t s code E El).
        destruct (tasks_end W (futures s)); cbn [fst].
        -- exists [Shutdown; Exit code]. split; reflexivity.
        -- exists [Shutdown]. split; reflexivity.
    + rewrite (main_running mw t s E El). exists []. cbn [fst].
      now rewrite app_nil_r.
  - now rewrite (main_not_started e E).
Qed.

End WholeProgram.

(* ===================================================================== *)
(** ** Every run is lawful *)
(* ===================================================================== *)

Section Runs.

Variable loads : string -> option json.
Variable W : world.

Lemma lawful_nil mw : 0 <= mw -> lawful mw [].
Proof.
  intro H. exact (@st_lawful _ _ _ (initial_steady W mw [] H eq_refl)).
Qed.

Lemma loop_from_start mw ws :
  0 < mw ->
  let '(t, s, o) := loop loads (LONG_RECORD_of W) mw ws (initial W) in
  lawful mw (Print (LThreads mw) :: t) /\
  (forall a, o <> Done a) /\
  (o = Running -> steady mw (Print (LThreads mw) :: t) s) /\
  (forall e, o = Raised e -> print_failed e = false ->
             paired (Print (LThreads mw) :: t)).
Proof.
  intro Hmw.
  assert (H0 : steady mw [Print (LThreads mw)] (initial W))
    by (apply initial_steady; [lia | reflexivity]).
  exact (loop_lawful loads (LONG_RECORD_of W) mw ws _ _ H0).
Qed.

Lemma main_lawful : lawful (worker_count W) (fst (main loads W)).
Proof.
  unfold worker_count. pose proof (main_split loads W) as Hm.
  destruct (ThreadPoolExecutor (cpu_count W) (threads_per_process W))
    as [mw|e] eqn:E.
  - pose proof (ThreadPoolExecutor_positive _ _ _ E) as Hmw.
    pose proof (loop_from_start mw (cycles W) Hmw) as Hl.
    destruct Hm as (tail & -> & Htail).
    destruct (loop loads (LONG_RECORD_of W) mw (cycles W) (initial W))
      as [[t s] o]. destruct Hl as (Hlaw & _). cbn [fst].
    apply lawful_silent; [exact Hlaw | now apply closing_silent].
  - rewrite Hm. apply (lawful_silent 0 [] _); [apply lawful_nil; lia | reflexivity].
Qed.

(** Unless the run ended on a [print] that failed, every result retrieved
    has been followed by the deletion of its message. *)
Lemma main_paired :
  (forall what, ~ In (Print (LShuttingDown (PrintError what))) (fst (main loads W))) ->
  paired (fst (main loads W)).
Proof.
  intro Hnot.
  destruct (ThreadPoolExecutor (cpu_count W) (threads_per_process W))
    as [mw|e] eqn:E.
  - pose proof (ThreadPoolExecutor_positive _ _ _ E) as Hmw.
    pose proof (loop_from_start mw (cycles W) Hmw) as Hl.
    destruct (loop loads (LONG_RECORD_of W) mw (cycles W) (initial W))
      as [[t s] [a|e|]] eqn:El; destruct Hl as (_ & Hnever & Hst & Hp).
    + now destruct (Hnever a).
    + destruct (is_Exception e) eqn:Hexc.
      * destruct (main_fatal loads W mw t s e E El Hexc)
          as (tr & o & _ & Hsil & _ & Emain).
        assert (Hin : In (Print (LShuttingDown e)) (fst (main loads W))).
        { rewrite Emain. destruct (tasks_end W (futures s)); cbn [fst];
            right; apply in_or_app; right; now left. }
        assert (He : print_failed e = false).
        { destruct e; try reflexivity. now destruct (Hnot what). }
        specialize (Hp e eq_refl He). rewrite Emain.
        destruct (tasks_end W (futures s)); cbn [fst].
        -- change (Print (LThreads mw) :: t ++ Print (LShuttingDown e)
                     :: Print LTraceback :: tr ++ closing o ++ [Exit (-1)])
             with ((Print (LThreads mw) :: t) ++ Print (LShuttingDown e)
                     :: Print LTraceback :: tr ++ closing o ++ [Exit (-1)]).
           apply paired_silent; [exact Hp|]. simpl.
           rewrite forallb_app, (prints_silent _ (reports_are_prints _ Hsil)).
           destruct o; reflexivity.
        -- change (Print (LThreads mw) :: t ++ Print (LShuttingDown e)
                     :: Print LTraceback :: tr ++ [Shutdown])
             with ((Print (LThreads mw) :: t) ++ Print (LShuttingDown e)
                     :: Print LTraceback :: tr ++ [Shutdown]).
           apply paired_silent; [exact Hp|]. simpl.
           rewrite forallb_app, (prints_silent _ (reports_are_prints _ Hsil)).
           reflexivity.
      * destruct e; try discriminate.
        specialize (Hp _ eq_refl eq_refl).
        rewrite (main_exit loads W mw t s code E El).
        destruct (tasks_end W (futures s)); cbn [fst].
        -- change (Print (LThreads mw) :: t ++ [Shutdown; Exit code])
             with ((Print (LThreads mw) :: t) ++ [Shutdown; Exit code]).
           apply paired_silent; [exact Hp | reflexivity].
        -- change (Print (LThreads mw) :: t ++ [Shutdown])
             with ((Print (LThreads mw) :: t) ++ [Shutdown]).
           apply paired_silent; [exact Hp | reflexivity].
    + rewrite (main_running loads W mw t s E El). cbn [fst].
      exact (@st_paired _ _ _ (Hst eq_refl)).
  - rewrite (main_not_started loads W e E). intro f. reflexivity.
Qed.

Lemma firstn_middle {X} (pre : list X) x suf :
  firstn (S (List.length pre)) (pre ++ x :: suf) = pre ++ [x].
Proof.
  induction pre as [|y pre IH]; [reflexivity|].
  cbn [List.length app firstn]. cbn [List.length firstn] in IH.
  now rewrite IH.
Qed.

(** C1.  At every point of every run the registry holds at most as many
    tasks as the pool has workers: along the trace the registrations never
    outnumber the deregistrations by more than [executor._max_workers];
    every [receive_message] call and every registration of a submitted task
    happens at a point where they do so by strictly less; and after any
    number of completed cycles the [futures] dict has exactly as many
    entries as the trace says. *)
Theorem inflight_never_exceeds_workers :
  always (fun p => inflight p <= worker_count W) (fst (main loads W)) /\
  (forall pre v suf,
     fst (main loads W) = pre ++ ReceiveMessage v :: suf ->
     inflight pre < worker_count W) /\
  (forall pre f stored suf,
     fst (main loads W) = pre ++ Register f stored :: suf ->
     inflight pre < worker_count W) /\
  forall n,
    let '(t, s, o) :=
      loop loads (LONG_RECORD_of W) (worker_count W) (firstn n (cycles W))
        (initial W) in
    o = Running ->
    len (futures s) = inflight t /\ len (futures s) <= worker_count W.
Proof.
  split; [apply (@law_bound _ _ main_lawful)|]. split; [|split].
  - intros pre v suf E.
    pose proof (@law_room _ _ main_lawful (S (List.length pre))) as H.
    rewrite E, firstn_middle in H. unfold room, fetching in H.
    rewrite rev_app_distr, inflight_app in H. cbn in H. specialize (H eq_refl). lia.
  - intros pre f stored suf E.
    pose proof (@law_bound _ _ main_lawful (S (List.length pre))) as H.
    rewrite E, firstn_middle in H. cbv beta in H.
    rewrite inflight_app in H. cbn [inflight] in H. lia.
  - intro n.
    assert (H0 : steady (worker_count W) [] (initial W)).
    { apply initial_steady; [|reflexivity]. unfold worker_count.
      destruct (ThreadPoolExecutor _ _) eqn:E; [|lia].
      apply ThreadPoolExecutor_positive in E. lia. }
    pose proof (loop_lawful loads (LONG_RECORD_of W) (worker_count W)
                  (firstn n (cycles W)) _ _ H0) as Hl.
    destruct (loop _ _ _ _ _) as [[t s] o]. cbn [app] in Hl.
    destruct Hl as (_ & _ & Hst & _). intro Ho. specialize (Hst Ho).
    split; [apply (@st_size _ _ _ Hst)|].
    rewrite (@st_size _ _ _ Hst).
    apply (always_whole _ _ (@law_bound _ _ (@st_lawful _ _ _ Hst))).
Qed.

(** C2, as amended.  In every run a message is deleted at most once, at no
    point of the run has it been deleted without the result of its task
    having been retrieved first without raising, and it is deleted exactly
    as often as its entry has been popped from [futures].  Unless the run
    ended on a [print] that failed (the log then shows the error of that
    [print] as the reason for shutting down), it is deleted exactly as often
    as that result has been retrieved. *)
Theorem deleted_iff_harvested_without_error f :
  (count (is_delete_of f) (fst (main loads W)) <= 1)%nat /\
  always in_order (fst (main loads W)) /\
  count (is_delete_of f) (fst (main loads W))
    = count (is_deregister_of f) (fst (main loads W)) /\
  ((forall what,
      ~ In (Print (LShuttingDown (PrintError what))) (fst (main loads W))) ->
   count (is_delete_of f) (fst (main loads W))
     = count (is_ok_result_of f) (fst (main loads W))).
Proof.
  pose proof main_lawful as [_ _ Ho Hq H1 _].
  split; [apply H1|]. split; [exact Ho|]. split; [apply Hq|].
  intro Hnot. now apply main_paired.
Qed.



End Runs.

(* ===================================================================== *)
(** ** [LONG_RECORD] read from the environment *)
(* ===================================================================== *)

(** C10, as amended.  When [LONG_RECORD] is set in the environment the
    constant is the variable's text: the sweep check [LONG_RECORD/2] and the
    comparison [duration > LONG_RECORD] raise [TypeError], while the two
    products are defined and repeat the text ([times_extended*LONG_RECORD*2]
    and [2*LONG_RECORD] are strings).  When it is not set the constant is
    the integer [300] and all four are numbers. *)
Theorem LONG_RECORD_from_environment (W : world) :
  match assoc "LONG_RECORD" (environ W) with
  | Some text =>
      LONG_RECORD_of W = VStr text /\
      (forall now last, sweep_due (LONG_RECORD_of W) now last = Exc TypeError) /\
      (forall duration, over_threshold (LONG_RECORD_of W) duration = Exc TypeError) /\
      (forall n, new_time (LONG_RECORD_of W) n
                 = Val (VStr (repeat_string (repeat_string text (Z.to_nat n)) 2))) /\
      receive_visibility (LONG_RECORD_of W) = Val (VStr (repeat_string text 2))
  | None =>
      LONG_RECORD_of W = VInt 300 /\
      (forall now last, sweep_due (LONG_RECORD_of W) now last
                        = Val (Qgtb now (last + inject_Z 300 / inject_Z 2))) /\
      (forall duration, over_threshold (LONG_RECORD_of W) duration
                        = Val (Qgtb duration (inject_Z 300))) /\
      (forall n, new_time (LONG_RECORD_of W) n = Val (VInt (n * 300 * 2))) /\
      receive_visibility (LONG_RECORD_of W) = Val (VInt 600)
  end.
Proof.
  unfold LONG_RECORD_of, getenv.
  destruct (assoc "LONG_RECORD" (environ W)) as [text|]; repeat split.
Qed.

(* ===================================================================== *)
(** ** No run ever gets past its first lease extension *)
(* ===================================================================== *)

Lemma extends_once_quiet {A} (m : M A) : emits no_change m -> extends_once m.
Proof.
  intros H s. specialize (H s). destruct (m s) as [[t s'] o]. simpl in H.
  apply count_none in H. destruct o; lia.
Qed.

Lemma extends_once_bind {A B} (m : M A) (k : A -> M B) :
  extends_once m -> (forall a, extends_once (k a)) -> extends_once (bind m k).
Proof.
  intros Hm Hk s. rewrite bind_run. specialize (Hm s).
  destruct (m s) as [[t1 s1] [a|e|]]; auto. cbv beta iota in Hm.
  specialize (Hk a s1). destruct (k a s1) as [[t2 s2] o].
  rewrite count_app, Hm. exact Hk.
Qed.

Section OneExtension.

Variable loads : string -> option json.
Variable LONG_RECORD : value.
Variable max_workers : Z.

(** Lines 143-153: once [change_visibility] has been called, line 152
    raises. *)
Lemma sweep_one_extends_once w now f msg n :
  extends_once (sweep_one loads LONG_RECORD w now f msg n).
Proof.
  intro s.
  unfold sweep_one, orjson_loads, tuple_setitem, bind, emit, eval, get,
    may_raise, ret, raise.
  cbv beta iota.
  destruct (in_fut_done w f); cbn [negb]; cbv beta iota;
    [unfold count; simpl; lia|].
  destruct (over_threshold _ _) as [[|]|e]; cbv beta iota;
    try (unfold count; simpl; lia).
  destruct (loads _); cbv beta iota; [|unfold count; simpl; lia].
  destruct (new_time _ _); cbv beta iota; [|unfold count; simpl; lia].
  destruct (in_change w f); cbv beta iota; [unfold count; simpl; lia|].
  destruct (dict_get f (futures s)); cbv beta iota; unfold count; simpl; lia.
Qed.

Lemma sweep_extends_once w now items n :
  extends_once (sweep loads LONG_RECORD max_workers w now items n).
Proof.
  revert n. induction items as [|[f msg] items IH]; intro n; cbn [sweep].
  - apply extends_once_quiet. shape.
  - apply extends_once_bind; [apply sweep_one_extends_once | intro].
    apply extends_once_bind; [apply extends_once_quiet; shape | intro; apply IH].
Qed.

Lemma harvest_one_no_change w now f : emits no_change (harvest_one w now f).
Proof. unfold harvest_one. shape. Qed.

Lemma fetch_loop_no_change answers :
  emits no_change (fetch_loop LONG_RECORD max_workers answers).
Proof.
  induction answers as [|[answer at_] answers IH]; cbn [fetch_loop];
    unfold guarded_fetch, fetch_once; shape.
Qed.

Lemma cycle_extends_once w :
  extends_once (cycle loads LONG_RECORD max_workers w).
Proof.
  unfold cycle, harvest_and_sweep, gate_and_fetch.
  apply extends_once_bind; [|intro; apply extends_once_quiet; shape;
                                    apply fetch_loop_no_change].
  apply extends_once_bind; [apply extends_once_quiet; shape | intro s0].
  destruct (futures s0); [apply extends_once_quiet; shape|].
  apply extends_once_bind; [apply extends_once_quiet; shape | intro].
  apply extends_once_bind;
    [apply extends_once_quiet; shape; apply harvest_one_no_change | intro].
  apply extends_once_bind; [apply extends_once_quiet; shape | intro].
  apply extends_once_bind;
    [apply extends_once_quiet; shape | intros [|]; cbn [when]];
    [|apply extends_once_quiet; shape].
  repeat (apply extends_once_bind; [apply extends_once_quiet; shape | intro]).
  apply sweep_extends_once.
Qed.

Lemma loop_extends_once ws s :
  (count is_change (fst (fst (loop loads LONG_RECORD max_workers ws s))) <= 1)%nat.
Proof.
  revert s. induction ws as [|w ws IH]; intro s; cbn [loop].
  - unfold count. simpl. lia.
  - rewrite bind_run. pose proof (cycle_extends_once w s) as Hc.
    destruct (cycle loads LONG_RECORD max_workers w s) as [[t1 s1] [[]|e|]];
      cbn [fst]; try lia.
    specialize (IH s1).
    destruct (loop loads LONG_RECORD max_workers ws s1) as [[t2 s2] o].
    cbn [fst] in *. rewrite count_app. lia.
Qed.

End OneExtension.

(** In every run [change_visibility] is called at most once: the process
    does not survive its first lease extension. *)
Lemma at_most_one_extension loads W :
  (count is_change (fst (main loads W)) <= 1)%nat.
Proof.
  pose proof (main_split loads W) as Hm.
  destruct (ThreadPoolExecutor (cpu_count W) (threads_per_process W))
    as [mw|e] eqn:E.
  - destruct Hm as (tail & -> & Htail).
    pose proof (loop_extends_once loads (LONG_RECORD_of W) mw (cycles W)
                  (initial W)) as Hl.
    rewrite count_app, count_cons, (closing_no_change _ Htail). simpl. lia.
  - rewrite Hm. unfold count. simpl. lia.
Qed.

(* ===================================================================== *)
(** ** Recorded runs *)
(* ===================================================================== *)

Import Demo.

(** The throttle alone closes the gate: the pool is empty and messages are
    waiting, yet a negative decision keeps the cycle from fetching. *)
Lemma negative_decision_skips_fetch_witness :
  (in_pause (with_pause (-1 # 1) first_cycle) < 0)%Q /\
  count is_receive
    (fst (fst (cycle loads (VInt 300) 2 (with_pause (-1 # 1) first_cycle)
                 (initial one_burst)))) = 0%nat.
Proof.
  split; [reflexivity|].
  exact (proj1 (negative_decision_skips_fetch loads (VInt 300) 2
                  (with_pause (-1 # 1) first_cycle) (initial one_burst)
                  eq_refl)).
Defined.

(** The capacity gate alone closes the gate: the governor answers [0] and
    messages are waiting, yet a full pool keeps the cycle from fetching. *)
Lemma full_pool_skips_fetch_witness :
  harvest_and_sweep loads (VInt 300) 2 first_cycle full_pool
    = ([Wait], full_pool, Done tt) /\
  2 <= len (futures full_pool) /\
  cycle loads (VInt 300) 2 first_cycle full_pool
    = ([Wait; Govern 0; Sleep 1], full_pool, Done tt).
Proof.
  assert (H1 : harvest_and_sweep loads (VInt 300) 2 first_cycle full_pool
               = ([Wait], full_pool, Done tt)) by reflexivity.
  assert (H2 : 2 <= len (futures full_pool)) by (vm_compute; discriminate).
  split; [exact H1|]. split; [exact H2|].
  exact (proj2 (full_pool_skips_fetch loads (VInt 300) 2 first_cycle full_pool
                  [Wait] full_pool (Done tt) H1 H2) eq_refl).
Defined.

(** C7 as stated fails: in a single pass with two free workers the governor
    is asked once and [receive_message] is called twice. *)
Lemma one_decision_two_fetches :
  count is_govern (fst (main loads one_burst)) = 1%nat /\
  count is_receive (fst (main loads one_burst)) = 2%nat /\
  ~ (count is_receive (fst (main loads one_burst))
     <= count is_govern (fst (main loads one_burst)))%nat.
Proof.
  assert (Hg : count is_govern (fst (main loads one_burst)) = 1%nat) by reflexivity.
  assert (Hr : count is_receive (fst (main loads one_burst)) = 2%nat) by reflexivity.
  rewrite Hg, Hr. repeat split. lia.
Qed.

(** C2 as stated fails: the second task completed without raising (it is
    among the finished futures and its result is a value), the process has
    exited, and its message was never deleted. *)
Lemma completed_task_never_deleted :
  In 1%nat (in_done failure_then_success) /\
  in_result failure_then_success 1%nat = Val None /\
  snd (main loads lost_acknowledgement) = Some (-1) /\
  count (is_delete_of 1%nat) (fst (main loads lost_acknowledgement)) = 0%nat.
Proof. repeat split. simpl. auto. Qed.

(** A result that is retrieved and whose message is never deleted: the
    [print] of line 120 fails, and the run ends on that error. *)
Example printed_result_never_deleted :
  count (is_ok_result_of 0%nat) (fst (main loads refused_print)) = 1%nat /\
  count (is_delete_of 0%nat) (fst (main loads refused_print)) = 0%nat /\
  In (Print (LShuttingDown (PrintError "Broken pipe")))
     (fst (main loads refused_print)) /\
  snd (main loads refused_print) = Some (-1).
Proof. repeat split. vm_compute. auto 20. Qed.



(** C10 as stated fails for the new window: with [LONG_RECORD=300] exported,
    [times_extended*LONG_RECORD*2] is the string ["300300"], not an error. *)
Lemma window_is_a_repeated_string :
  LONG_RECORD_of exported_threshold = VStr "300" /\
  new_time (LONG_RECORD_of exported_threshold) 1 = Val (VStr "300300") /\
  forall e, new_time (LONG_RECORD_of exported_threshold) 1 <> Exc e.
Proof. repeat split. intros e H. discriminate H. Qed.

(** C3 on the code.  Two tasks are running and over the threshold at the
    sweep of time [330]; the sweep asks for one extension, for the first
    task, then line 152 raises [TypeError] and the process exits. *)
Theorem sweep_stops_after_first_extension :
  over_threshold (LONG_RECORD_of two_slow_tasks) (330 - 1) = Val true /\
  over_threshold (LONG_RECORD_of two_slow_tasks) (330 - 2) = Val true /\
  extensions (fst (main loads two_slow_tasks)) = [(0%nat, VInt 600)] /\
  In (Print (LShuttingDown TypeError)) (fst (main loads two_slow_tasks)) /\
  snd (main loads two_slow_tasks) = Some (-1).
Proof. repeat split. vm_compute. auto 20. Qed.

(** C4 on the code.  One task is over the threshold at time [330] and would
    still be at time [660]; the first sweep asks for [600] seconds, line 152
    raises [TypeError] with the stored extension count still [0], and the
    process exits before any second sweep: no window of [1200] is ever
    requested. *)
Theorem extension_count_never_stored :
  exists t s,
    loop loads (LONG_RECORD_of one_slow_task) 1 (cycles one_slow_task)
      (initial one_slow_task) = (t, s, Raised TypeError) /\
    map (fun item => TUPLE_EXTENDED (snd item)) (futures s) = [0] /\
    extensions (fst (main loads one_slow_task)) = [(0%nat, VInt 600)] /\
    snd (main loads one_slow_task) = Some (-1).
Proof. eexists _, _. split; [vm_compute; reflexivity|]. repeat split. Qed.

(** C9 on the code.  Two slow tasks are received with a window of [600]
    seconds; the sweep runs at times [200] and [360], less than half that
    window apart; the second sweep extends the first task, raises at line
    152, and the process shuts down with the second task still running and
    no extension ever requested for it. *)
Theorem slow_task_left_without_extension :
  In (ReceiveMessage (VInt 600)) (fst (main loads frequent_sweeps)) /\
  count is_stats (fst (main loads frequent_sweeps)) = 2%nat /\
  extensions (fst (main loads frequent_sweeps)) = [(0%nat, VInt 600)] /\
  fatal_fut_done frequent_sweeps 1%nat = false /\
  count (is_change_of 1%nat) (fst (main loads frequent_sweeps)) = 0%nat /\
  snd (main loads frequent_sweeps) = Some (-1).
Proof. repeat split. vm_compute. auto. Qed.

(** The scenario of a pool of two with three messages queued: the first two
    are submitted at once, the third only after the first task has been
    harvested and its message deleted. *)
Example third_message_waits_for_a_slot :
  filter (fun e => negb (silent e) || is_govern e) (fst (main loads three_messages))
  = [ Govern 0;
      ReceiveMessage (VInt 600);
      Register 0%nat {| TUPLE_MSG := msg "h0" "r0"; TUPLE_STARTTIME := 1;
                        TUPLE_EXTENDED := 0 |};
      ReceiveMessage (VInt 600);
      Register 1%nat {| TUPLE_MSG := msg "h1" "r1"; TUPLE_STARTTIME := 2;
                        TUPLE_EXTENDED := 0 |};
      Result 0%nat (Val None); Deregister 0%nat; DeleteMessage 0%nat "h0";
      Govern 0;
      ReceiveMessage (VInt 600);
      Register 2%nat {| TUPLE_MSG := msg "h2" "r2"; TUPLE_STARTTIME := 6;
                        TUPLE_EXTENDED := 0 |} ].
Proof. reflexivity. Qed.

(* ===================================================================== *)
(** ** The dead-letter queue's URL *)
(* ===================================================================== *)

Lemma split_colon_length s : List.length (split_colon s) = S (colons s).
Proof.
  induction s as [|c s IH]; [reflexivity|]. cbn [split_colon colons].
  destruct (Ascii.eqb c colon); cbn [List.length]; [now rewrite IH|].
  destruct (split_colon s); cbn [List.length] in *; [discriminate | exact IH].
Qed.

Lemma split_colon_free s : colon_free s = true -> split_colon s = [s].
Proof.
  induction s as [|c s IH]; [reflexivity|]. cbn [colon_free split_colon].
  destruct (Ascii.eqb c colon); [discriminate|]. simpl. intro H.
  now rewrite (IH H).
Qed.

Lemma split_colon_append field rest :
  colon_free field = true ->
  split_colon (String.append field (String colon rest)) = field :: split_colon rest.
Proof.
  induction field as [|c field IH]; cbn [colon_free String.append split_colon].
  - now rewrite Ascii.eqb_refl.
  - destruct (Ascii.eqb c colon); [discriminate|]. simpl. intro H.
    now rewrite (IH H).
Qed.

(** Splitting undoes joining, for fields without colons. *)
Lemma split_join_colon fields :
  fields <> [] -> forallb colon_free fields = true ->
  split_colon (join_colon fields) = fields.
Proof.
  induction fields as [|field rest IH]; [congruence|]. intros _ H.
  cbn [forallb] in H. apply andb_true_iff in H as [Hf Hr].
  destruct rest as [|next rest].
  - now apply split_colon_free.
  - change (join_colon (field :: next :: rest))
      with (String.append field (String colon (join_colon (next :: rest)))).
    rewrite split_colon_append by assumption.
    f_equal. apply IH; [discriminate | assumption].
Qed.

(** X1.  For an ARN made of at least six colon-separated fields, none of
    which contains a colon itself, the URL is that of the queue named by the
    sixth field in the account named by the fifth; the first four fields and
    any field after the sixth do not matter. *)
Theorem queue_arn_to_url_of_fields a b c d account name more :
  forallb colon_free (a :: b :: c :: d :: account :: name :: more) = true ->
  queue_arn_to_url (join_colon (a :: b :: c :: d :: account :: name :: more))
  = Some (String.append "https://queue.amazonaws.com/"
            (String.append account (String.append "/" name))).
Proof.
  intro H. unfold queue_arn_to_url.
  rewrite split_join_colon by (assumption || discriminate). reflexivity.
Qed.

(** The ARN and the URL of the comment at lines 29-30. *)
Lemma queue_arn_to_url_of_fields_witness :
  forallb colon_free
    ["arn"; "aws"; "sqs"; "us-east-1"; "666853904750"; "BrianSQS_DeadLetter"] = true /\
  queue_arn_to_url "arn:aws:sqs:us-east-1:666853904750:BrianSQS_DeadLetter"
  = Some "https://queue.amazonaws.com/666853904750/BrianSQS_DeadLetter".
Proof.
  split; [reflexivity|].
  exact (queue_arn_to_url_of_fields "arn" "aws" "sqs" "us-east-1" "666853904750"
           "BrianSQS_DeadLetter" [] eq_refl).
Defined.

(** X2.  [queue_arn_to_url] raises [IndexError] exactly on the texts with
    fewer than five colons. *)
Theorem queue_arn_to_url_index_error arn :
  queue_arn_to_url arn = None <-> (colons arn < 5)%nat.
Proof.
  unfold queue_arn_to_url. pose proof (split_colon_length arn) as H.
  destruct (split_colon arn) as [|f0 [|f1 [|f2 [|f3 [|f4 [|f5 fs]]]]]];
    cbn [List.length nth_error] in *; split; intro E;
    try reflexivity; try discriminate; lia.
Qed.

(* ===================================================================== *)
(** ** The task a worker runs *)
(* ===================================================================== *)

Lemma subscript_raises_Exception record key e :
  subscript record key = Exc e -> is_Exception e = true.
Proof.
  destruct record as [items|]; simpl.
  - destruct (assoc key items); intro H; inversion H. reflexivity.
  - intro H. inversion H. reflexivity.
Qed.

(** X4.  A message whose body does not decode to a record identity never
    reaches the engine: the task prints the error with the message once and
    raises it. *)
Theorem process_msg_rejects_undecodable loads g2 msg info :
  identity loads msg = None ->
  exists e,
    process_msg loads g2 msg info = ([Stderr e msg], Exc e) /\
    is_Exception e = true.
Proof.
  unfold identity, process_msg, process_msg_body.
  destruct (loads msg) as [record|]; [|intros _; exists JSONDecodeError; auto].
  destruct (subscript record "DATA_SOURCE") as [ds|e1] eqn:E1.
  - destruct (subscript record "RECORD_ID") as [rid|e2] eqn:E2; [discriminate|].
    intros _. exists e2. rewrite (subscript_raises_Exception _ _ _ E2). auto.
  - intros _. exists e1. rewrite (subscript_raises_Exception _ _ _ E1). auto.
Qed.

Lemma process_msg_rejects_undecodable_witness :
  identity Demo.loads "garbage" = None /\
  process_msg Demo.loads Samples.accepting "garbage" true
  = ([Stderr JSONDecodeError "garbage"], Exc JSONDecodeError).
Proof.
  split; [reflexivity|].
  destruct (process_msg_rejects_undecodable Demo.loads Samples.accepting
              "garbage" true eq_refl) as (e & H & _).
  rewrite H. vm_compute in H. inversion H. reflexivity.
Defined.

(** Without [info] the worker calls [addRecord], which returns nothing. *)
Lemma process_msg_without_info loads g2 msg payload :
  snd (process_msg loads g2 msg false) = Val payload -> payload = None.
Proof.
  unfold process_msg, process_msg_body.
  destruct (loads msg) as [record|]; [|discriminate].
  destruct (subscript record "DATA_SOURCE") as [ds|e1] eqn:E1;
    [|rewrite (subscript_raises_Exception _ _ _ E1); discriminate].
  destruct (subscript record "RECORD_ID") as [rid|e2] eqn:E2;
    [|rewrite (subscript_raises_Exception _ _ _ E2); discriminate].
  destruct (addRecord g2 ds rid msg) as [e|].
  - destruct (is_Exception e); discriminate.
  - simpl. intro H. now injection H.
Qed.

(** X5.  A task calls the engine at most once, and what it prints follows
    from how it ends: nothing when it returns, and when it raises an
    [Exception] that one error with the message, last.  Without [info] it
    never returns a payload. *)
Theorem process_msg_prints_what_it_raises loads g2 msg info :
  let '(events, result) := process_msg loads g2 msg info in
  (List.length (filter (fun e => negb (is_stderr e)) events) <= 1)%nat /\
  match result with
  | Val payload =>
      filter is_stderr events = [] /\ (info = false -> payload = None)
  | Exc e =>
      is_Exception e = true ->
      exists calls, events = calls ++ [Stderr e msg] /\ filter is_stderr calls = []
  end.
Proof.
  unfold process_msg, process_msg_body.
  destruct (loads msg) as [record|]; [|split; [simpl; lia | intros _; now exists []]].
  destruct (subscript record "DATA_SOURCE") as [ds|e1] eqn:E1;
    [|rewrite (subscript_raises_Exception _ _ _ E1);
      split; [simpl; lia | intros _; now exists []]].
  destruct (subscript record "RECORD_ID") as [rid|e2] eqn:E2;
    [|rewrite (subscript_raises_Exception _ _ _ E2);
      split; [simpl; lia | intros _; now exists []]].
  destruct info.
  - destruct (addRecordWithInfo g2 ds rid msg) as [response|e].
    + split; [simpl; lia | split; [reflexivity | discriminate]].
    + destruct (is_Exception e) eqn:He; (split; [simpl; lia|]);
        [intros _; now eexists [_] | intro X; congruence].
  - destruct (addRecord g2 ds rid msg) as [e|].
    + destruct (is_Exception e) eqn:He; (split; [simpl; lia|]);
        [intros _; now eexists [_] | intro X; congruence].
    + split; [simpl; lia | split; reflexivity].
Qed.

(** A body that is not JSON, submitted with [info]. *)
Lemma process_msg_prints_what_it_raises_witness :
  let '(events, result) :=
    process_msg Demo.loads Samples.accepting "garbage" true in
  (List.length (filter (fun e => negb (is_stderr e)) events) <= 1)%nat /\
  match result with
  | Val payload =>
      filter is_stderr events = [] /\ (true = false -> payload = None)
  | Exc e =>
      is_Exception e = true ->
      exists calls,
        events = calls ++ [Stderr e "garbage"] /\ filter is_stderr calls = []
  end.
Proof.
  exact (process_msg_prints_what_it_raises Demo.loads Samples.accepting
           "garbage" true).
Defined.

(** X6.  When tasks run without [info], harvesting one prints no result
    line, whatever the engine did. *)
Theorem harvest_without_info_prints_no_result loads g2 body w now f s :
  in_result w f = snd (process_msg loads g2 body false) ->
  count is_result_line (fst (fst (harvest_one w now f s))) = 0%nat.
Proof.
  intro H.
  pose proof (process_msg_without_info loads g2 body) as P.
  destruct (process_msg loads g2 body false) as [events result]. simpl in H, P.
  unfold harvest_one, bind, emit, eval, get, modify,
    may_raise, when, ret, raise. cbv beta iota. rewrite H.
  destruct result as [payload|e]; cbv beta iota; [|reflexivity].
  rewrite (P payload eq_refl).
  destruct (dict_pop f (futures s)) as [[v rest]|e]; cbv beta iota; [|reflexivity].
  destruct (in_delete w f); cbv beta iota; [reflexivity|].
  destruct (_ =? 0); reflexivity.
Qed.

Lemma harvest_without_info_prints_no_result_witness :
  in_result (Demo.quiet 5) 0%nat
    = snd (process_msg Demo.loads Samples.accepting "r0" false) /\
  count is_result_line
    (fst (fst (harvest_one (Demo.quiet 5) 5 0%nat Demo.full_pool))) = 0%nat.
Proof.
  split; [reflexivity|].
  exact (harvest_without_info_prints_no_result Demo.loads Samples.accepting "r0"
           (Demo.quiet 5) 5 0%nat Demo.full_pool eq_refl).
Defined.

(* ===================================================================== *)
(** ** Parts of the state a computation leaves alone *)
(* ===================================================================== *)

Section Preserves.

Context {X : Type} (g : state -> X).

Lemma preserves_ret {A} (a : A) : preserves g (ret a).
Proof. intro s. reflexivity. Qed.

Lemma preserves_raise {A} e : preserves g (@raise A e).
Proof. intro s. reflexivity. Qed.

Lemma preserves_get : preserves g get.
Proof. intro s. reflexivity. Qed.

Lemma preserves_emit e : preserves g (emit e).
Proof. intro s. reflexivity. Qed.

Lemma preserves_eval {A} (r : res A) : preserves g (eval r).
Proof. destruct r; intro s; reflexivity. Qed.

Lemma preserves_may_raise o : preserves g (may_raise o).
Proof. destruct o; intro s; reflexivity. Qed.

Lemma preserves_modify f : (forall s, g (f s) = g s) -> preserves g (modify f).
Proof. intros H s. apply H. Qed.

Lemma preserves_bind {A B} (m : M A) (k : A -> M B) :
  preserves g m -> (forall a, preserves g (k a)) -> preserves g (bind m k).
Proof.
  intros Hm Hk s. rewrite bind_run. specialize (Hm s).
  destruct (m s) as [[t1 s1] [a|e|]]; simpl in *; auto.
  specialize (Hk a s1). destruct (k a s1) as [[t2 s2] r]; simpl in *. congruence.
Qed.

Lemma preserves_when b m : preserves g m -> preserves g (when b m).
Proof. destruct b; simpl; auto using preserves_ret. Qed.

Lemma preserves_for_each {Y} (xs : list Y) body :
  (forall x, preserves g (body x)) -> preserves g (for_each xs body).
Proof.
  intro H. induction xs as [|x xs IH]; simpl.
  - apply preserves_ret.
  - apply preserves_bind; auto.
Qed.

Lemma preserves_try_except {A} (m : M A) h :
  preserves g m -> (forall e, preserves g (h e)) -> preserves g (try_except m h).
Proof.
  intros Hm Hh s. unfold try_except. specialize (Hm s).
  destruct (m s) as [[t1 s1] [a|e|]]; simpl in *; auto.
  destruct (is_Exception e); simpl; auto.
  specialize (Hh e s1). destruct (h e s1) as [[t2 s2] r]; simpl in *. congruence.
Qed.

End Preserves.

#[export] Hint Resolve preserves_ret preserves_raise preserves_get preserves_emit
  preserves_eval preserves_may_raise : shape.

Ltac keep_step :=
  match goal with
  | |- preserves _ (bind _ _) => apply preserves_bind; [ | intro ]
  | |- preserves _ (try_except _ _) => apply preserves_try_except; [ | intro ]
  | |- preserves _ (modify _) => apply preserves_modify; intro; reflexivity
  | |- preserves _ (for_each _ _) => apply preserves_for_each; intro
  | |- preserves _ (when _ _) => apply preserves_when
  | |- preserves _ (match ?x with _ => _ end) => destruct x
  | |- preserves _ (let '(_, _) := ?x in _) => destruct x
  | |- _ => solve [ auto with shape ]
  end.
Ltac keep := repeat keep_step.

Section LoopKeeps.

Variable loads : string -> option json.
Variable LONG_RECORD : value.
Variable max_workers : Z.

Lemma orjson_loads_preserves {X} (g : state -> X) body :
  preserves g (orjson_loads loads body).
Proof. unfold orjson_loads. keep. Qed.

Lemma sweep_one_preserves {X} (g : state -> X) w now f msg n :
  preserves g (sweep_one loads LONG_RECORD w now f msg n).
Proof. unfold sweep_one. keep. apply orjson_loads_preserves. Qed.

Lemma sweep_preserves {X} (g : state -> X) w now items n :
  preserves g (sweep loads LONG_RECORD max_workers w now items n).
Proof.
  revert n. induction items as [|[f msg] items IH]; intro n; cbn [sweep].
  - keep.
  - apply preserves_bind; [apply sweep_one_preserves | intro]. keep.
Qed.

Lemma harvest_one_keeps_logCheckTime w now f :
  preserves logCheckTime (harvest_one w now f).
Proof. unfold harvest_one. keep. Qed.

Lemma harvest_one_keeps_next_future w now f :
  preserves next_future (harvest_one w now f).
Proof. unfold harvest_one. keep. Qed.

Lemma fetch_loop_keeps {X} (g : state -> X) answers :
  (forall n s, g (set_next_future n s) = g s) ->
  (forall d s, g (set_futures d s) = g s) ->
  preserves g (fetch_loop LONG_RECORD max_workers answers).
Proof.
  intros Hn Hd.
  assert (Hone : forall answer at_,
             preserves g (guarded_fetch LONG_RECORD answer at_)).
  { intros answer at_. unfold guarded_fetch, fetch_once.
    apply preserves_try_except; [|intro; keep].
    apply preserves_bind; [keep | intro].
    apply preserves_bind; [keep | intro].
    destruct answer as [e|[|this_msg more]]; [keep | keep |].
    apply preserves_bind; [keep | intro].
    apply preserves_bind; [keep | intro].
    apply preserves_bind; [apply preserves_modify; intro; apply Hn | intro].
    apply preserves_bind; [apply preserves_modify; intro; apply Hd | intro].
    keep. }
  induction answers as [|[answer at_] answers IH]; cbn [fetch_loop].
  - apply preserves_bind; [keep | intro s0]. destruct (_ <? _); [|keep].
    apply preserves_bind; [apply Hone | intro; keep].
  - apply preserves_bind; [keep | intro s0]. destruct (_ <? _); [|keep].
    apply preserves_bind; [apply Hone | intros [|]; [apply IH | keep]].
Qed.

Lemma gate_and_fetch_keeps {X} (g : state -> X) w :
  (forall n s, g (set_next_future n s) = g s) ->
  (forall d s, g (set_futures d s) = g s) ->
  preserves g (gate_and_fetch LONG_RECORD max_workers w).
Proof.
  intros Hn Hd. unfold gate_and_fetch.
  apply preserves_bind; [keep | intro]. destruct (Qltb _ _); [keep|].
  apply preserves_bind; [keep | intro s0]. destruct (_ <=? _); [keep|].
  apply preserves_bind; [keep | intro]. now apply fetch_loop_keeps.
Qed.

End LoopKeeps.

(* ===================================================================== *)
(** ** Fetching *)
(* ===================================================================== *)

Lemma bind_get {B} (k : state -> M B) s : bind get k s = k s s.
Proof.
  unfold bind, get. destruct (k s s) as [[t2 s2] r]. reflexivity.
Qed.

Lemma receive_visibility_defined LONG_RECORD :
  exists v, receive_visibility LONG_RECORD = Val v.
Proof. destruct LONG_RECORD; eexists; reflexivity. Qed.

Lemma Qltb_false x y : (y <= x)%Q -> Qltb x y = false.
Proof. intro H. unfold Qltb. apply Qle_bool_iff in H. now rewrite H. Qed.

Section Fetching.

Variable loads : string -> option json.
Variable LONG_RECORD : value.
Variable max_workers : Z.

(** X7.  An idle pass: with nothing registered, a governor that does not
    hold the loop back and an empty queue, the loop neither waits for
    futures nor sweeps; it asks the governor, sleeps as long as the governor
    says, polls the queue once, sleeps a tenth of a second and leaves every
    variable as it was. *)
Theorem idle_cycle w s v :
  futures s = [] ->
  0 < max_workers ->
  (0 <= in_pause w)%Q ->
  match in_fetch w with [] => True | (answer, _) :: _ => answer = RecvResp [] end ->
  receive_visibility LONG_RECORD = Val v ->
  cycle loads LONG_RECORD max_workers w s
  = (Govern (in_pause w)
       :: (if Qgtb (in_pause w) 0 then [Sleep (in_pause w)] else [])
       ++ [ReceiveMessage v; Sleep (1 # 10)],
     s, Done tt).
Proof.
  intros Hempty Hmw Hp Hq Hv.
  unfold cycle, harvest_and_sweep, gate_and_fetch, bind, emit, get, when, ret.
  cbv beta iota. rewrite Hempty, (Qltb_false _ _ Hp). cbv beta iota.
  rewrite Hempty. change (len []) with 0.
  destruct (Z.leb_spec max_workers 0); [lia|].
  assert (Hf : fetch_loop LONG_RECORD max_workers (in_fetch w) s
               = ([ReceiveMessage v; Sleep (1 # 10)], s, Done tt)).
  { destruct (in_fetch w) as [|[answer at_] rest]; [|subst answer];
      cbn [fetch_loop];
      unfold guarded_fetch, try_except, fetch_once, bind, emit, eval, get, when,
        ret, raise;
      cbv beta iota; rewrite Hempty; change (len []) with 0;
      (destruct (Z.ltb_spec 0 max_workers); [|lia]);
      rewrite Hv; cbv beta iota; rewrite Hempty; reflexivity. }
  destruct (Qgtb (in_pause w) 0); cbv beta iota; rewrite Hf; reflexivity.
Qed.

(** What one guarded pass through the body of the fetch loop does. *)
Lemma guarded_fetch_cases answer at_ s :
  (forall f, In f (keys (futures s)) -> (f < next_future s)%nat) ->
  let '(t, s', o) := guarded_fetch LONG_RECORD answer at_ s in
  count is_receive t = 1%nat /\
  match o with
  | Done true =>
      count is_register t = 1%nat /\
      len (futures s') = len (futures s) + 1 /\
      (forall f, In f (keys (futures s')) -> (f < next_future s')%nat)
  | _ => count is_register t = 0%nat /\ s' = s
  end.
Proof.
  intro Hfresh.
  destruct (receive_visibility_defined LONG_RECORD) as [v Hv].
  unfold guarded_fetch, try_except, fetch_once, bind, emit, eval, get, modify,
    when, ret, raise.
  cbv beta iota. rewrite Hv. cbv beta iota.
  destruct answer as [e|[|this_msg more]]; cbv beta iota.
  - destruct (is_Exception e); cbv beta iota; repeat split.
  - destruct (len (futures s) =? 0); cbv beta iota; repeat split.
  - assert (Hnew : ~ In (next_future s) (keys (futures s))).
    { intro H. specialize (Hfresh _ H). lia. }
    simpl. rewrite (dict_set_fresh _ _ _ Hnew). repeat split.
    + unfold len. rewrite length_app. simpl. lia.
    + intros f Hf. unfold keys in Hf. rewrite map_app in Hf.
      apply in_app_or in Hf as [Hf|[<-|[]]]; [specialize (Hfresh f Hf)|];
        simpl; lia.
Qed.

(** X8.  The fetch loop never polls the queue more often than there are
    free worker slots when it starts, and the registry grows by exactly the
    number of tasks it registers. *)
Theorem fetch_loop_within_free_slots answers s :
  (forall f, In f (keys (futures s)) -> (f < next_future s)%nat) ->
  let '(t, s', _) := fetch_loop LONG_RECORD max_workers answers s in
  (count is_receive t <= Z.to_nat (max_workers - len (futures s)))%nat /\
  len (futures s') = len (futures s) + Z.of_nat (count is_register t).
Proof.
  revert s.
  assert (Hlast : forall answer at_ s,
    (forall f, In f (keys (futures s)) -> (f < next_future s)%nat) ->
    len (futures s) < max_workers ->
    forall k : bool -> M unit,
      (forall s1, len (futures s1) = len (futures s) + 1 ->
         (forall f, In f (keys (futures s1)) -> (f < next_future s1)%nat) ->
         let '(t, s', _) := k true s1 in
         (count is_receive t <= Z.to_nat (max_workers - len (futures s1)))%nat /\
         len (futures s') = len (futures s1) + Z.of_nat (count is_register t)) ->
      (forall s1, k false s1 = ([], s1, Done tt)) ->
      let '(t, s', _) := bind (guarded_fetch LONG_RECORD answer at_) k s in
      (count is_receive t <= Z.to_nat (max_workers - len (futures s)))%nat /\
      len (futures s') = len (futures s) + Z.of_nat (count is_register t)).
  { intros answer at_ s Hfresh Hroom k Htrue Hfalse. rewrite bind_run.
    pose proof (guarded_fetch_cases answer at_ s Hfresh) as Hc.
    destruct (guarded_fetch LONG_RECORD answer at_ s) as [[t1 s1] [[|]|e|]];
      destruct Hc as [Hr Hc].
    - destruct Hc as (Hg & Hlen & Hfresh1). specialize (Htrue s1 Hlen Hfresh1).
      destruct (k true s1) as [[t2 s2] o2]. rewrite !count_app, Hr, Hg.
      destruct Htrue as [H1 H2]. split; lia.
    - destruct Hc as [Hg ->]. rewrite Hfalse, app_nil_r, Hr, Hg. split; lia.
    - destruct Hc as [Hg ->]. rewrite Hr, Hg. split; lia.
    - destruct Hc as [Hg ->]. rewrite Hr, Hg. split; lia. }
  induction answers as [|[answer at_] answers IH]; intros s Hfresh;
    cbn [fetch_loop]; rewrite bind_get;
    destruct (Z.ltb_spec (len (futures s)) max_workers) as [Hroom|Hfull];
    try (unfold count; simpl; split; lia).
  - apply (Hlast (RecvResp []) 0%Q s Hfresh Hroom (fun _ => ret tt)).
    + intros s1 _ _. unfold count. simpl. split; lia.
    + reflexivity.
  - apply (Hlast answer at_ s Hfresh Hroom
             (fun again : bool =>
                if again then fetch_loop LONG_RECORD max_workers answers else ret tt)).
    + intros s1 _ Hfresh1. apply IH. exact Hfresh1.
    + reflexivity.
Qed.

(** Storing a task makes the registry grow by one entry at most. *)
Lemma dict_set_length f v d : len (dict_set f v d) <= len d + 1.
Proof.
  unfold len. induction d as [|[k x] d IH]; simpl; [lia|].
  destruct (Nat.eqb k f); simpl in *; lia.
Qed.

(** The fetch loop up to a poll that raises, the polls before it having
    each brought a message while the pool had room. *)
Lemma fetch_loop_raising oks e at_ rest s v :
  receive_visibility LONG_RECORD = Val v ->
  forallb brings_message oks = true ->
  len (futures s) + Z.of_nat (List.length oks) < max_workers ->
  is_Exception e = true ->
  exists pre,
    fetch_loop LONG_RECORD max_workers (oks ++ (RecvRaise e, at_) :: rest) s
    = (pre ++ [ReceiveMessage v; Print (LFetchError e)],
       snd (fst (fetch_loop LONG_RECORD max_workers oks s)), Raised e) /\
    forallb is_fetch_step pre = true /\
    count is_receive pre = List.length oks /\
    count is_register pre = List.length oks.
Proof.
  intros Hv Hoks Hroom He. revert s Hroom.
  induction oks as [|[answer a] oks IH]; intros s Hroom; cbn [app fetch_loop];
    rewrite !bind_get;
    (destruct (Z.ltb_spec (len (futures s)) max_workers) as [_|Hfull];
     [|cbn [List.length] in Hroom; lia]).
  - exists []. split; [|repeat split].
    unfold guarded_fetch, try_except, fetch_once, bind, emit, eval, get, when,
      ret, raise.
    cbv beta iota. rewrite Hv. cbv beta iota. rewrite He.
    destruct (len (futures s) =? 0); reflexivity.
  - cbn [forallb] in Hoks. apply andb_true_iff in Hoks as [Hmsg Hoks].
    destruct answer as [e0|[|this_msg more]]; try discriminate Hmsg.
    rewrite !bind_run.
    set (stored := {| TUPLE_MSG := this_msg; TUPLE_STARTTIME := a;
                      TUPLE_EXTENDED := 0 |}).
    set (s1 := set_futures (dict_set (next_future s) stored (futures s))
                 (set_next_future (S (next_future s)) s)).
    assert (Eg : guarded_fetch LONG_RECORD (RecvResp (this_msg :: more)) a s
                 = ([ReceiveMessage v; Submit (next_future s) (Body this_msg);
                     Register (next_future s) stored], s1, Done true)).
    { unfold guarded_fetch, try_except, fetch_once, bind, emit, eval, get,
        modify, ret.
      cbv beta iota. rewrite Hv. reflexivity. }
    rewrite Eg. cbv beta iota.
    destruct (IH Hoks s1) as (pre & Erun & Hpre & Hrecv & Hreg).
    { pose proof (dict_set_length (next_future s) stored (futures s)).
      cbn [List.length] in Hroom. subst s1. cbn [futures set_futures]. lia. }
    rewrite Erun.
    destruct (fetch_loop LONG_RECORD max_workers oks s1) as [[t2 s2] o2].
    eexists (_ :: _ :: _ :: pre). split; [reflexivity|].
    split; [exact Hpre|].
    cbn [List.length]. rewrite !count_cons. cbn [is_receive is_register].
    split; lia.
Qed.

(** X9.  When a call of [receive_message] raises an [Exception], be it the
    first of the pass or a later one, after polls that each brought a
    message: every message polled before has been submitted and registered
    (the fetch loop has done nothing else), the error is printed and raised
    again, nothing is submitted after it, and the loop's variables are as
    those submissions left them: the pass ends there. *)
Theorem fetch_error_is_printed_and_fatal w s t1 s1 v e at_ oks rest :
  harvest_and_sweep loads LONG_RECORD max_workers w s = (t1, s1, Done tt) ->
  (0 <= in_pause w)%Q ->
  in_fetch w = oks ++ (RecvRaise e, at_) :: rest ->
  forallb brings_message oks = true ->
  len (futures s1) + Z.of_nat (List.length oks) < max_workers ->
  is_Exception e = true ->
  receive_visibility LONG_RECORD = Val v ->
  exists pre,
    cycle loads LONG_RECORD max_workers w s
    = (t1 ++ Govern (in_pause w)
          :: (if Qgtb (in_pause w) 0 then [Sleep (in_pause w)] else [])
          ++ pre ++ [ReceiveMessage v; Print (LFetchError e)],
       snd (fst (fetch_loop LONG_RECORD max_workers oks s1)), Raised e) /\
    forallb is_fetch_step pre = true /\
    count is_receive pre = List.length oks /\
    count is_register pre = List.length oks.
Proof.
  intros Hh Hp Hq Hoks Hroom He Hv.
  destruct (fetch_loop_raising oks e at_ rest s1 v Hv Hoks Hroom He)
    as (pre & Erun & Hpre & Hrecv & Hreg).
  exists pre. split; [|repeat split; assumption].
  unfold cycle. rewrite bind_run, Hh.
  unfold gate_and_fetch, bind, emit, get, when, ret. cbv beta iota.
  rewrite (Qltb_false _ _ Hp). cbv beta iota.
  destruct (Z.leb_spec max_workers (len (futures s1))); [lia|].
  rewrite Hq.
  destruct (Qgtb (in_pause w) 0); cbv beta iota; rewrite Erun; reflexivity.
Qed.

End Fetching.

(** An idle pass of the two-worker pool at time [10]. *)
Lemma idle_cycle_witness :
  cycle Demo.loads (VInt 300) 2 (Demo.quiet 10) (initial Demo.one_burst)
  = ([Govern 0; ReceiveMessage (VInt 600); Sleep (1 # 10)],
     initial Demo.one_burst, Done tt).
Proof.
  exact (idle_cycle Demo.loads (VInt 300) 2 (Demo.quiet 10)
           (initial Demo.one_burst) (VInt 600)
           eq_refl eq_refl (Qle_refl 0) I eq_refl).
Defined.

(** Three messages waiting and two free slots: two polls, two tasks. *)
Lemma fetch_loop_within_free_slots_witness :
  let '(t, s', _) :=
    fetch_loop (VInt 300) 2 (in_fetch Demo.first_cycle) (initial Demo.one_burst) in
  (count is_receive t
     <= Z.to_nat (2 - len (futures (initial Demo.one_burst))))%nat /\
  len (futures s')
    = len (futures (initial Demo.one_burst)) + Z.of_nat (count is_register t).
Proof.
  exact (fetch_loop_within_free_slots (VInt 300) 2 (in_fetch Demo.first_cycle)
           (initial Demo.one_burst) (fun f H => match H with end)).
Defined.

(** The queue client answers the first poll of the program and refuses the
    second: one task is registered, and the pass ends on the error. *)
Lemma fetch_error_is_printed_and_fatal_witness :
  exists pre,
    cycle Demo.loads (VInt 300) 2 Scenes.failing_fetch (initial Demo.one_burst)
    = (Govern 0 :: pre ++ [ReceiveMessage (VInt 600);
                             Print (LFetchError (ClientError "throttled"))],
       snd (fst (fetch_loop (VInt 300) 2 [(RecvResp [Demo.msg "h0" "r0"], 1%Q)]
                   (initial Demo.one_burst))),
       Raised (ClientError "throttled")) /\
    forallb is_fetch_step pre = true /\
    count is_receive pre = 1%nat /\
    count is_register pre = 1%nat.
Proof.
  exact (fetch_error_is_printed_and_fatal Demo.loads (VInt 300) 2
           Scenes.failing_fetch (initial Demo.one_burst) []
           (initial Demo.one_burst) (VInt 600) (ClientError "throttled") 1
           [(RecvResp [Demo.msg "h0" "r0"], 1%Q)] []
           eq_refl (Qle_refl 0) eq_refl eq_refl eq_refl eq_refl eq_refl).
Defined.

(* ===================================================================== *)
(** ** Harvesting and sweeping, case by case *)
(* ===================================================================== *)

Lemma dict_get_present f d :
  In f (keys d) -> exists v, dict_get f d = Val v.
Proof.
  induction d as [|[k v] d IH]; simpl; [tauto|].
  destruct (Nat.eqb_spec k f) as [->|Hne]; [eauto|].
  intros [H|H]; [contradiction | auto].
Qed.

Lemma Qgtb_false x y : (x <= y)%Q -> Qgtb x y = false.
Proof. intro H. unfold Qgtb. apply Qle_bool_iff in H. now rewrite H. Qed.

Lemma Qgtb_true x y : (y < x)%Q -> Qgtb x y = true.
Proof.
  intro H. unfold Qgtb. destruct (Qle_bool x y) eqn:E; [|reflexivity].
  apply Qle_bool_iff in E. exfalso. eapply Qlt_not_le; eauto.
Qed.

Section CaseByCase.

Variable loads : string -> option json.
Variable max_workers : Z.

(** X10.  When [delete_message] raises for a harvested task (its result
    has been retrieved and, if it was printed, the [print] went through),
    the task has already left the registry and the counter of processed
    messages has not moved: the harvest ends with that error, the delete
    call being the last thing it did. *)
Theorem failed_delete_leaves_task_deregistered w now f s r e :
  In f (keys (futures s)) ->
  in_result w f = Val r ->
  (forall c x, r = Some (String c x) -> in_print w f = None) ->
  in_delete w f = Some e ->
  let '(t, s', o) := harvest_one w now f s in
  o = Raised e /\
  messages s' = messages s /\
  exists v pre,
    dict_pop f (futures s) = Val (v, futures s') /\
    t = pre ++ [Deregister f; DeleteMessage f (ReceiptHandle (TUPLE_MSG v))].
Proof.
  intros Hin Hr Hp Hd.
  destruct (dict_pop_present f (futures s)) as (v & rest & Epop);
    [now apply has_key_In|].
  unfold harvest_one, print_error, bind, emit, eval, get, modify, may_raise,
    when, ret, raise.
  cbv beta iota. rewrite Hr. cbv beta iota.
  destruct r as [[|c x]|]; cbv beta iota;
    rewrite ?(Hp c x eq_refl); cbn [option_map]; cbv beta iota;
    rewrite Epop; cbv beta iota;
    rewrite Hd; cbv beta iota; (split; [reflexivity|]); (split; [reflexivity|]);
    exists v; eexists; (split; [reflexivity|]); simpl.
  - now instantiate (1 := [Result f (Val (Some ""))]).
  - now instantiate (1 := [Result f (Val (Some (String c x)));
                           Print (LResult (String c x))]).
  - now instantiate (1 := [Result f (Val None)]).
Qed.

Lemma sweep_skips_spared w now L items rest s :
  0 < max_workers ->
  Forall (spared w now L) items ->
  sweep loads (VInt L) max_workers w now (items ++ rest) 0 s
  = sweep loads (VInt L) max_workers w now rest 0 s.
Proof.
  intros Hmw H. induction H as [|[f msg] items Hitem _ IH]; [reflexivity|].
  cbn [app sweep]. rewrite bind_run.
  assert (Hone : sweep_one loads (VInt L) w now f msg 0 s = ([], s, Done 0)).
  { unfold sweep_one. destruct Hitem as [Hd|Hq]; cbn [fst snd] in *.
    - now rewrite Hd.
    - destruct (in_fut_done w f); [reflexivity|]. cbn [negb].
      unfold over_threshold, gt, bind, eval, ret. now rewrite (Qgtb_false _ _ Hq). }
  rewrite Hone. rewrite bind_run.
  destruct (Z.leb_spec max_workers 0); [lia|]. cbn [when ret app].
  rewrite IH.
  destruct (sweep loads (VInt L) max_workers w now rest 0 s) as [[t2 s2] o].
  reflexivity.
Qed.

(** X11.  A sweep over tasks that are all done or within the threshold asks
    for no extension, prints nothing and changes nothing. *)
Theorem sweep_spares_short_tasks w now L items s :
  0 < max_workers ->
  Forall (spared w now L) items ->
  sweep loads (VInt L) max_workers w now items 0 s = ([], s, Done tt).
Proof.
  intros Hmw H. rewrite <- (app_nil_r items).
  now rewrite (sweep_skips_spared w now L items [] s Hmw H).
Qed.

(** X12.  The first registered task that is still running and over the
    threshold gets one [change_visibility] call for
    [(extended + 1) * LONG_RECORD * 2] seconds, on its own receipt handle;
    if that call raises the sweep ends with its error, and otherwise with
    the [TypeError] of line 152.  Nothing after that task is looked at, and
    the registry is left as it was. *)
Theorem sweep_extends_first_slow_task w now L before f msg behind s record :
  0 < max_workers ->
  futures s = before ++ (f, msg) :: behind ->
  Forall (spared w now L) before ->
  in_fut_done w f = false ->
  (inject_Z L < now - TUPLE_STARTTIME msg)%Q ->
  loads (Body (TUPLE_MSG msg)) = Some record ->
  sweep loads (VInt L) max_workers w now (futures s) 0 s
  = ([ChangeVisibility f (ReceiptHandle (TUPLE_MSG msg))
        (VInt ((TUPLE_EXTENDED msg + 1) * L * 2))],
     s,
     Raised (match in_change w f with Some e => e | None => TypeError end)).
Proof.
  intros Hmw Hf Hb Hrun Hlong Hl.
  destruct (dict_get_present f (futures s)) as [stored Hget].
  { rewrite Hf. unfold keys. rewrite map_app. apply in_or_app. right. now left. }
  rewrite Hf at 1. rewrite (sweep_skips_spared w now L before _ s Hmw Hb).
  cbn [sweep]. rewrite bind_run.
  unfold sweep_one, orjson_loads, over_threshold, new_time, mul, gt, tuple_setitem,
    bind, emit, eval, get, may_raise, ret, raise.
  cbv beta iota. rewrite Hrun. cbn [negb]. cbv beta iota.
  rewrite (Qgtb_true _ _ Hlong). cbv beta iota. rewrite Hl. cbv beta iota.
  destruct (in_change w f); cbv beta iota; [reflexivity|].
  rewrite Hget. reflexivity.
Qed.

End CaseByCase.

(** The first of two registered tasks has returned and its message cannot
    be deleted. *)
Lemma failed_delete_leaves_task_deregistered_witness :
  In 0%nat (keys (futures Demo.full_pool)) /\
  let '(t, s', o) := harvest_one Scenes.failing_delete 5 0%nat Demo.full_pool in
  o = Raised (ClientError "expired handle") /\
  messages s' = messages Demo.full_pool /\
  exists v pre,
    dict_pop 0%nat (futures Demo.full_pool) = Val (v, futures s') /\
    t = pre ++ [Deregister 0%nat; DeleteMessage 0%nat (ReceiptHandle (TUPLE_MSG v))].
Proof.
  assert (H : In 0%nat (keys (futures Demo.full_pool))) by (left; reflexivity).
  split; [exact H|].
  exact (failed_delete_leaves_task_deregistered Scenes.failing_delete 5 0%nat
           Demo.full_pool None (ClientError "expired handle") H eq_refl
           (fun c x E => eq_refl) eq_refl).
Defined.

(** Two tasks started at times [1] and [2], swept at time [100] with a
    threshold of [300]. *)
Lemma sweep_spares_short_tasks_witness :
  Forall (spared (Demo.quiet 100) 100 300) (futures Demo.full_pool) /\
  sweep Demo.loads (VInt 300) 2 (Demo.quiet 100) 100 (futures Demo.full_pool) 0
    Demo.full_pool
  = ([], Demo.full_pool, Done tt).
Proof.
  assert (H : Forall (spared (Demo.quiet 100) 100 300) (futures Demo.full_pool)).
  { apply Forall_cons; [right; intro X; discriminate X|].
    apply Forall_cons; [right; intro X; discriminate X|].
    apply Forall_nil. }
  split; [exact H|].
  exact (sweep_spares_short_tasks Demo.loads 2 (Demo.quiet 100) 100 300
           (futures Demo.full_pool) Demo.full_pool eq_refl H).
Defined.

(** The same two tasks swept at time [330]: the first is extended for
    [600] seconds and the sweep ends with the [TypeError]. *)
Lemma sweep_extends_first_slow_task_witness :
  (inject_Z 300 < 330 - TUPLE_STARTTIME Scenes.first_entry)%Q /\
  sweep Demo.loads (VInt 300) 2 (Demo.quiet 330) 330 (futures Demo.full_pool) 0
    Demo.full_pool
  = ([ChangeVisibility 0%nat "h0" (VInt 600)], Demo.full_pool, Raised TypeError).
Proof.
  split; [reflexivity|].
  exact (sweep_extends_first_slow_task Demo.loads 2 (Demo.quiet 330) 330 300 []
           0%nat Scenes.first_entry [(1%nat, Scenes.second_entry)] Demo.full_pool
           (JDict [("DATA_SOURCE", "TEST"); ("RECORD_ID", "r0")])
           eq_refl eq_refl (Forall_nil _) eq_refl eq_refl eq_refl).
Defined.

(* ===================================================================== *)
(** ** When the sweep runs *)
(* ===================================================================== *)

Section Cadence.

Variable loads : string -> option json.
Variable LONG_RECORD : value.
Variable max_workers : Z.

Lemma harvest_one_no_stats w now f : emits (fun e => negb (is_stats e)) (harvest_one w now f).
Proof. unfold harvest_one. shape. Qed.

Lemma sweep_no_stats w now items n :
  emits (fun e => negb (is_stats e))
    (sweep loads LONG_RECORD max_workers w now items n).
Proof.
  revert n. induction items as [|[f msg] items IH]; intro n; cbn [sweep].
  - shape.
  - apply emits_bind; [unfold sweep_one; shape | intro]. shape.
Qed.

Lemma gate_and_fetch_no_stats w :
  emits (fun e => negb (is_stats e)) (gate_and_fetch LONG_RECORD max_workers w).
Proof.
  assert (Hf : forall answers,
    emits (fun e => negb (is_stats e)) (fetch_loop LONG_RECORD max_workers answers)).
  { induction answers as [|[answer at_] answers IH]; cbn [fetch_loop];
      unfold guarded_fetch, fetch_once; shape. }
  unfold gate_and_fetch. shape.
Qed.

Lemma harvest_and_sweep_cadence w s :
  let '(t, s', _) := harvest_and_sweep loads LONG_RECORD max_workers w s in
  if existsb is_stats t then
    futures s <> [] /\
    sweep_due LONG_RECORD (in_now w) (logCheckTime s) = Val true /\
    logCheckTime s' = in_now w
  else logCheckTime s' = logCheckTime s.
Proof.
  unfold harvest_and_sweep. rewrite bind_get.
  destruct (futures s) as [|item d] eqn:Ed; [reflexivity|]. rewrite <- Ed.
  rewrite bind_run. cbn [emit]. rewrite bind_run.
  pose proof (emits_for_each (fun e => negb (is_stats e))
                (wait (futures s) (in_done w)) (harvest_one w (in_now w))
                (harvest_one_no_stats w (in_now w)) s) as Hn.
  pose proof (preserves_for_each logCheckTime
                (wait (futures s) (in_done w)) (harvest_one w (in_now w))
                (harvest_one_keeps_logCheckTime w (in_now w)) s) as Hk.
  destruct (for_each (wait (futures s) (in_done w)) (harvest_one w (in_now w)) s)
    as [[t1 s1] [[]|e|]]; cbn [fst snd] in Hn, Hk.
  - assert (H1 : existsb is_stats t1 = false).
    { apply not_true_is_false. intro H. apply existsb_exists in H as (e & He & Hs).
      rewrite forallb_forall in Hn. specialize (Hn e He). now rewrite Hs in Hn. }
    rewrite bind_get. rewrite bind_run. rewrite Hk.
    destruct (sweep_due LONG_RECORD (in_now w) (logCheckTime s)) as [[|]|e];
      cbn [eval ret raise when app].
    + unfold bind at 1 2 3. cbn [modify emit]. rewrite bind_get.
      set (s2 := set_logCheckTime (in_now w) s1).
      pose proof (sweep_preserves loads LONG_RECORD max_workers logCheckTime
                    w (in_now w) (futures s2) 0 s2) as Hs.
      destruct (sweep loads LONG_RECORD max_workers w (in_now w) (futures s2) 0 s2)
        as [[t3 s3] o3]. cbn [fst snd] in Hs.
      cbn [app existsb is_stats orb]. rewrite existsb_app, H1.
      cbn [app existsb is_stats orb]. repeat split; [rewrite Ed; discriminate|].
      rewrite Hs. reflexivity.
    + cbn [app]. rewrite app_nil_r. cbn [existsb is_stats orb].
      rewrite H1. exact Hk.
    + cbn [app]. rewrite app_nil_r. cbn [existsb is_stats orb].
      rewrite H1. exact Hk.
  - assert (H1 : existsb is_stats t1 = false).
    { apply not_true_is_false. intro H. apply existsb_exists in H as (x & He & Hs).
      rewrite forallb_forall in Hn. specialize (Hn x He). now rewrite Hs in Hn. }
    cbn [app existsb is_stats orb]. rewrite H1. exact Hk.
  - assert (H1 : existsb is_stats t1 = false).
    { apply not_true_is_false. intro H. apply existsb_exists in H as (x & He & Hs).
      rewrite forallb_forall in Hn. specialize (Hn x He). now rewrite Hs in Hn. }
    cbn [app existsb is_stats orb]. rewrite H1. exact Hk.
Qed.

(** X13.  A pass through the loop asks the engine for its statistics and
    sweeps only if tasks were registered at the top of the pass and
    [nowTime > logCheckTime + LONG_RECORD/2]; it then sets [logCheckTime] to
    [nowTime].  A pass that does not sweep leaves [logCheckTime] as it
    was. *)
Theorem sweep_only_when_due w s :
  let '(t, s', _) := cycle loads LONG_RECORD max_workers w s in
  if existsb is_stats t then
    futures s <> [] /\
    sweep_due LONG_RECORD (in_now w) (logCheckTime s) = Val true /\
    logCheckTime s' = in_now w
  else logCheckTime s' = logCheckTime s.
Proof.
  unfold cycle. rewrite bind_run.
  pose proof (harvest_and_sweep_cadence w s) as Hh.
  destruct (harvest_and_sweep loads LONG_RECORD max_workers w s)
    as [[t1 s1] [[]|e|]]; try exact Hh.
  pose proof (gate_and_fetch_no_stats w s1) as Hn.
  pose proof (gate_and_fetch_keeps LONG_RECORD max_workers logCheckTime w
                (fun _ _ => eq_refl) (fun _ _ => eq_refl) s1) as Hk.
  destruct (gate_and_fetch LONG_RECORD max_workers w s1) as [[t2 s2] o2].
  cbn [fst snd] in Hn, Hk.
  assert (H2 : existsb is_stats t2 = false).
  { apply not_true_is_false. intro H. apply existsb_exists in H as (x & He & Hs).
    rewrite forallb_forall in Hn. specialize (Hn x He). now rewrite Hs in Hn. }
  rewrite existsb_app, H2, orb_false_r, Hk. exact Hh.
Qed.

End Cadence.

(* ===================================================================== *)
(** ** Carrying an invariant through the loop *)
(* ===================================================================== *)

Lemma harvest_one_keeps_others w now f s t' s' a g :
  harvest_one w now f s = (t', s', Done a) ->
  In g (keys (futures s)) -> g <> f -> In g (keys (futures s')).
Proof.
  destruct (dict_pop f (futures s)) as [[v rest]|e0] eqn:Epop;
    unfold harvest_one, print_error, bind, emit, eval, get, modify, may_raise,
      when, ret, raise;
    cbv beta iota;
    (destruct (in_result w f) as [r|e]; cbv beta iota; [|discriminate]);
    destruct r as [[|c x]|]; cbv beta iota;
    try (destruct (in_print w f) as [refused|]; cbn [option_map]; cbv beta iota;
         [discriminate|]);
    rewrite Epop; cbv beta iota;
    try discriminate;
    destruct (in_delete w f); cbv beta iota; try discriminate;
    destruct (messages _ mod INTERVAL =? 0); cbv beta iota;
    intros E Hg Hne; inversion E; subst s';
    simpl; now apply (dict_pop_other _ g _ _ _ Epop Hne).
Qed.

Section LoopInvariant.

Variable loads : string -> option json.
Variable LONG_RECORD : value.
Variable max_workers : Z.

Variable I : trace -> state -> Prop.
Variable L : trace -> Prop.

Hypothesis I_L : forall t s, I t s -> L t.
Hypothesis I_plain : forall t s t' s',
  I t s -> forallb plain t' = true ->
  futures s' = futures s -> next_future s' = next_future s ->
  messages s' = messages s -> I (t ++ t') s'.
Hypothesis L_plain : forall t t', L t -> forallb plain t' = true -> L (t ++ t').
Hypothesis I_harvest : forall w now f t s,
  I t s -> In f (keys (futures s)) -> holds_after I L t (harvest_one w now f s).
Hypothesis I_sweep_one : forall w now f msg n t s,
  I t s -> In (f, msg) (futures s) ->
  holds_after I L t (sweep_one loads LONG_RECORD w now f msg n s).
Hypothesis I_fetch : forall answer at_ t s,
  I t s -> holds_after I L t (guarded_fetch LONG_RECORD answer at_ s).

Local Abbreviation holds := (holds_after I L).

Lemma holds_calm {A} (m : M A) t s :
  frame m -> emits plain m -> preserves messages m -> I t s -> holds t (m s).
Proof.
  intros Hf He Hm Hi. destruct (Hf s) as (F1 & F2 & F3).
  specialize (He s). specialize (Hm s).
  destruct (m s) as [[t' s'] [a|e|]]; simpl in *.
  - eapply I_plain; eauto.
  - apply L_plain; eauto.
  - congruence.
Qed.

Lemma holds_bind {A B} (m : M A) (k : A -> M B) t s :
  holds t (m s) ->
  (forall a t1 s1, m s = (t1, s1, Done a) -> I (t ++ t1) s1 ->
                   holds (t ++ t1) (k a s1)) ->
  holds t (bind m k s).
Proof.
  intros Hm Hk. rewrite bind_run.
  destruct (m s) as [[t1 s1] [a|e|]]; simpl in *; auto.
  specialize (Hk a t1 s1 eq_refl Hm).
  destruct (k a s1) as [[t2 s2] [b|e|]]; simpl in *; auto;
    now rewrite app_assoc.
Qed.

Lemma holds_ret {A} (a : A) t s : I t s -> holds t (ret a s).
Proof. intro H. simpl. now rewrite app_nil_r. Qed.

Lemma harvest_all_holds w now done t s :
  I t s -> NoDup done ->
  (forall f, In f done -> In f (keys (futures s))) ->
  holds t (for_each done (harvest_one w now) s).
Proof.
  revert t s. induction done as [|f done IH]; intros t s Hi Hnd Hreg.
  - now apply holds_ret.
  - cbn [for_each]. inversion Hnd as [|? ? Hnotin Hnd']; subst.
    apply holds_bind; [apply I_harvest; auto; apply Hreg; now left|].
    intros [] t1 s1 E Hi1. apply IH; auto.
    intros g Hg. apply (harvest_one_keeps_others w now f s t1 s1 tt g E).
    + apply Hreg. now right.
    + intros ->. contradiction.
Qed.

Lemma sweep_holds w now items n t s :
  I t s -> (forall item, In item items -> In item (futures s)) ->
  holds t (sweep loads LONG_RECORD max_workers w now items n s).
Proof.
  revert n t s. induction items as [|[f msg] items IH]; intros n t s Hi Hsub.
  - now apply holds_ret.
  - cbn [sweep]. apply holds_bind; [apply I_sweep_one; auto; apply Hsub; now left|].
    intros n' t1 s1 E Hi1.
    assert (Ef : futures s1 = futures s).
    { pose proof (sweep_one_preserves loads LONG_RECORD futures w now f msg n s) as H.
      now rewrite E in H. }
    apply holds_bind; [apply holds_calm; [shape | shape | keep | exact Hi1]|].
    intros [] t2 s2 E2 Hi2. apply IH; [exact Hi2|].
    intros item Hitem.
    assert (Ef2 : futures s2 = futures s1).
    { destruct (max_workers <=? n'); inversion E2; reflexivity. }
    rewrite Ef2, Ef. apply Hsub. now right.
Qed.

Lemma harvest_and_sweep_holds w t s :
  I t s -> holds t (harvest_and_sweep loads LONG_RECORD max_workers w s).
Proof.
  intro Hi. unfold harvest_and_sweep. rewrite bind_get.
  destruct (futures s) as [|item d] eqn:Ed; [now apply holds_ret|].
  rewrite <- Ed.
  apply holds_bind; [apply holds_calm; [shape | shape | keep | exact Hi]|].
  intros [] t1 s1 E Hi1. inversion E; subst t1 s1.
  apply holds_bind.
  - apply harvest_all_holds; [exact Hi1 | apply wait_NoDup |].
    intros f Hf. apply has_key_In. eapply wait_registered; eauto.
  - intros [] t2 s2 _ Hi2. rewrite bind_get.
    apply holds_bind; [apply holds_calm; [shape | shape | keep | exact Hi2]|].
    intros [|] t3 s3 E3 Hi3; cbn [when]; [|now apply holds_ret].
    apply holds_bind; [apply holds_calm; [shape | shape | keep | exact Hi3]|].
    intros [] t4 s4 _ Hi4.
    apply holds_bind; [apply holds_calm; [shape | shape | keep | exact Hi4]|].
    intros [] t5 s5 _ Hi5.
    apply holds_bind; [apply holds_calm; [shape | shape | keep | exact Hi5]|].
    intros [] t6 s6 _ Hi6. rewrite bind_get.
    apply sweep_holds; auto.
Qed.

Lemma fetch_loop_holds answers t s :
  I t s -> holds t (fetch_loop LONG_RECORD max_workers answers s).
Proof.
  revert t s. induction answers as [|[answer at_] answers IH]; intros t s Hi;
    cbn [fetch_loop]; rewrite bind_get;
    (destruct (len (futures s) <? max_workers); [|now apply holds_ret]).
  - apply holds_bind; [now apply I_fetch|].
    intros a t1 s1 _ Hi1. now apply holds_ret.
  - apply holds_bind; [now apply I_fetch|].
    intros [|] t1 s1 _ Hi1; [now apply IH | now apply holds_ret].
Qed.

Lemma gate_and_fetch_holds w t s :
  I t s -> holds t (gate_and_fetch LONG_RECORD max_workers w s).
Proof.
  intro Hi. unfold gate_and_fetch.
  apply holds_bind; [apply holds_calm; [shape | shape | keep | exact Hi]|].
  intros [] t1 s1 _ Hi1.
  destruct (Qltb (in_pause w) 0);
    [apply holds_calm; [shape | shape | keep | exact Hi1]|].
  rewrite bind_get.
  destruct (max_workers <=? len (futures s1));
    [apply holds_calm; [shape | shape | keep | exact Hi1]|].
  apply holds_bind; [apply holds_calm; [shape | shape | keep | exact Hi1]|].
  intros [] t2 s2 _ Hi2. now apply fetch_loop_holds.
Qed.

Lemma cycle_holds w t s :
  I t s -> holds t (cycle loads LONG_RECORD max_workers w s).
Proof.
  intro Hi. unfold cycle. apply holds_bind.
  - now apply harvest_and_sweep_holds.
  - intros [] t1 s1 _ Hi1. now apply gate_and_fetch_holds.
Qed.

(** Every trace the loop can produce from a state where [I] holds satisfies
    [L], and [I] still holds while the loop is running. *)
Lemma loop_holds ws t s :
  I t s ->
  let '(t', s', o) := loop loads LONG_RECORD max_workers ws s in
  L (t ++ t') /\ (forall a, o <> Done a) /\ (o = Running -> I (t ++ t') s').
Proof.
  revert t s. induction ws as [|w ws IH]; intros t s Hi.
  - simpl. rewrite app_nil_r. split; [eauto | split; [discriminate | auto]].
  - cbn [loop]. rewrite bind_run.
    pose proof (cycle_holds w t s Hi) as Hc.
    destruct (cycle loads LONG_RECORD max_workers w s) as [[t1 s1] [[]|e|]];
      simpl in Hc.
    + specialize (IH (t ++ t1) s1 Hc).
      destruct (loop loads LONG_RECORD max_workers ws s1) as [[t2 s2] o].
      rewrite app_assoc. exact IH.
    + split; [exact Hc | split; discriminate].
    + contradiction.
Qed.

End LoopInvariant.

(* ===================================================================== *)
(** ** What the three parts that matter can do *)
(* ===================================================================== *)

Lemma dict_pop_In f d v rest :
  dict_pop f d = Val (v, rest) ->
  In (f, v) d /\ forall item, In item rest -> In item d.
Proof.
  revert v rest. induction d as [|[k x] d IH]; simpl; intros v rest H.
  - discriminate.
  - destruct (Nat.eqb_spec k f) as [->|Hne].
    + inversion H; subst. auto.
    + destruct (dict_pop f d) as [[y rest']|e]; [|discriminate].
      inversion H; subst. destruct (IH _ _ eq_refl) as [H1 H2].
      split; [now right|]. intros item [<-|Hi]; auto.
Qed.

Lemma dict_set_In f v d item :
  In item (dict_set f v d) -> item = (f, v) \/ In item d.
Proof.
  induction d as [|[k x] d IH]; simpl.
  - intros [<-|[]]. now left.
  - destruct (Nat.eqb_spec k f) as [->|Hne]; simpl.
    + intros [<-|H]; auto.
    + intros [<-|H]; auto. destruct (IH H); auto.
Qed.

(** Lines 118-131, case by case, for a registered future: the result or its
    [print] raises and nothing has changed; or the task is popped and its
    message deleted, and the counter moves if the deletion went through. *)
Lemma harvest_one_cases w now f s :
  In f (keys (futures s)) ->
  exists v rest,
    dict_pop f (futures s) = Val (v, rest) /\
    let '(t, s', o) := harvest_one w now f s in
    (exists e x pr,
       t = Result f x :: pr /\ forallb plain pr = true /\
       s' = s /\ o = Raised e) \/
    (exists r pr,
       forallb plain pr = true /\
       futures s' = rest /\ next_future s' = next_future s /\
       ((exists e,
           t = Result f (Val r) :: pr
                 ++ [Deregister f; DeleteMessage f (ReceiptHandle (TUPLE_MSG v))] /\
           messages s' = messages s /\ o = Raised e) \/
        (messages s' = messages s + 1 /\ o = Done tt /\
         ((messages s' mod INTERVAL =? 0) = false /\
          t = Result f (Val r) :: pr
                ++ [Deregister f; DeleteMessage f (ReceiptHandle (TUPLE_MSG v))]
          \/
          (messages s' mod INTERVAL =? 0) = true /\
          exists speed,
            t = Result f (Val r) :: pr
                  ++ [Deregister f; DeleteMessage f (ReceiptHandle (TUPLE_MSG v));
                      Print (LRate (messages s') speed)])))).
Proof.
  intro Hin.
  destruct (dict_pop_present f (futures s)) as (v & rest & Epop);
    [now apply has_key_In|].
  exists v, rest. split; [exact Epop|].
  unfold harvest_one, print_error, bind, emit, eval, get, modify, may_raise,
    when, ret, raise.
  cbv beta iota.
  destruct (in_result w f) as [r|e]; cbv beta iota;
    [|left; exists e, (Exc e), []; repeat split].
  assert (Hpr : forallb plain
                  (match r with
                   | Some (String c x) => [Print (LResult (String c x))]
                   | _ => []
                   end) = true) by (destruct r as [[|c x]|]; reflexivity).
  destruct r as [[|c x]|]; cbv beta iota;
    [ | destruct (in_print w f) as [refused|]; cbn [option_map]; cbv beta iota;
        [ left; eexists _, _, _; repeat split | ]
      | ];
    rewrite Epop; cbv beta iota;
    destruct (in_delete w f) as [e|]; cbv beta iota;
    cbn [messages set_messages set_futures];
    try (destruct (_ =? 0) eqn:Emod; cbv beta iota);
    right; eexists; eexists; (split; [exact Hpr|]);
    (split; [reflexivity|]); (split; [reflexivity|]);
    try (left; exists e; repeat split; reflexivity);
    right; (split; [reflexivity|]); (split; [reflexivity|]);
    first [ left; split; [exact Emod | reflexivity]
          | right; split; [exact Emod | eexists; reflexivity] ].
Qed.

(** Lines 143-153, case by case: the state never changes, and a
    [change_visibility] call is always followed by a raise. *)
Lemma sweep_one_cases loads LONG_RECORD w now f msg n s :
  let '(t, s', o) := sweep_one loads LONG_RECORD w now f msg n s in
  s' = s /\
  ((t = [] /\ o <> Running) \/
   (exists window e,
      t = [ChangeVisibility f (ReceiptHandle (TUPLE_MSG msg)) window] /\
      o = Raised e)).
Proof.
  unfold sweep_one, orjson_loads, tuple_setitem, bind, emit, eval, get,
    may_raise, ret, raise.
  cbv beta iota.
  destruct (in_fut_done w f); cbn [negb]; cbv beta iota;
    [split; [reflexivity | left; split; [reflexivity | discriminate]]|].
  destruct (over_threshold _ _) as [[|]|e]; cbv beta iota;
    try (split; [reflexivity | left; split; [reflexivity | discriminate]]).
  destruct (loads _); cbv beta iota;
    [|split; [reflexivity | left; split; [reflexivity | discriminate]]].
  destruct (new_time _ _); cbv beta iota;
    [|split; [reflexivity | left; split; [reflexivity | discriminate]]].
  destruct (in_change w f); cbv beta iota;
    [split; [reflexivity | right; eexists; eexists; split; reflexivity]|].
  destruct (dict_get f (futures s)); cbv beta iota;
    (split; [reflexivity | right; eexists; eexists; split; reflexivity]).
Qed.

(** Lines 171-185, case by case. *)
Lemma guarded_fetch_outcomes LONG_RECORD answer at_ s :
  let '(t, s', o) := guarded_fetch LONG_RECORD answer at_ s in
  exists v,
    (exists rest, t = ReceiveMessage v :: rest /\ forallb plain rest = true /\
                  s' = s /\ o <> Running /\ o <> Done true) \/
    (exists this_msg,
       let stored := {| TUPLE_MSG := this_msg; TUPLE_STARTTIME := at_;
                        TUPLE_EXTENDED := 0 |} in
       t = [ReceiveMessage v; Submit (next_future s) (Body this_msg);
            Register (next_future s) stored] /\
       futures s' = dict_set (next_future s) stored (futures s) /\
       next_future s' = S (next_future s) /\
       messages s' = messages s /\ o = Done true).
Proof.
  destruct (receive_visibility_defined LONG_RECORD) as [v Hv].
  unfold guarded_fetch, try_except, fetch_once, bind, emit, eval, get, modify,
    when, ret, raise.
  cbv beta iota. rewrite Hv. cbv beta iota.
  destruct answer as [e|[|this_msg more]]; cbv beta iota.
  - destruct (is_Exception e); cbv beta iota; exists v; left; eexists;
      repeat split; try reflexivity; discriminate.
  - destruct (len (futures s) =? 0); cbv beta iota; exists v; left; eexists;
      repeat split; try reflexivity; discriminate.
  - exists v. right. exists this_msg. repeat split.
Qed.

Lemma closing_plain t : forallb is_closing t = true -> forallb plain t = true.
Proof.
  rewrite !forallb_forall. intros H e He. specialize (H e He).
  destruct e as [[]| | | | | | | | | | | | |]; auto; discriminate.
Qed.

Section ProgramInvariant.

Variable loads : string -> option json.
Variable W : world.
Variable I : trace -> state -> Prop.
Variable L : trace -> Prop.

Hypothesis I_L : forall t s, I t s -> L t.
Hypothesis I_plain : forall t s t' s',
  I t s -> forallb plain t' = true ->
  futures s' = futures s -> next_future s' = next_future s ->
  messages s' = messages s -> I (t ++ t') s'.
Hypothesis L_plain : forall t t', L t -> forallb plain t' = true -> L (t ++ t').
Hypothesis I_harvest : forall w now f t s,
  I t s -> In f (keys (futures s)) -> holds_after I L t (harvest_one w now f s).
Hypothesis I_sweep_one : forall w now f msg n t s,
  I t s -> In (f, msg) (futures s) ->
  holds_after I L t (sweep_one loads (LONG_RECORD_of W) w now f msg n s).
Hypothesis I_fetch : forall answer at_ t s,
  I t s -> holds_after I L t (guarded_fetch (LONG_RECORD_of W) answer at_ s).
Hypothesis I_start : forall mw, I [Print (LThreads mw)] (initial W).
Hypothesis L_nil : L [].

(** The loop from the start of the program, after any recorded cycles. *)
Lemma loop_from_start_holds mw ws :
  let '(t, s, o) := loop loads (LONG_RECORD_of W) mw ws (initial W) in
  L (Print (LThreads mw) :: t) /\
  (forall a, o <> Done a) /\
  (o = Running -> I (Print (LThreads mw) :: t) s).
Proof.
  exact (loop_holds loads (LONG_RECORD_of W) mw I L I_L I_plain L_plain
           I_harvest I_sweep_one I_fetch ws _ _ (I_start mw)).
Qed.

(** What holds of the loop's traces holds of the whole program's. *)
Lemma main_holds : L (fst (main loads W)).
Proof.
  pose proof (main_split loads W) as Hm.
  destruct (ThreadPoolExecutor (cpu_count W) (threads_per_process W))
    as [mw|e] eqn:E.
  - pose proof (loop_from_start_holds mw (cycles W)) as Hl.
    destruct Hm as (tail & -> & Htail).
    destruct (loop loads (LONG_RECORD_of W) mw (cycles W) (initial W))
      as [[t s] o]. destruct Hl as (Hlaw & _). cbn [fst].
    apply L_plain; [exact Hlaw | now apply closing_plain].
  - rewrite Hm. apply (L_plain [] _ L_nil). reflexivity.
Qed.

End ProgramInvariant.

(* ===================================================================== *)
(** ** The counter of processed messages and the throughput lines *)
(* ===================================================================== *)

Lemma plain_not_delete e : plain e = true -> is_delete e = false.
Proof. destruct e; simpl; auto; discriminate. Qed.

Lemma plain_not_rate e : plain e = true -> is_rate e = false.
Proof.
  unfold plain. intro H. apply andb_true_iff in H as [_ H].
  now apply negb_true_iff in H.
Qed.

Lemma plain_count (p : event -> bool) t :
  (forall e, plain e = true -> p e = false) ->
  forallb plain t = true -> count p t = 0%nat.
Proof.
  intros Hp. unfold count. induction t as [|e t IH]; simpl; [reflexivity|].
  intro H. apply andb_true_iff in H as [H1 H2].
  rewrite (Hp e H1). auto.
Qed.

(** One more message, one more line when the counter reaches a multiple of
    the interval. *)
Lemma next_line m :
  0 <= m ->
  (m + 1) / INTERVAL =
  if (m + 1) mod INTERVAL =? 0 then m / INTERVAL + 1 else m / INTERVAL.
Proof.
  intro Hm. unfold INTERVAL.
  pose proof (Z.div_mod m 10000 ltac:(lia)) as D.
  pose proof (Z.mod_pos_bound m 10000 ltac:(lia)) as B.
  pose proof (Z.div_mod (m + 1) 10000 ltac:(lia)) as D1.
  pose proof (Z.mod_pos_bound (m + 1) 10000 ltac:(lia)) as B1.
  destruct (Z.eqb_spec ((m + 1) mod 10000) 0) as [E|E]; lia.
Qed.

Lemma tallied_app t s t' s' :
  tallied t s -> count is_delete t' = 0%nat -> count is_rate t' = 0%nat ->
  messages s' = messages s -> tallied (t ++ t') s'.
Proof.
  intros [Hm Hl] Hd Hr Em.
  split; rewrite Em, !count_app, ?Hd, ?Hr, ?Nat.add_0_r; assumption.
Qed.

Lemma tallied_plain t s t' s' :
  tallied t s -> forallb plain t' = true -> messages s' = messages s ->
  tallied (t ++ t') s'.
Proof.
  intros H Hp Em. apply (tallied_app t s); auto.
  - exact (plain_count is_delete t' plain_not_delete Hp).
  - exact (plain_count is_rate t' plain_not_rate Hp).
Qed.

(** While the loop keeps going the tally is kept; nothing is asked of the
    traces on which it ends. *)
Local Abbreviation tallied_after := (holds_after tallied (fun _ : trace => True)).

Lemma tallied_harvest w now f t s :
  tallied t s -> In f (keys (futures s)) ->
  tallied_after t (harvest_one w now f s).
Proof.
  intros [Hm Hl] Hin.
  destruct (harvest_one_cases w now f s Hin) as (v & rest & _ & Hc).
  destruct (harvest_one w now f s) as [[t1 s1] o].
  assert (Hpos : 0 <= messages s) by lia.
  destruct Hc as [(e & x & pr & -> & _ & -> & ->)|(r & pr & Hp & _ & _ & Hc)];
    [exact I|].
  assert (Hd' : forall tail,
           count is_delete (Result f (Val r) :: pr ++ tail) = count is_delete tail /\
           count is_rate (Result f (Val r) :: pr ++ tail) = count is_rate tail).
  { intro tail. rewrite !count_cons, !count_app.
    rewrite (plain_count is_delete pr plain_not_delete Hp),
            (plain_count is_rate pr plain_not_rate Hp). split; reflexivity. }
  destruct Hc as [(e & -> & Em & ->)|(Em & -> & [[Emod ->]|[Emod [speed ->]]])];
    cbn [holds_after]; [exact I| |];
    pose proof (next_line (messages s) Hpos) as Hn; rewrite <- Em, Emod in Hn.
  - destruct (Hd' [Deregister f;
      DeleteMessage f (ReceiptHandle (TUPLE_MSG v))]) as [Hd1 Hd2].
    split; rewrite !count_app, ?Hd1, ?Hd2; unfold count at 2; simpl; lia.
  - destruct (Hd' [Deregister f;
      DeleteMessage f (ReceiptHandle (TUPLE_MSG v));
      Print (LRate (messages s1) speed)]) as [Hd1 Hd2].
    split; rewrite !count_app, ?Hd1, ?Hd2; unfold count at 2; simpl; lia.
Qed.

Lemma tallied_sweep_one loads LONG_RECORD w now f msg n t s :
  tallied t s ->
  tallied_after t (sweep_one loads LONG_RECORD w now f msg n s).
Proof.
  intro H. pose proof (sweep_one_cases loads LONG_RECORD w now f msg n s) as Hc.
  destruct (sweep_one loads LONG_RECORD w now f msg n s) as [[t1 s1] o].
  destruct Hc as [-> [[-> Ho]|(window & e & -> & ->)]]; cbn [holds_after];
    [|exact I].
  destruct o as [a|e|]; rewrite ?app_nil_r; [exact H | exact I | now destruct Ho].
Qed.

Lemma tallied_fetch LONG_RECORD answer at_ t s :
  tallied t s ->
  tallied_after t (guarded_fetch LONG_RECORD answer at_ s).
Proof.
  intro H. pose proof (guarded_fetch_outcomes LONG_RECORD answer at_ s) as Hc.
  destruct (guarded_fetch LONG_RECORD answer at_ s) as [[t1 s1] o].
  destruct Hc as [v [(rest & -> & Hp & -> & Ho & _)|(this_msg & -> & _ & _ & Em & ->)]];
    cbn [holds_after].
  - assert (Hd : count is_delete (ReceiveMessage v :: rest) = 0%nat)
      by (rewrite count_cons; exact (plain_count is_delete rest plain_not_delete Hp)).
    assert (Hr : count is_rate (ReceiveMessage v :: rest) = 0%nat)
      by (rewrite count_cons; exact (plain_count is_rate rest plain_not_rate Hp)).
    destruct o as [a|e|]; [|exact I | now destruct Ho].
    now apply (tallied_app t s _ s).
  - apply (tallied_app t s); [exact H | reflexivity | reflexivity | exact Em].
Qed.

Lemma tallied_start W mw : tallied [Print (LThreads mw)] (initial W).
Proof. split; reflexivity. Qed.

(** The tally at the top of the loop, after any number of completed
    cycles. *)
Lemma loop_tallied loads W mw ws :
  let '(t, s, o) := loop loads (LONG_RECORD_of W) mw ws (initial W) in
  o = Running -> tallied (Print (LThreads mw) :: t) s.
Proof.
  pose proof (loop_from_start_holds loads W tallied (fun _ => True)
    (fun t s H => I)
    (fun t s t' s' H Hp _ _ Em => tallied_plain t s t' s' H Hp Em)
    (fun t t' H Hp => I)
    (fun w now f t s H Hin => tallied_harvest w now f t s H Hin)
    (fun w now f msg n t s H _ => tallied_sweep_one loads _ w now f msg n t s H)
    (fun answer at_ t s H => tallied_fetch _ answer at_ t s H)
    (tallied_start W) mw ws) as Hl.
  destruct (loop loads (LONG_RECORD_of W) mw ws (initial W)) as [[t s] o].
  destruct Hl as (_ & _ & Hrun). exact Hrun.
Qed.

(** X14.  At the top of the loop, after any number of completed cycles, the
    number of throughput lines printed so far is the number of
    [delete_message] calls made so far divided by [INTERVAL] (10000),
    rounded down: one line for every ten thousand messages deleted. *)
Theorem one_rate_line_per_interval loads W mw ws :
  let '(t, s, o) := loop loads (LONG_RECORD_of W) mw ws (initial W) in
  o = Running ->
  Z.of_nat (count is_rate t) = Z.of_nat (count is_delete t) / INTERVAL.
Proof.
  pose proof (loop_tallied loads W mw ws) as Hl.
  destruct (loop loads (LONG_RECORD_of W) mw ws (initial W)) as [[t s] o].
  intro Ho. destruct (Hl Ho) as [Hm Hr].
  rewrite !count_cons in Hr, Hm. cbn [is_rate is_delete Nat.add] in Hr, Hm.
  now rewrite Hr, Hm.
Qed.

(** X15. At the top of the loop, after any number of completed cycles, the
    counter [messages] is the number of [delete_message] calls made so far:
    a message is counted exactly when it has been deleted from the queue. *)
Theorem messages_counts_deletes loads W mw ws :
  let '(t, s, o) := loop loads (LONG_RECORD_of W) mw ws (initial W) in
  o = Running -> messages s = Z.of_nat (count is_delete t).
Proof.
  pose proof (loop_tallied loads W mw ws) as Hl.
  destruct (loop loads (LONG_RECORD_of W) mw ws (initial W)) as [[t s] o].
  intro Ho. destruct (Hl Ho) as [Hm _]. rewrite Hm. now rewrite count_cons.
Qed.

(* ===================================================================== *)
(** ** Receipt handles *)
(* ===================================================================== *)

Lemma plain_no_handle e : plain e = true -> handle_of e = None.
Proof. destruct e; simpl; auto; discriminate. Qed.

Lemma plain_not_register g e : plain e = true -> is_register_of g e = false.
Proof. destruct e; simpl; auto; discriminate. Qed.

Lemma answered_none pre x : handle_of x = None -> answered pre x.
Proof. intros E f h H. congruence. Qed.

Lemma answered_later pre more x : answered pre x -> answered (pre ++ more) x.
Proof.
  intros H f h E. destruct (H f h E) as (stored & Hin & Eh).
  exists stored. split; [apply in_or_app; now left | exact Eh].
Qed.

Lemma answered_plain t pr : forallb plain pr = true -> Forall (answered t) pr.
Proof.
  intro H. apply Forall_forall. intros x Hx.
  apply answered_none, plain_no_handle.
  rewrite forallb_forall in H. now apply H.
Qed.

Lemma each_after_answered_app t t' :
  each_after answered t -> Forall (answered t) t' -> each_after answered (t ++ t').
Proof.
  intros Ht Ht' pre x suf E.
  apply app_eq_app in E as [l [[E1 E2]|[E1 E2]]].
  - destruct l as [|y l].
    + rewrite app_nil_r in E1. subst pre. simpl in E2.
      rewrite Forall_forall in Ht'. apply Ht'. rewrite <- E2. now left.
    + simpl in E2. injection E2 as <- _. exact (Ht pre x l E1).
  - subst pre. apply answered_later.
    rewrite Forall_forall in Ht'. apply Ht'. rewrite E2.
    apply in_or_app. right. now left.
Qed.

Lemma handles_lawful_app t t' :
  handles_lawful t -> Forall (answered t) t' ->
  (forall g, count (is_register_of g) t' = 0%nat) ->
  handles_lawful (t ++ t').
Proof.
  intros [Ha Ho] Ht' Hc. split.
  - now apply each_after_answered_app.
  - intro g. rewrite count_app, Hc, Nat.add_0_r. apply Ho.
Qed.

Lemma handles_kept_lawful t s : handles_kept t s -> handles_lawful t.
Proof. intros [Ha Ho _ _]. now split. Qed.

Lemma handles_kept_app t s t' s' :
  handles_kept t s -> Forall (answered t) t' ->
  (forall g, count (is_register_of g) t' = 0%nat) ->
  (forall item, In item (futures s') -> In item (futures s)) ->
  next_future s' = next_future s ->
  handles_kept (t ++ t') s'.
Proof.
  intros [Ha Ho Hs Hu] Ht' Hc Hf Hn. split.
  - now apply each_after_answered_app.
  - intro g. rewrite count_app, Hc, Nat.add_0_r. apply Ho.
  - intros f e Hin. apply in_or_app. left. apply Hs, Hf, Hin.
  - intros f Hle. rewrite count_app, Hc, Nat.add_0_r. apply Hu. now rewrite <- Hn.
Qed.

Lemma handles_plain_count g pr :
  forallb plain pr = true -> count (is_register_of g) pr = 0%nat.
Proof. apply plain_count. intros e. apply plain_not_register. Qed.

Lemma handles_harvest w now f t s :
  handles_kept t s -> In f (keys (futures s)) ->
  holds_after handles_kept handles_lawful t (harvest_one w now f s).
Proof.
  intros H Hin.
  destruct (harvest_one_cases w now f s Hin) as (v & rest & Epop & Hc).
  destruct (dict_pop_In _ _ _ _ Epop) as [Hv Hrest].
  assert (Hreg : In (Register f v) t) by (apply (@hk_stored _ _ H), Hv).
  assert (Hdel : answered t (DeleteMessage f (ReceiptHandle (TUPLE_MSG v)))).
  { intros g h E. injection E as <- <-. now exists v. }
  destruct (harvest_one w now f s) as [[t1 s1] o].
  destruct Hc as [(e & x & pr & -> & Hp & -> & ->)|(r & pr & Hp & Ef & En & Hc)].
  - cbn [holds_after]. apply handles_lawful_app.
    + exact (handles_kept_lawful _ _ H).
    + constructor; [now apply answered_none | now apply answered_plain].
    + intro g. rewrite count_cons. exact (handles_plain_count g pr Hp).
  - assert (Hans : forall tail, Forall (answered t) tail ->
              Forall (answered t) (Result f (Val r) :: pr ++ tail)).
    { intros tail Ht. constructor; [now apply answered_none|].
      apply Forall_app. split; [now apply answered_plain | exact Ht]. }
    assert (Hcnt : forall g tail, count (is_register_of g) tail = 0%nat ->
              count (is_register_of g) (Result f (Val r) :: pr ++ tail) = 0%nat).
    { intros g tail Ht. rewrite count_cons, count_app, Ht.
      now rewrite (handles_plain_count g pr Hp). }
    assert (Hsub : forall item, In item (futures s1) -> In item (futures s)).
    { intros item Hi. apply Hrest. now rewrite <- Ef. }
    destruct Hc as [(e & -> & _ & ->)|(_ & -> & [[_ ->]|[_ [speed ->]]])];
      cbn [holds_after].
    + apply handles_lawful_app.
      * exact (handles_kept_lawful _ _ H).
      * apply Hans. repeat constructor; [now apply answered_none | exact Hdel].
      * intro g. now apply Hcnt.
    + apply (handles_kept_app t s); [exact H | | | exact Hsub | exact En].
      * apply Hans. repeat constructor; [now apply answered_none | exact Hdel].
      * intro g. now apply Hcnt.
    + apply (handles_kept_app t s); [exact H | | | exact Hsub | exact En].
      * apply Hans. repeat constructor;
          [now apply answered_none | exact Hdel | now apply answered_none].
      * intro g. now apply Hcnt.
Qed.

Lemma handles_sweep_one loads LONG_RECORD w now f msg n t s :
  handles_kept t s -> In (f, msg) (futures s) ->
  holds_after handles_kept handles_lawful t
    (sweep_one loads LONG_RECORD w now f msg n s).
Proof.
  intros H Hin.
  pose proof (sweep_one_cases loads LONG_RECORD w now f msg n s) as Hc.
  destruct (sweep_one loads LONG_RECORD w now f msg n s) as [[t1 s1] o].
  destruct Hc as [-> [[-> Ho]|(window & e & -> & ->)]]; cbn [holds_after].
  - destruct o as [a|e|]; rewrite ?app_nil_r;
      [exact H | exact (handles_kept_lawful _ _ H) | now destruct Ho].
  - apply handles_lawful_app.
    + exact (handles_kept_lawful _ _ H).
    + repeat constructor. intros g h E. injection E as <- <-.
      exists msg. split; [apply (@hk_stored _ _ H), Hin | reflexivity].
    + reflexivity.
Qed.

Lemma handles_fetch LONG_RECORD answer at_ t s :
  handles_kept t s ->
  holds_after handles_kept handles_lawful t
    (guarded_fetch LONG_RECORD answer at_ s).
Proof.
  intro H. pose proof (guarded_fetch_outcomes LONG_RECORD answer at_ s) as Hc.
  destruct (guarded_fetch LONG_RECORD answer at_ s) as [[t1 s1] o].
  destruct Hc as [v [(rest & -> & Hp & -> & Ho & _)
                    |(this_msg & -> & Ef & En & _ & ->)]];
    cbn [holds_after].
  - assert (Ha : Forall (answered t) (ReceiveMessage v :: rest)).
    { constructor; [now apply answered_none | now apply answered_plain]. }
    assert (Hc : forall g, count (is_register_of g) (ReceiveMessage v :: rest) = 0%nat).
    { intro g. rewrite count_cons. exact (handles_plain_count g rest Hp). }
    destruct o as [a|e|].
    + now apply (handles_kept_app t s _ s).
    + apply handles_lawful_app; [exact (handles_kept_lawful _ _ H) | |]; assumption.
    + now destruct Ho.
  - destruct H as [Ha Ho Hs Hu]. split.
    + apply each_after_answered_app; [exact Ha|].
      repeat constructor; now apply answered_none.
    + intro g. rewrite count_app, !count_cons. cbn [is_register_of count].
      destruct (Nat.eqb_spec (next_future s) g) as [<-|Hne].
      * rewrite (Hu (next_future s) (le_n _)). reflexivity.
      * pose proof (Ho g). unfold count at 2. simpl. lia.
    + intros f e Hin. rewrite Ef in Hin.
      apply dict_set_In in Hin as [E|Hin]; apply in_or_app.
      * injection E as -> ->. right. simpl. auto.
      * left. now apply Hs.
    + intros f Hle. rewrite En in Hle. rewrite count_app, !count_cons.
      cbn [is_register_of]. destruct (Nat.eqb_spec (next_future s) f) as [<-|Hne];
        [lia|]. rewrite (Hu f ltac:(lia)). reflexivity.
Qed.

Lemma handles_start W mw : handles_kept [Print (LThreads mw)] (initial W).
Proof.
  split.
  - intros pre x suf E. destruct pre as [|y [|z pre]]; try discriminate.
    injection E as <- _. now apply answered_none.
  - intro g. cbv. lia.
  - intros f e [].
  - reflexivity.
Qed.

(** X16. In every run, each receipt handle handed to [delete_message] or to
    [change_message_visibility] is the receipt handle of the message that
    was stored in [futures] for that very future when it was submitted, and
    no future is stored twice. *)
Theorem handles_come_from_the_registry loads W :
  handles_lawful (fst (main loads W)).
Proof.
  apply (main_holds loads W handles_kept handles_lawful).
  - exact handles_kept_lawful.
  - intros t s t' s' H Hp Ef En _. apply (handles_kept_app t s).
    + exact H.
    + now apply answered_plain.
    + intro g. now apply handles_plain_count.
    + intros item Hi. now rewrite <- Ef.
    + exact En.
  - intros t t' H Hp. apply handles_lawful_app.
    + exact H.
    + now apply answered_plain.
    + intro g. now apply handles_plain_count.
  - exact handles_harvest.
  - intros w now f msg n t s H Hin.
    exact (handles_sweep_one loads _ w now f msg n t s H Hin).
  - intros answer at_ t s H. exact (handles_fetch _ answer at_ t s H).
  - exact (handles_start W).
  - split; [intros [|y pre] x suf E; discriminate | intro g; cbv; lia].
Qed.

(* ===================================================================== *)
(** ** How the process ends *)
(* ===================================================================== *)

Section Raises.

Lemma raises_ret {A} (a : A) : raises_Exceptions (ret a).
Proof. intros s e H. discriminate H. Qed.

Lemma raises_emit x : raises_Exceptions (emit x).
Proof. intros s e H. discriminate H. Qed.

Lemma raises_get : raises_Exceptions get.
Proof. intros s e H. discriminate H. Qed.

Lemma raises_modify g : raises_Exceptions (modify g).
Proof. intros s e H. discriminate H. Qed.

Lemma raises_raise {A} e : is_Exception e = true -> raises_Exceptions (@raise A e).
Proof. intros He s e' H. injection H as <-. exact He. Qed.

Lemma raises_eval {A} (r : res A) :
  (forall e, r = Exc e -> is_Exception e = true) -> raises_Exceptions (eval r).
Proof.
  intros Hr. destruct r as [a|e]; simpl.
  - apply raises_ret.
  - apply raises_raise. now apply Hr.
Qed.

Lemma raises_may_raise o :
  (forall e, o = Some e -> is_Exception e = true) -> raises_Exceptions (may_raise o).
Proof.
  intros Ho. destruct o as [e|]; simpl.
  - apply raises_raise. now apply Ho.
  - apply raises_ret.
Qed.

Lemma raises_bind {A B} (m : M A) (k : A -> M B) :
  raises_Exceptions m -> (forall a, raises_Exceptions (k a)) ->
  raises_Exceptions (bind m k).
Proof.
  intros Hm Hk s e. rewrite bind_run. specialize (Hm s).
  destruct (m s) as [[t1 s1] [a|e1|]]; simpl in *.
  - specialize (Hk a s1). destruct (k a s1) as [[t2 s2] r]. simpl in *. apply Hk.
  - intro H. injection H as <-. now apply Hm.
  - discriminate.
Qed.

Lemma raises_when b m : raises_Exceptions m -> raises_Exceptions (when b m).
Proof. destruct b; simpl; auto using raises_ret. Qed.

Lemma raises_for_each {X} (xs : list X) body :
  (forall x, raises_Exceptions (body x)) -> raises_Exceptions (for_each xs body).
Proof.
  intro H. induction xs as [|x xs IH]; simpl.
  - apply raises_ret.
  - apply raises_bind; auto.
Qed.

Lemma raises_try_except {A} (m : M A) h :
  raises_Exceptions m ->
  (forall e, is_Exception e = true -> raises_Exceptions (h e)) ->
  raises_Exceptions (try_except m h).
Proof.
  intros Hm Hh s e. unfold try_except. specialize (Hm s).
  destruct (m s) as [[t1 s1] [a|e1|]]; simpl in *; try discriminate.
  destruct (is_Exception e1) eqn:E1.
  - specialize (Hh e1 E1 s1). destruct (h e1 s1) as [[t2 s2] r]. simpl in *.
    apply Hh.
  - simpl. apply Hm.
Qed.

End Raises.

(** The operators and lookups of the loop raise [TypeError],
    [ZeroDivisionError] or [KeyError], all of them [Exception]s. *)
Lemma truediv_raises a b e : truediv a b = Exc e -> is_Exception e = true.
Proof.
  destruct a, b; simpl;
    try (intro H; injection H as <-; reflexivity);
    match goal with |- context [if ?c then _ else _] => destruct c end;
    intro H; inversion H; reflexivity.
Qed.

Lemma add_raises a b e : add a b = Exc e -> is_Exception e = true.
Proof. destruct a, b; simpl; intro H; inversion H; reflexivity. Qed.

Lemma mul_raises a b e : mul a b = Exc e -> is_Exception e = true.
Proof. destruct a, b; simpl; intro H; inversion H; reflexivity. Qed.

Lemma gt_raises a b e : gt a b = Exc e -> is_Exception e = true.
Proof. destruct a, b; simpl; intro H; inversion H; reflexivity. Qed.

Lemma sweep_due_raises LONG_RECORD now checked e :
  sweep_due LONG_RECORD now checked = Exc e -> is_Exception e = true.
Proof.
  unfold sweep_due.
  destruct (truediv LONG_RECORD (VInt 2)) as [half|e1] eqn:E1.
  - destruct (add (VFloat checked) half) as [deadline|e2] eqn:E2.
    + apply gt_raises.
    + intro H. injection H as <-. exact (add_raises _ _ _ E2).
  - intro H. injection H as <-. exact (truediv_raises _ _ _ E1).
Qed.

Lemma new_time_raises LONG_RECORD n e :
  new_time LONG_RECORD n = Exc e -> is_Exception e = true.
Proof.
  unfold new_time. destruct (mul (VInt n) LONG_RECORD) as [x|e1] eqn:E1.
  - apply mul_raises.
  - intro H. injection H as <-. exact (mul_raises _ _ _ E1).
Qed.

Lemma dict_pop_raises f d e : dict_pop f d = Exc e -> is_Exception e = true.
Proof.
  induction d as [|[k v] d IH]; simpl.
  - intro H. injection H as <-. reflexivity.
  - destruct (Nat.eqb k f); [discriminate|].
    destruct (dict_pop f d) as [[x rest]|e1]; [discriminate|].
    intro H. injection H as <-. now apply IH.
Qed.

Lemma dict_get_raises f d e : dict_get f d = Exc e -> is_Exception e = true.
Proof.
  induction d as [|[k v] d IH]; simpl.
  - intro H. injection H as <-. reflexivity.
  - destruct (Nat.eqb k f); [discriminate | exact IH].
Qed.

Create HintDb raises discriminated.

#[export] Hint Resolve raises_ret raises_emit raises_get raises_modify
  raises_when raises_for_each : raises.
Lemma print_error_raises refused e :
  print_error refused = Some e -> is_Exception e = true.
Proof. destruct refused; simpl; intro H; inversion H. reflexivity. Qed.

#[export] Hint Resolve truediv_raises add_raises mul_raises gt_raises
  sweep_due_raises new_time_raises dict_pop_raises dict_get_raises
  subscript_raises_Exception print_error_raises : raises.

Ltac raises_step :=
  match goal with
  | |- raises_Exceptions (bind _ _) => apply raises_bind; [ | intro ]
  | |- raises_Exceptions (eval _) => apply raises_eval; intro
  | |- raises_Exceptions (may_raise _) => apply raises_may_raise; intro
  | |- raises_Exceptions (try_except _ _) => apply raises_try_except; [ | intros ? ? ]
  | |- raises_Exceptions (raise _) => apply raises_raise
  | |- raises_Exceptions (when _ _) => apply raises_when
  | |- raises_Exceptions (match ?x with _ => _ end) => destruct x
  | |- _ => solve [ eauto with raises ]
  end.
Ltac raises := repeat raises_step.

Section Endings.

Variable loads : string -> option json.
Variable LONG_RECORD : value.
Variable max_workers : Z.







End Endings.

Section Endings.

Variable loads : string -> option json.
Variable LONG_RECORD : value.
Variable max_workers : Z.





End Endings.



(* ===================================================================== *)
(** ** The lines after line 152 *)
(* ===================================================================== *)

Section SweepLines.

Variable loads : string -> option json.
Variable LONG_RECORD : value.
Variable max_workers : Z.
Hypothesis workers : 0 < max_workers.

(** The sweep's step for one task prints nothing, and comes back with the
    count of stuck tasks it was given: once it has counted one it raises. *)
Lemma sweep_one_counts_nothing w now f msg n s :
  let '(t, _, o) := sweep_one loads LONG_RECORD w now f msg n s in
  forallb no_sweep_line t = true /\ forall n', o = Done n' -> n' = n.
Proof.
  unfold sweep_one, orjson_loads, tuple_setitem, bind, emit, eval, get,
    may_raise, ret, raise.
  cbv beta iota.
  destruct (in_fut_done w f); cbn [negb]; cbv beta iota;
    [split; [reflexivity | intros n' H; now injection H]|].
  destruct (over_threshold _ _) as [[|]|e]; cbv beta iota;
    try (split; [reflexivity | intros n' H; (discriminate H || now injection H)]).
  destruct (loads _); cbv beta iota;
    [|split; [reflexivity | discriminate]].
  destruct (new_time _ _); cbv beta iota;
    [|split; [reflexivity | discriminate]].
  destruct (in_change w f); cbv beta iota;
    [split; [reflexivity | discriminate]|].
  destruct (dict_get f (futures s)); cbv beta iota;
    (split; [reflexivity | discriminate]).
Qed.

Lemma sweep_no_sweep_line w now items :
  emits no_sweep_line (sweep loads LONG_RECORD max_workers w now items 0).
Proof.
  induction items as [|[f msg] items IH]; intro s; cbn [sweep].
  - reflexivity.
  - rewrite bind_run.
    pose proof (sweep_one_counts_nothing w now f msg 0 s) as H1.
    destruct (sweep_one loads LONG_RECORD w now f msg 0 s) as [[t1 s1] [n'|e|]];
      destruct H1 as [Ht Hn]; cbn [fst]; try exact Ht.
    rewrite (Hn n' eq_refl).
    destruct (Z.leb_spec max_workers 0) as [Hle|_]; [lia|].
    cbn [when]. rewrite bind_run. cbn [ret app].
    specialize (IH s1).
    destruct (sweep loads LONG_RECORD max_workers w now items 0 s1) as [[t2 s2] o2].
    cbn [fst] in *. now rewrite forallb_app, Ht, IH.
Qed.

Lemma harvest_and_sweep_no_sweep_line w :
  emits no_sweep_line (harvest_and_sweep loads LONG_RECORD max_workers w).
Proof.
  unfold harvest_and_sweep.
  apply emits_bind; [shape | intro s0]. destruct (futures s0); [shape|].
  apply emits_bind; [shape | intro].
  apply emits_bind;
    [apply emits_for_each; intro; unfold harvest_one; shape | intro].
  shape. apply sweep_no_sweep_line.
Qed.

Lemma fetch_loop_no_sweep_line answers :
  emits no_sweep_line (fetch_loop LONG_RECORD max_workers answers).
Proof.
  assert (Hone : forall answer at_,
             emits no_sweep_line (guarded_fetch LONG_RECORD answer at_))
    by (intros; unfold guarded_fetch, fetch_once; shape).
  induction answers as [|[answer at_] answers IH]; simpl.
  - apply emits_bind; [shape | intro s0]. destruct (_ <? _); [|shape].
    apply emits_bind; [apply Hone | intro; shape].
  - apply emits_bind; [shape | intro s0]. destruct (_ <? _); [|shape].
    apply emits_bind; [apply Hone | intros [|]; [apply IH | shape]].
Qed.

Lemma loop_no_sweep_line ws :
  emits no_sweep_line (loop loads LONG_RECORD max_workers ws).
Proof.
  induction ws as [|w ws IH]; cbn [loop]; [shape|].
  apply emits_bind; [|intro; exact IH].
  unfold cycle. apply emits_bind; [apply harvest_and_sweep_no_sweep_line | intro].
  unfold gate_and_fetch. shape. apply fetch_loop_no_sweep_line.
Qed.

End SweepLines.

(** X18.  No run prints the line ['Extended visibility ...'] of line 153 or
    the line ['All ... threads are stuck on long running records'] of line
    155: the assignment of line 152 raises before the first, and the count
    of stuck tasks is never above zero where the second is tested. *)
Theorem sweep_lines_never_printed loads W :
  count is_sweep_line (fst (main loads W)) = 0%nat.
Proof.
  apply count_none. change (fun e => negb (is_sweep_line e)) with no_sweep_line.
  assert (Hc : forall t, forallb is_closing t = true ->
                         forallb no_sweep_line t = true).
  { intro t. rewrite !forallb_forall. intros H e He. specialize (H e He).
    destruct e as [[]| | | | | | | | | | | | |]; auto; discriminate. }
  pose proof (main_split loads W) as Hm.
  destruct (ThreadPoolExecutor (cpu_count W) (threads_per_process W))
    as [mw|e] eqn:E.
  - pose proof (ThreadPoolExecutor_positive _ _ _ E) as Hmw.
    pose proof (loop_no_sweep_line loads (LONG_RECORD_of W) mw Hmw (cycles W)
                  (initial W)) as Hl.
    destruct Hm as (tail & -> & Htail).
    rewrite forallb_app, (Hc _ Htail). simpl. now rewrite Hl.
  - rewrite Hm. reflexivity.
Qed.

(** Two workers, three messages: after the second pass one message has been
    deleted and counted. *)
Lemma messages_counts_deletes_witness :
  snd (loop Demo.loads (LONG_RECORD_of Demo.three_messages) 2
         (cycles Demo.three_messages) (initial Demo.three_messages)) = Running /\
  messages (snd (fst (loop Demo.loads (LONG_RECORD_of Demo.three_messages) 2
                        (cycles Demo.three_messages)
                        (initial Demo.three_messages)))) = 1.
Proof.
  pose proof (messages_counts_deletes Demo.loads Demo.three_messages 2
                (cycles Demo.three_messages)) as H.
  remember (loop Demo.loads (LONG_RECORD_of Demo.three_messages) 2
              (cycles Demo.three_messages) (initial Demo.three_messages))
    as r eqn:Er.
  assert (Ho : snd r = Running) by (rewrite Er; reflexivity).
  assert (Hc : count is_delete (fst (fst r)) = 1%nat) by (rewrite Er; reflexivity).
  destruct r as [[t s] o]. cbn [fst snd] in *.
  split; [exact Ho|]. rewrite (H Ho), Hc. reflexivity.
Defined.

(** Ten thousand messages deleted, one after the other: one throughput
    line. *)
Lemma one_rate_line_per_interval_witness :
  snd (loop Demo.loads (LONG_RECORD_of Scenes.long_run) 1
         (cycles Scenes.long_run) (initial Scenes.long_run)) = Running /\
  Z.of_nat (count is_delete
              (fst (fst (loop Demo.loads (LONG_RECORD_of Scenes.long_run) 1
                           (cycles Scenes.long_run) (initial Scenes.long_run)))))
    = 10000 /\
  Z.of_nat (count is_rate
              (fst (fst (loop Demo.loads (LONG_RECORD_of Scenes.long_run) 1
                           (cycles Scenes.long_run) (initial Scenes.long_run)))))
    = 1.
Proof.
  pose proof (one_rate_line_per_interval Demo.loads Scenes.long_run 1
                (cycles Scenes.long_run)) as H.
  remember (loop Demo.loads (LONG_RECORD_of Scenes.long_run) 1
              (cycles Scenes.long_run) (initial Scenes.long_run))
    as r eqn:Er.
  assert (E : (snd r, Z.of_nat (count is_delete (fst (fst r)))) = (Running, 10000))
    by (rewrite Er; vm_compute; reflexivity).
  destruct r as [[t s] o]. cbn [fst snd] in *.
  injection E as Ho Hd. split; [exact Ho|]. split; [exact Hd|].
  rewrite (H Ho), Hd. reflexivity.
Defined.
